(** * Family ontology tooling: dependency analysis and staged test execution

    A shallow embedding of

    - [scripts/dependency_analyzer.py]: [topological_sort], [_visit],
      [_calculate_dependency_levels], [_get_short_name];
    - [tests/runners/base_runner.py]: [normalize_results], [run_test],
      [run_tests];
    - [tests/runners/test_executor.py]: [apply_materialization],
      [run_level], [run_all_levels].

    Python sets of identifiers are [gset string], dictionaries are [gmap],
    and the instance attributes that the methods mutate are threaded through
    as an explicit record.  A raised exception is an outcome of its own and
    carries the state reached when it was raised, because the attributes keep
    whatever was written to them before the exception. *)

From Stdlib Require Import String Ascii.
From stdpp Require Import gmap strings list sorting relations pretty.

Local Open Scope string_scope.
Local Open Scope list_scope.

(** ** Python helpers shared by the three files *)

Module Py.

(** [s.split(sep)] for a one-character separator: never empty. *)
Fixpoint split (sep : ascii) (s : string) : list string :=
  match s with
  | EmptyString => [EmptyString]
  | String c s' =>
      if Ascii.eqb c sep then EmptyString :: split sep s'
      else match split sep s' with
           | w :: ws => String c w :: ws
           | [] => [String c EmptyString]
           end
  end.

(** [xs[-1]] on the result of a [split]. *)
Definition last_item (xs : list string) : string := List.last xs EmptyString.

(** [needle in hay] on strings. *)
Fixpoint contains (needle hay : string) : bool :=
  String.prefix needle hay ||
  match hay with
  | EmptyString => false
  | String _ hay' => contains needle hay'
  end.

(** [sorted(xs, key=key)]: a stable sort; [le] compares two keys.  An
    element goes in front of the first one whose key is not smaller, so
    elements with equal keys keep the order they came in. *)
Fixpoint insert_with {A K} (le : K → K → bool) (key : A → K) (x : A)
    (l : list A) : list A :=
  match l with
  | [] => [x]
  | y :: l' =>
      if le (key x) (key y) then x :: y :: l'
      else y :: insert_with le key x l'
  end.

Fixpoint sorted_with {A K} (le : K → K → bool) (key : A → K) (l : list A)
    : list A :=
  match l with
  | [] => []
  | x :: l' => insert_with le key x (sorted_with le key l')
  end.

(** The order in which [sorted_with] leaves two elements. *)
Definition key_le {A K} (le : K → K → bool) (key : A → K) (x y : A) : Prop :=
  le (key x) (key y) = true.

(** Keys that are strings compare by code point, character by character. *)
Definition sorted_by {A} (key : A → string) (l : list A) : list A :=
  sorted_with String.leb key l.

(** [sorted(s)] for a set of strings; the set is enumerated in whatever
    order it has, the result does not depend on it. *)
Definition sorted_set (s : gset string) : list string :=
  sorted_by id (elements s).

(** Tuples of integers compare lexicographically, a proper prefix first. *)
Fixpoint tuple_leb (xs ys : list Z) : bool :=
  match xs, ys with
  | [], _ => true
  | _ :: _, [] => false
  | x :: xs', y :: ys' =>
      if (x <? y)%Z then true
      else if (y <? x)%Z then false
      else tuple_leb xs' ys'
  end.

(** [s.strip()] on ASCII text. *)
Definition is_space (c : ascii) : bool :=
  let n := N_of_ascii c in
  ((9 <=? n) && (n <=? 13) || (28 <=? n) && (n <=? 32))%N.

Fixpoint lstrip (s : string) : string :=
  match s with
  | EmptyString => EmptyString
  | String c s' => if is_space c then lstrip s' else s
  end.

Fixpoint rstrip (s : string) : string :=
  match s with
  | EmptyString => EmptyString
  | String c s' =>
      match rstrip s' with
      | EmptyString => if is_space c then EmptyString else String c EmptyString
      | r => String c r
      end
  end.

Definition strip (s : string) : string := rstrip (lstrip s).

(** [c in s] for one character. *)
Fixpoint has_char (c : ascii) (s : string) : bool :=
  match s with
  | EmptyString => false
  | String c' s' => Ascii.eqb c' c || has_char c s'
  end.

(** [xs.index(x)] *)
Fixpoint index (x : string) (xs : list string) : option nat :=
  match xs with
  | [] => None
  | y :: xs' => if decide (y = x) then Some 0 else S <$> index x xs'
  end.

End Py.

(** ** scripts/dependency_analyzer.py *)

Module Analyzer.

(** The attributes of [OntologyDependencyAnalyzer] that the sorter reads or
    writes. *)
Record analyzer := Build_analyzer {
  dependencies : gmap string (gset string);
  sorted_relations : list string;
  visited : gset string;
  temp_marked : gset string
}.

(** [__init__] followed by [extract_dependencies]. *)
Definition init (deps : gmap string (gset string)) : analyzer :=
  {| dependencies := deps; sorted_relations := [];
     visited := ∅; temp_marked := ∅ |}.

(** [extract_dependencies] replaces the two dependency maps and nothing
    else; [declared] is the relation read from the ontology graph. *)
Definition extract_dependencies (declared : gmap string (gset string))
    (self : analyzer) : analyzer :=
  {| dependencies := declared; sorted_relations := sorted_relations self;
     visited := visited self; temp_marked := temp_marked self |}.

(** How a call ends: it returns, it raises, or the model runs out of the
    calls it was allowed to nest.  The last one is not an event of the
    program: the theorems show that it does not happen once [fuel] exceeds
    the number of nodes (the interpreter's own recursion limit is not
    modelled). *)
Inductive outcome (A : Type) : Type :=
  | Returned (a : A) (self : analyzer)
  | Raised (msg : string) (self : analyzer)
  | OutOfFuel.
Arguments Returned {A} a self.
Arguments Raised {A} msg self.
Arguments OutOfFuel {A}.

Global Instance analyzer_eq_dec : EqDecision analyzer.
Proof. solve_decision. Defined.

Global Instance outcome_eq_dec {A} `{EqDecision A} : EqDecision (outcome A).
Proof. solve_decision. Defined.

Definition cycle_msg : string :=
  "Cycle detected in property chain dependencies".

(** [self.dependencies.get(node, set())] *)
Definition deps_of (deps : gmap string (gset string)) (node : string)
    : gset string :=
  default ∅ (deps !! node).

(** A [for] loop whose body may raise. *)
Fixpoint for_each (body : string → analyzer → outcome unit)
    (l : list string) (self : analyzer) : outcome unit :=
  match l with
  | [] => Returned tt self
  | x :: l' =>
      match body x self with
      | Returned _ self' => for_each body l' self'
      | Raised m self' => Raised m self'
      | OutOfFuel => OutOfFuel
      end
  end.

(** [_visit]; [fuel] bounds the depth of the recursion. *)
Fixpoint _visit (fuel : nat) (node : string) (self : analyzer)
    : outcome unit :=
  match fuel with
  | 0 => OutOfFuel
  | S fuel' =>
      if decide (node ∈ temp_marked self) then Raised cycle_msg self
      else if decide (node ∈ visited self) then Returned tt self
      else
        let self1 :=
          {| dependencies := dependencies self;
             sorted_relations := sorted_relations self;
             visited := visited self;
             temp_marked := temp_marked self ∪ {[node]} |} in
        match for_each (_visit fuel')
                (Py.sorted_set (deps_of (dependencies self1) node)) self1 with
        | Returned _ self2 =>
            Returned tt
              {| dependencies := dependencies self2;
                 sorted_relations := sorted_relations self2 ++ [node];
                 visited := visited self2 ∪ {[node]};
                 temp_marked := temp_marked self2 ∖ {[node]} |}
        | Raised m self2 => Raised m self2
        | OutOfFuel => OutOfFuel
        end
  end.

(** [all_nodes]: the keys of the map and every member of every value. *)
Definition all_nodes (deps : gmap string (gset string)) : gset string :=
  dom deps ∪ ⋃ ((map_to_list deps).*2).

(** A Python [set] is iterated in an order fixed by the hashes of its
    members and its history, not by the members' values: any enumeration
    without repetition is a possible one. *)
Definition iteration_of (s : gset string) (order : list string) : Prop :=
  NoDup order ∧ ∀ x, x ∈ order ↔ x ∈ s.

(** The body of [for node in all_nodes]. *)
Definition top_body (fuel : nat) (node : string) (s : analyzer)
    : outcome unit :=
  if decide (node ∈ visited s) then Returned tt s else _visit fuel node s.

(** [topological_sort]; [order] is the order in which [for node in
    all_nodes] enumerates the set. *)
Definition topological_sort (fuel : nat) (order : list string)
    (self : analyzer) : outcome (list string) :=
  let self0 :=
    {| dependencies := dependencies self;
       sorted_relations := [];
       visited := ∅;
       temp_marked := temp_marked self |} in
  match for_each (top_body fuel) order self0 with
  | Returned _ self1 => Returned (sorted_relations self1) self1
  | Raised m self1 => Raised m self1
  | OutOfFuel => OutOfFuel
  end.

(** [a] depends on [b]. *)
Definition depends_on (deps : gmap string (gset string)) (a b : string)
    : Prop :=
  b ∈ deps_of deps a.

Definition acyclic (deps : gmap string (gset string)) : Prop :=
  ∀ n, ¬ tc (depends_on deps) n n.

(** *** Notions used to state what the traversal maintains *)

(** What a call that returns leaves untouched. *)
Definition frame (s s' : analyzer) : Prop :=
  temp_marked s' = temp_marked s ∧ dependencies s' = dependencies s.

(** [N] is the set of nodes; the output so far lists the visited nodes
    once each, and every listed node comes after all its dependencies. *)
Record wf (N : gset string) (s : analyzer) : Prop := Build_wf {
  wf_nodup : NoDup (sorted_relations s);
  wf_visited : ∀ x, x ∈ sorted_relations s ↔ x ∈ visited s;
  wf_nodes : visited s ⊆ N;
  wf_order : ∀ i a b,
    sorted_relations s !! i = Some a →
    depends_on (dependencies s) a b →
    ∃ j, j < i ∧ sorted_relations s !! j = Some b
}.

Definition closed (N : gset string) (deps : gmap string (gset string))
    : Prop :=
  ∀ a b, a ∈ N → depends_on deps a b → b ∈ N.

Definition visit_post (N : gset string) (node : string)
    (s s' : analyzer) : Prop :=
  wf N s' ∧ visited s ⊆ visited s' ∧ node ∈ visited s' ∧
  ∀ x, x ∈ visited s' → x ∈ visited s ∨ x ∉ temp_marked s.

Definition body_ok (N : gset string)
    (body : string → analyzer → outcome unit) : Prop :=
  (∀ x s u s', body x s = Returned u s' → frame s s') ∧
  ∀ node s u s',
    closed N (dependencies s) → node ∈ N → wf N s →
    body node s = Returned u s' → visit_post N node s s'.

(** The marked nodes are the ones whose visit is open: each depends on the
    node being visited. *)
Definition on_stack (deps : gmap string (gset string)) (s : analyzer)
    (node : string) : Prop :=
  ∀ t, t ∈ temp_marked s → tc (depends_on deps) t node.

(** A test for acyclicity: does the sort return on a new analyzer? *)
Definition sort_returns (fuel : nat) (deps : gmap string (gset string))
    : bool :=
  match topological_sort fuel (elements (all_nodes deps)) (init deps) with
  | Returned _ _ => true
  | _ => false
  end.

End Analyzer.

(** *** Dependency levels *)

Module Levels.

(** [node_uri.split('#')[-1].split('/')[-1]] *)
Definition _get_short_name (node_uri : string) : string :=
  Py.last_item (Py.split "/" (Py.last_item (Py.split "#" node_uri))).

(** [self.dependencies.items()] as the first pass walks it: the keys in
    the order of the dictionary, each value in the order of its set. *)
Definition items_of (deps : gmap string (gset string))
    (items : list (string * list string)) : Prop :=
  NoDup items.*1 ∧
  (∀ k l, (k, l) ∈ items → NoDup l) ∧
  ∀ k v, deps !! k = Some v ↔ ∃ l, (k, l) ∈ items ∧ v = list_to_set l.

Definition items_in_order (deps : gmap string (gset string))
    : list (string * list string) :=
  (λ kv, (kv.1, elements kv.2)) <$> map_to_list deps.

(** First pass: the short names and the pairs [(dep, prop)]. *)
Definition collect_deps (prop : string)
    (acc : gset string * list (string * string)) (dep_uri : string)
    : gset string * list (string * string) :=
  let dep := _get_short_name dep_uri in
  (acc.1 ∪ {[dep]}, acc.2 ++ [(dep, prop)]).

Definition collect_item (acc : gset string * list (string * string))
    (item : string * list string) : gset string * list (string * string) :=
  let prop := _get_short_name item.1 in
  foldl (collect_deps prop) (acc.1 ∪ {[prop]}, acc.2) item.2.

Definition collect (items : list (string * list string))
    : gset string * list (string * string) :=
  foldl collect_item (∅, []) items.

(** [rev_graph]: every node starts with an empty list, then each pair
    appends its source to the list of its target.  The targets are nodes,
    so the key is always there. *)
Definition build_rev_graph (nodes : gset string)
    (relationships : list (string * string)) : gmap string (list string) :=
  foldl (λ rev_graph st, alter (λ l, l ++ [st.1]) st.2 rev_graph)
        (gset_to_gmap [] nodes) relationships.

(** [rev_graph[node]], for a node of the graph. *)
Definition rev_of (rev_graph : gmap string (list string)) (node : string)
    : list string :=
  default [] (rev_graph !! node).

(** The loop that gives level 0 to the nodes without dependencies. *)
Definition init_levels (rev_graph : gmap string (list string))
    (order : list string) : gmap string nat :=
  foldl (λ levels node,
           match rev_of rev_graph node with
           | [] => <[node := 0]> levels
           | _ => levels
           end)
        ∅ order.

(** One iteration of the body of [for node in nodes] inside the [while];
    the state is [levels] and the flag [changed]. *)
Definition level_step (rev_graph : gmap string (list string))
    (st : gmap string nat * bool) (node : string) : gmap string nat * bool :=
  match st.1 !! node with
  | Some _ => st
  | None =>
      match rev_of rev_graph node with
      | [] => (<[node := 0]> st.1, true)
      | deps =>
          if forallb (λ dep, bool_decide (is_Some (st.1 !! dep))) deps
          then
            let max_dep_level :=
              max_list ((λ dep, default 0 (st.1 !! dep)) <$> deps) in
            (<[node := max_dep_level + 1]> st.1, true)
          else st
      end
  end.

Definition level_pass (rev_graph : gmap string (list string))
    (order : list string) (levels : gmap string nat)
    : gmap string nat * bool :=
  foldl (level_step rev_graph) (levels, false) order.

(** [while changed]: [None] when the passes allowed by [fuel] are used up
    and the last one still changed something. *)
Fixpoint level_loop (fuel : nat) (rev_graph : gmap string (list string))
    (order : list string) (levels : gmap string nat)
    : option (gmap string nat) :=
  match fuel with
  | 0 => None
  | S fuel' =>
      let st := level_pass rev_graph order levels in
      if st.2 then level_loop fuel' rev_graph order st.1 else Some st.1
  end.

(** The last loop: level 0 for whatever has no level yet. *)
Definition default_levels (order : list string) (levels : gmap string nat)
    : gmap string nat :=
  foldl (λ levels node,
           match levels !! node with
           | None => <[node := 0]> levels
           | Some _ => levels
           end)
        levels order.

(** [_calculate_dependency_levels]; [order] is the order in which the set
    [nodes] is enumerated by each [for node in nodes], and [fuel] bounds
    the number of passes of the [while] loop.  The forward [graph] that the
    function also fills is not read again and is left out. *)
Definition _calculate_dependency_levels (fuel : nat)
    (items : list (string * list string)) (order : list string)
    : option (gset string * list (string * string) * gmap string nat * nat) :=
  let nodes := (collect items).1 in
  let relationships := (collect items).2 in
  let rev_graph := build_rev_graph nodes relationships in
  match level_loop fuel rev_graph order (init_levels rev_graph order) with
  | None => None
  | Some levels =>
      let levels := default_levels order levels in
      let max_level := max_list (snd <$> map_to_list levels) in
      Some (nodes, relationships, levels, max_level)
  end.

(** The three structures the function builds before it assigns levels. *)
Definition short_nodes (items : list (string * list string)) : gset string :=
  (collect items).1.

Definition short_pairs (items : list (string * list string))
    : list (string * string) :=
  (collect items).2.

Definition short_graph (items : list (string * list string))
    : gmap string (list string) :=
  build_rev_graph (short_nodes items) (short_pairs items).

(** What one item adds to [nodes] and to [relationships]. *)
Definition item_names (item : string * list string) : list string :=
  _get_short_name item.1 :: (_get_short_name <$> item.2).

Definition item_pairs (item : string * list string)
    : list (string * string) :=
  (λ dep_uri, (_get_short_name dep_uri, _get_short_name item.1)) <$> item.2.

(** In the graph of short names, [a] depends on [b]. *)
Definition short_dep (rev_graph : gmap string (list string)) (a b : string)
    : Prop :=
  b ∈ rev_of rev_graph a.

(** What a level, once given, is worth: 0 without dependencies, else one
    more than the highest level among the dependencies, which all have
    one. *)
Definition level_for (rev_graph : gmap string (list string))
    (levels : gmap string nat) (node : string) (k : nat) : Prop :=
  (rev_of rev_graph node = [] → k = 0) ∧
  (rev_of rev_graph node ≠ [] →
   (∀ dep, dep ∈ rev_of rev_graph node → is_Some (levels !! dep)) ∧
   k = max_list ((λ dep, default 0 (levels !! dep))
                   <$> rev_of rev_graph node) + 1).

Definition level_ok (rev_graph : gmap string (list string))
    (levels : gmap string nat) : Prop :=
  ∀ node k, levels !! node = Some k → level_for rev_graph levels node k.

(** Nothing left to do for the [while] loop: every node without a level
    waits for a dependency without a level. *)
Definition settled (rev_graph : gmap string (list string))
    (order : list string) (levels : gmap string nat) : Prop :=
  ∀ node, node ∈ order → levels !! node = None →
    ∃ dep, dep ∈ rev_of rev_graph node ∧ levels !! dep = None.

(** The level the result gives to an identifier. *)
Definition level_of (levels : gmap string nat) (node_uri : string)
    : option nat :=
  levels !! _get_short_name node_uri.

End Levels.

(** ** Python's [repr] of the values that occur in result rows *)

Module Repr.

Definition backslash : ascii := "092"%char.
Definition squote : ascii := "039"%char.
Definition dquote : ascii := "034"%char.

Definition hex_digit (n : N) : ascii :=
  (if n <? 10 then ascii_of_N (48 + n) else ascii_of_N (87 + n))%N.

(** One character inside a string literal.  Bytes above 0x7f stand for the
    UTF-8 encoding of printable characters and are kept; Python escapes the
    characters beyond ASCII that are not printable (the no-break space, the
    soft hyphen, ...), so this is Python's [repr] on ASCII text and on text
    whose other characters are all printable. *)
Definition escape_char (quote c : ascii) : string :=
  let n := N_of_ascii c in
  if Ascii.eqb c backslash then String backslash (String backslash "")
  else if Ascii.eqb c quote then String backslash (String quote "")
  else if (n =? 9)%N then String backslash "t"
  else if (n =? 10)%N then String backslash "n"
  else if (n =? 13)%N then String backslash "r"
  else if ((n <? 32) || (n =? 127))%N then
    String backslash
      (String "x"
         (String (hex_digit (n / 16)) (String (hex_digit (n mod 16)) "")))
  else String c "".

Fixpoint escape (quote : ascii) (s : string) : string :=
  match s with
  | EmptyString => EmptyString
  | String c s' => String.append (escape_char quote c) (escape quote s')
  end.

(** Reading one escaped character back; used to tell literals apart. *)
Definition hex_value (c : ascii) : N :=
  let n := N_of_ascii c in
  (if n <? 58 then n - 48 else n - 87)%N.

Definition unescape_char (s : string) : option (ascii * string) :=
  match s with
  | EmptyString => None
  | String c rest =>
      if Ascii.eqb c backslash then
        match rest with
        | EmptyString => None
        | String d rest' =>
            if Ascii.eqb d "t" then Some ("009"%char, rest')
            else if Ascii.eqb d "n" then Some ("010"%char, rest')
            else if Ascii.eqb d "r" then Some ("013"%char, rest')
            else if Ascii.eqb d "x" then
              match rest' with
              | String h (String l rest'') =>
                  Some (ascii_of_N (16 * hex_value h + hex_value l), rest'')
              | _ => None
              end
            else Some (d, rest')
        end
      else Some (c, rest)
  end.

(** Single quotes, unless the text has one and has no double quote. *)
Definition quote_of (s : string) : ascii :=
  if Py.has_char squote s && negb (Py.has_char dquote s) then dquote
  else squote.

Definition repr_str (s : string) : string :=
  String (quote_of s)
    (String.append (escape (quote_of s) s) (String (quote_of s) "")).

End Repr.

(** ** tests/runners/base_runner.py *)

Module Runner.

(** What a backend binds a variable to: text, or the boolean of an ASK. *)
Inductive value : Type :=
  | VBool (b : bool)
  | VStr (s : string).

Global Instance value_eq_dec : EqDecision value.
Proof. solve_decision. Defined.

(** [str(value)] *)
Definition str (v : value) : string :=
  match v with
  | VBool true => "True"
  | VBool false => "False"
  | VStr s => s
  end.

(** [repr(value)] *)
Definition repr (v : value) : string :=
  match v with
  | VBool _ => str v
  | VStr s => Repr.repr_str s
  end.

Definition base_namespace : string := "http://example.org/family#".

(** The body of the inner loop of [normalize_results]. *)
Definition normalize_value (v : value) : value :=
  let value_str := str v in
  VStr (if Py.contains base_namespace value_str
        then String.append ":" (Py.last_item (Py.split "#" value_str))
        else value_str).

Definition normalize_results (results : list (gmap string value))
    : list (gmap string value) :=
  match results with
  | [] => []
  | row0 :: _ =>
      if Nat.eqb (length results) 1 && bool_decide (is_Some (row0 !! "result"))
      then results
      else (λ row : gmap string value, normalize_value <$> row) <$> results
  end.

(** [str(sorted(x.items()))]: the keys of a row are distinct, so the pairs
    are ordered by key alone. *)
Definition sorted_items (x : gmap string value) : list (string * value) :=
  Py.sorted_by fst (map_to_list x).

Definition repr_item (kv : string * value) : string :=
  String.append "("
    (String.append (Repr.repr_str kv.1)
       (String.append ", " (String.append (repr kv.2) ")"))).

Definition repr_items (items : list (string * value)) : string :=
  String.append "["
    (String.append (String.concat ", " (repr_item <$> items)) "]").

Definition row_key (x : gmap string value) : string :=
  repr_items (sorted_items x).

(** [sorted(actual, key=...) == sorted(expected, key=...)] *)
Definition results_match (actual expected : list (gmap string value)) : bool :=
  bool_decide (Py.sorted_by row_key actual = Py.sorted_by row_key expected).

(** [_ensure_prefix] *)
Definition _ensure_prefix (query : string) : string :=
  let prefix := "PREFIX : <http://example.org/family#>" in
  if negb (Py.contains prefix query) && negb (Py.contains "PREFIX :" query)
  then String.append prefix (String "010"%char query)
  else query.

Inductive status : Type := PASS | FAIL | ERROR.

Global Instance status_eq_dec : EqDecision status.
Proof. solve_decision. Defined.

Record detail := Build_detail {
  d_status : status;
  d_name : string;
  d_message : string;
  d_expected : option (list (gmap string value));
  d_actual : option (list (gmap string value))
}.

(** [self.results] *)
Record results := Build_results {
  total : nat;
  passed : nat;
  failed : nat;
  details : gmap string detail
}.

Global Instance detail_eq_dec : EqDecision detail.
Proof. solve_decision. Defined.

Global Instance results_eq_dec : EqDecision results.
Proof. solve_decision. Defined.

Definition fresh_results : results :=
  {| total := 0; passed := 0; failed := 0; details := ∅ |}.

(** A test of the suite; every test of the JSON file has the four keys. *)
Record test_case := Build_test_case {
  name : string;
  description : string;
  query : string;
  expected : list (gmap string value)
}.

(** The lines written to the console that tell what was run and how it
    ended. *)
Inductive event : Type :=
  | RunningLevel (level : Z)
  | Applying (script_path : string)
  | Stopping (message : string)
  | LevelHasFailures (level : Z)
  | TestHeader (test_id : string)
  | Verdict (s : status)
  | Summary (total passed failed : nat).

Global Instance event_eq_dec : EqDecision event.
Proof. solve_decision. Defined.

(** The verdicts among the lines of a console. *)
Definition verdicts (evs : list event) : list status :=
  omap (λ ev, match ev with Verdict s => Some s | _ => None end) evs.

Definition count_status (s : status) (evs : list event) : nat :=
  length (filter (λ s', s' = s) (verdicts evs)).

(** Lines that [run_test] writes. *)
Definition is_test_line (ev : event) : Prop :=
  match ev with
  | TestHeader _ | Verdict _ => True
  | _ => False
  end.

Definition is_level_start (ev : event) : Prop :=
  match ev with RunningLevel _ => True | _ => False end.

Definition is_script_line (ev : event) : Prop :=
  match ev with Applying _ => True | _ => False end.

Definition is_stopping (ev : event) : Prop :=
  match ev with Stopping _ => True | _ => False end.

Definition is_failing_verdict (ev : event) : Prop :=
  match ev with Verdict FAIL | Verdict ERROR => True | _ => False end.

(** After a failing verdict no level is started. *)
Fixpoint halts_after_failure (evs : list event) : Prop :=
  match evs with
  | [] => True
  | ev :: rest =>
      (is_failing_verdict ev → Forall (λ e, ¬ is_level_start e) rest) ∧
      halts_after_failure rest
  end.

(** The line after [Stopping], if there is one, is neither a script nor a
    test line. *)
Definition quiet_line (ev : event) : Prop :=
  ¬ is_script_line ev ∧ ¬ is_test_line ev.

Definition quiet_head (evs : list event) : Prop :=
  match evs with
  | [] => True
  | ev :: _ => quiet_line ev
  end.

Fixpoint quiet_after_stop (evs : list event) : Prop :=
  match evs with
  | [] => True
  | ev :: rest =>
      (is_stopping ev → quiet_head rest) ∧ quiet_after_stop rest
  end.

Inductive exn : Type :=
  | ValueError (message : string)
  | FileNotFoundError (message : string)
  | RuntimeError (message : string).

Definition exn_str (e : exn) : string :=
  match e with
  | ValueError m | FileNotFoundError m | RuntimeError m => m
  end.

Global Instance exn_eq_dec : EqDecision exn.
Proof. solve_decision. Defined.

(** The two backends behind one interface.  A query leaves the store as it
    is; an update may change it even when it ends in an error. *)
Class Backend (Store : Type) := Build_Backend {
  execute_query : Store → string → exn + list (gmap string value);
  execute_update : Store → string → Store * (exn + option Z)
}.

Section runner.
Context {Store : Type} `{!Backend Store}.

(** Python's [int] on text; [None] is its [ValueError]. *)
Variable int_of_str : string → option Z.

(** [self.test_suite['tests']].  Python keeps the tests in the order of
    the file; that order only decides between two identifiers with the
    same numeric key when the whole suite is sorted. *)
Variable tests : gmap string test_case.

(** What the methods read and write: the store behind the backend, the
    runner's [results] and the console. *)
Record world := Build_world {
  store : Store;
  runner_results : results;
  console : list event
}.

Inductive result (A : Type) : Type :=
  | Ok (a : A) (w : world)
  | Raise (e : exn) (w : world).
Arguments Ok {A} a w.
Arguments Raise {A} e w.

Definition M (A : Type) : Type := world → result A.

Definition ret {A} (a : A) : M A := λ w, Ok a w.

Definition bind {A B} (m : M A) (k : A → M B) : M B :=
  λ w, match m w with
       | Ok a w' => k a w'
       | Raise e w' => Raise e w'
       end.

Definition raise {A} (e : exn) : M A := λ w, Raise e w.

Definition print (ev : event) : M unit :=
  λ w, Ok tt {| store := store w; runner_results := runner_results w;
               console := console w ++ [ev] |}.

Definition update_results (f : results → results) : M unit :=
  λ w, Ok tt {| store := store w; runner_results := f (runner_results w);
               console := console w |}.

Definition get_store : M Store := λ w, Ok (store w) w.

Definition put_store (st : Store) : M unit :=
  λ w, Ok tt {| store := st; runner_results := runner_results w;
               console := console w |}.

Fixpoint for_ {A} (l : list A) (body : A → M unit) : M unit :=
  match l with
  | [] => ret tt
  | x :: l' => bind (body x) (λ _, for_ l' body)
  end.

Definition record_outcome (test_id : string) (s : status) (d : detail)
    : M unit :=
  update_results (λ r,
    {| total := total r;
       passed := if decide (s = PASS) then passed r + 1 else passed r;
       failed := if decide (s = PASS) then failed r else failed r + 1;
       details := <[test_id := d]> (details r) |}).

Definition run_test (test_id : string) (tc : test_case) : M bool :=
  bind (print (TestHeader test_id)) (λ _,
  bind get_store (λ st,
  match execute_query st (_ensure_prefix (Py.strip (query tc))) with
  | inr query_results =>
      let actual := normalize_results query_results in
      if results_match actual (expected tc) then
        bind (print (Verdict PASS)) (λ _,
        bind (record_outcome test_id PASS
                {| d_status := PASS; d_name := name tc;
                   d_message := "All assertions passed";
                   d_expected := None; d_actual := None |}) (λ _,
        ret true))
      else
        bind (print (Verdict FAIL)) (λ _,
        bind (record_outcome test_id FAIL
                {| d_status := FAIL; d_name := name tc;
                   d_message := "Results do not match expected values";
                   d_expected := Some (expected tc);
                   d_actual := Some actual |}) (λ _,
        ret false))
  | inl e =>
      bind (print (Verdict ERROR)) (λ _,
      bind (record_outcome test_id ERROR
              {| d_status := ERROR; d_name := name tc;
                 d_message := exn_str e;
                 d_expected := None; d_actual := None |}) (λ _,
      ret false))
  end)).

(** How a test ends on a given store: [ERROR] when the query raises,
    else [PASS] or [FAIL] by the comparison. *)
Definition verdict_on (st : Store) (tc : test_case) : status :=
  match execute_query st (_ensure_prefix (Py.strip (query tc))) with
  | inl _ => ERROR
  | inr query_results =>
      if results_match (normalize_results query_results) (expected tc)
      then PASS else FAIL
  end.

(** [tuple(map(int, x[0].split('.')))] *)
Definition id_key (test_id : string) : option (list Z) :=
  mapM int_of_str (Py.split "." test_id).

(** The tests to run: the requested ones in the order given, or, when
    [test_ids] is [None] or empty, the whole suite by numeric identifier. *)
Definition tests_to_run (test_ids : option (list string))
    : exn + list (string * test_case) :=
  match test_ids with
  | Some (tid0 :: tids) =>
      let test_ids := tid0 :: tids in
      let invalid_ids :=
        filter (λ tid, tests !! tid = None) test_ids in
      match invalid_ids with
      | [] =>
          inr (omap (λ tid, (λ tc, (tid, tc)) <$> tests !! tid) test_ids)
      | _ =>
          let available_ids := Py.sorted_by id (map_to_list tests).*1 in
          inl (ValueError
                 (String.append "Test ID(s) not found: "
                    (String.append (String.concat ", " invalid_ids)
                       (String "010"%char
                          (String.append "Available test IDs: "
                             (String.concat ", " available_ids))))))
      end
  | _ =>
      match mapM (λ item, (λ k, (k, item)) <$> id_key item.1)
                 (map_to_list tests) with
      | Some keyed => inr (snd <$> Py.sorted_with Py.tuple_leb fst keyed)
      | None => inl (ValueError "invalid literal for int() with base 10")
      end
  end.

(** The body of [for test_id, test_case in tests_to_run]. *)
Definition run_one (t : string * test_case) : M unit :=
  bind (run_test t.1 t.2) (λ _, ret tt).

Definition run_tests (test_ids : option (list string)) : M unit :=
  match tests_to_run test_ids with
  | inl e => raise e
  | inr to_run =>
      bind (update_results (λ r,
              {| total := length to_run; passed := passed r;
                 failed := failed r; details := details r |})) (λ _,
      bind (for_ to_run run_one) (λ _,
      λ w, print (Summary (total (runner_results w))
                          (passed (runner_results w))
                          (failed (runner_results w))) w))
  end.

End runner.

Arguments Ok {Store A} a w.
Arguments Raise {Store A} e w.

Global Instance world_eq_dec {Store} `{EqDecision Store} :
  EqDecision (world (Store:=Store)).
Proof. solve_decision. Defined.

Global Instance result_eq_dec {Store A} `{EqDecision Store, EqDecision A} :
  EqDecision (result (Store:=Store) A).
Proof. solve_decision. Defined.

End Runner.

(** ** tests/runners/test_executor.py *)

Module Executor.
Import Runner.

(** One entry of [config['test_levels']]. *)
Record level_info := Build_level_info {
  level_name : string;
  level_tests : list string
}.

Record config := Build_config {
  test_levels : gmap string level_info;
  materialization_requirements : gmap string (list string)
}.

(** What [run_level] returns: the runner's own [results] dictionary, the
    same object at every level, or a new dictionary with zero counts and
    the message of the error. *)
Inductive level_result : Type :=
  | RunnerResults
  | MaterializationError (message : string).

Global Instance level_result_eq_dec : EqDecision level_result.
Proof. solve_decision. Defined.

Section executor.
Context {Store : Type} `{!Backend Store}.
Variable int_of_str : string → option Z.
Variable tests : gmap string test_case.
Variable cfg : config.

(** The script files: path to content; a path without an entry does not
    exist. *)
Variable files : gmap string string.

(** [_resolve_script_path] *)
Variable _resolve_script_path : string → string.

(** [try: ... except Exception as e:] *)
Definition try_ {A} (m : M (Store:=Store) A) : M (exn + A) :=
  λ w, match m w with
       | Ok a w' => Ok (inr a) w'
       | Raise e w' => Ok (inl e) w'
       end.

Definition apply_materialization (script_path : string)
    : M (Store:=Store) unit :=
  match files !! script_path with
  | None =>
      raise (FileNotFoundError
               (String.append "Materialization script not found: "
                  script_path))
  | Some sparql_update =>
      bind (print (Applying script_path)) (λ _,
      bind get_store (λ st,
      let r := execute_update st sparql_update in
      bind (put_store r.1) (λ _,
      match r.2 with
      | inl e => raise e
      | inr _ => ret tt
      end)))
  end.

(** The loop over the scripts of a level; [Some message] when a script
    made [run_level] return early. *)
Fixpoint apply_scripts (materialize : list string)
    : M (Store:=Store) (option string) :=
  match materialize with
  | [] => ret None
  | script_path :: rest =>
      bind (try_ (apply_materialization script_path)) (λ r,
      match r with
      | inl e =>
          bind (print (Stopping (exn_str e))) (λ _, ret (Some (exn_str e)))
      | inr _ => apply_scripts rest
      end)
  end.

(** [results['failed']] on what [run_level] returned. *)
Definition failed_of (r : level_result) (w : world (Store:=Store)) : nat :=
  match r with
  | RunnerResults => failed (runner_results w)
  | MaterializationError _ => 0
  end.

Definition run_level (level : Z) (materialize : option (list string))
    : M (Store:=Store) level_result :=
  let level_str := pretty level in
  match test_levels cfg !! level_str with
  | None =>
      raise (ValueError
               (String.append "Invalid level: "
                  (String.append level_str ". Must be 0-4")))
  | Some level_info =>
      let test_ids := level_tests level_info in
      bind (print (RunningLevel level)) (λ _,
      let materialize :=
        match materialize with
        | None =>
            _resolve_script_path <$>
              default [] (materialization_requirements cfg !! level_str)
        | Some given => given
        end in
      bind (apply_scripts materialize) (λ stopped,
      match stopped with
      | Some message => ret (MaterializationError message)
      | None =>
          bind (run_tests int_of_str tests (Some test_ids)) (λ _,
          ret RunnerResults)
      end))
  end.

Definition level_key (level : Z) : string :=
  String.append "level_" (pretty level).

(** The body of [for level in range(start_level, 4)], with the [break]. *)
Fixpoint levels_loop (levels : list Z)
    (materialize_per_level : gmap Z (list string))
    (all_results : list (string * level_result))
    : M (Store:=Store) (list (string * level_result)) :=
  match levels with
  | [] => ret all_results
  | level :: rest =>
      let materialize := default [] (materialize_per_level !! level) in
      bind (run_level level (Some materialize)) (λ results,
      let all_results := all_results ++ [(level_key level, results)] in
      λ w,
        if decide (0 < failed_of results w) then
          bind (print (LevelHasFailures level)) (λ _, ret all_results) w
        else levels_loop rest materialize_per_level all_results w)
  end.

Definition run_all_levels (start_level : Z)
    (materialize_per_level : option (gmap Z (list string)))
    : M (Store:=Store) (list (string * level_result)) :=
  let materialize_per_level := default ∅ materialize_per_level in
  levels_loop (seqZ start_level (4 - start_level)) materialize_per_level [].

End executor.

End Executor.

(** ** scripts/dependency_analyzer.py: reading the ontology graph *)

Module Ontology.
Import Analyzer.

(** The terms of an rdflib graph read from Turtle; [str] of a term is its
    text. *)
Inductive term : Type :=
  | URIRef (iri : string)
  | BNode (label : string)
  | Literal (text : string).

Global Instance term_eq_dec : EqDecision term.
Proof. solve_decision. Defined.

Definition term_str (t : term) : string :=
  match t with
  | URIRef s | BNode s | Literal s => s
  end.

(** [isinstance(t, rdflib.term.BNode)] *)
Definition is_bnode (t : term) : bool :=
  match t with BNode _ => true | _ => false end.

(** [isinstance(t, (rdflib.URIRef, rdflib.Literal))] *)
Definition is_uri_or_literal (t : term) : bool :=
  match t with URIRef _ | Literal _ => true | BNode _ => false end.

(** [isinstance(t, rdflib.URIRef)] *)
Definition is_uri (t : term) : bool :=
  match t with URIRef _ => true | _ => false end.

(** What [extract_dependencies] asks of [self.graph]: the subject and
    object of each triple with predicate [owl:propertyChainAxiom], in the
    order [triples] yields them; the members [graph.items] lists for a
    node (a well-formed RDF list: rdflib's error on a list that loops is
    not modelled); the subject and object of each triple with predicate
    [:materializationDependency]. *)
Record graph := Build_graph {
  chain_axioms : list (term * term);
  items : term → list term;
  materialization_dependencies : list (term * term)
}.

(** The two [defaultdict(set)] of the analyzer; [forward] is
    [self.dependencies]. *)
Record dep_maps := Build_dep_maps {
  forward : gmap string (gset string);
  reverse_deps : gmap string (gset string)
}.

(** [self.dependencies[prop_uri].add(dep_uri)] and
    [self.reverse_deps[dep_uri].add(prop_uri)] *)
Definition add_dependency (prop_uri dep_uri : string) (m : dep_maps)
    : dep_maps :=
  {| forward :=
       <[prop_uri := deps_of (forward m) prop_uri ∪ {[dep_uri]}]> (forward m);
     reverse_deps :=
       <[dep_uri := deps_of (reverse_deps m) dep_uri ∪ {[prop_uri]}]>
         (reverse_deps m) |}.

(** The body of [for dep in chain]. *)
Definition chain_step (prop_uri : string) (m : dep_maps) (dep : term)
    : dep_maps :=
  if is_uri_or_literal dep then add_dependency prop_uri (term_str dep) m
  else m.

(** The body of the loop over the chain axioms. *)
Definition chain_axiom_step (g : graph) (m : dep_maps)
    (triple : term * term) : dep_maps :=
  let prop := triple.1 in
  let chain_node := triple.2 in
  if is_bnode chain_node
  then foldl (chain_step (term_str prop)) m (items g chain_node)
  else m.

(** The body of the loop over the annotations. *)
Definition annotation_step (m : dep_maps) (triple : term * term)
    : dep_maps :=
  let prop := triple.1 in
  let dep := triple.2 in
  if is_uri prop && is_uri dep
  then add_dependency (term_str prop) (term_str dep) m
  else m.

(** The two maps [extract_dependencies] leaves in the analyzer; what they
    held before is dropped. *)
Definition read_dependencies (g : graph) : dep_maps :=
  foldl annotation_step
    (foldl (chain_axiom_step g)
       {| forward := ∅; reverse_deps := ∅ |} (chain_axioms g))
    (materialization_dependencies g).

(** [extract_dependencies] on a graph. *)
Definition extract_dependencies_from (g : graph) (self : analyzer)
    : analyzer :=
  extract_dependencies (forward (read_dependencies g)) self.

(** The edges the ontology declares: a property to each member of one of
    its chains that is not a blank node, and a property to the object of
    one of its annotations when both are IRIs. *)
Definition declared_edge (g : graph) (a b : string) : Prop :=
  (∃ prop chain_node dep,
     (prop, chain_node) ∈ chain_axioms g ∧ is_bnode chain_node = true ∧
     dep ∈ items g chain_node ∧ is_uri_or_literal dep = true ∧
     term_str prop = a ∧ term_str dep = b) ∨
  (URIRef a, URIRef b) ∈ materialization_dependencies g.

(** What the loops keep: the two maps mirror each other and no key holds
    an empty set. *)
Definition mirrored (m : dep_maps) : Prop :=
  (∀ a b, b ∈ deps_of (forward m) a ↔ a ∈ deps_of (reverse_deps m) b) ∧
  (∀ a s, forward m !! a = Some s → s ≠ ∅) ∧
  (∀ b s, reverse_deps m !! b = Some s → s ≠ ∅).

End Ontology.

(** ** scripts/dependency_analyzer.py: the file of ordered relationships *)

Module Report.
Import Levels.

(** The lines [write_ordered_relationships] writes; the two lines of the
    header carry no data of the analysis. *)
Inductive line : Type :=
  | Title
  | GeneratedAt
  | Blank
  | Heading (level : nat)
  | Entry (rel_name rel : string).

Global Instance line_eq_dec : EqDecision line.
Proof. solve_decision. Defined.

(** [dependency_levels.get(rel_name, 0)] *)
Definition rel_level (dependency_levels : gmap string nat) (rel : string)
    : nat :=
  default 0 (dependency_levels !! _get_short_name rel).

(** The body of [for rel in relationships]. *)
Definition group_step (dependency_levels : gmap string nat)
    (by_level : gmap nat (list string)) (rel : string)
    : gmap nat (list string) :=
  let level := rel_level dependency_levels rel in
  <[level := default [] (by_level !! level) ++ [rel]]> by_level.

Definition relationships_by_level (relationships : list string)
    (dependency_levels : gmap string nat) : gmap nat (list string) :=
  foldl (group_step dependency_levels) ∅ relationships.

(** What is written for one level. *)
Definition level_section (by_level : gmap nat (list string)) (level : nat)
    : list line :=
  Heading level
  :: ((λ rel, Entry (_get_short_name rel) rel)
        <$> Py.sorted_by id (default [] (by_level !! level)))
  ++ [Blank].

(** [write_ordered_relationships]: the lines of the file, in order. *)
Definition write_ordered_relationships (relationships : list string)
    (dependency_levels : gmap string nat) : list line :=
  let by_level := relationships_by_level relationships dependency_levels in
  [Title; GeneratedAt; Blank]
  ++ (Py.sorted_with Nat.leb id (map_to_list by_level).*1
        ≫= level_section by_level).

(** The relationships of a file, in the order of their lines. *)
Definition entries (lines : list line) : list string :=
  omap (λ l, match l with Entry _ rel => Some rel | _ => None end) lines.

Definition headings (lines : list line) : list nat :=
  omap (λ l, match l with Heading level => Some level | _ => None end) lines.

(** Every relationship of a file with the level of the heading it stands
    under. *)
Fixpoint entries_under (current : option nat) (lines : list line)
    : list (option nat * string) :=
  match lines with
  | [] => []
  | Heading level :: rest => entries_under (Some level) rest
  | Entry _ rel :: rest => (current, rel) :: entries_under current rest
  | _ :: rest => entries_under current rest
  end.

(** [b] is written before [a]. *)
Definition before (l : list string) (b a : string) : Prop :=
  ∃ l1 l2 l3, l = l1 ++ b :: l2 ++ a :: l3.

End Report.

(** ** Reading a console and a run *)

Module Trace.
Import Runner.

(** The identifiers of the tests announced on a console, in order. *)
Definition headers (evs : list event) : list string :=
  omap (λ ev, match ev with TestHeader test_id => Some test_id | _ => None end)
       evs.

(** The order of the whole suite: by the integers between the dots. *)
Definition id_le (int_of_str : string → option Z) (a b : string) : Prop :=
  ∃ ka kb, id_key int_of_str a = Some ka ∧ id_key int_of_str b = Some kb ∧
           Py.tuple_leb ka kb = true.

End Trace.

(** ** Text in ASCII *)

Module PlainText.
Import Runner.

(** Text made of ASCII characters only.  On such text the models of
    [repr] and of [strip] are Python's, character by character. *)
Fixpoint is_ascii (s : string) : bool :=
  match s with
  | EmptyString => true
  | String c s' => (N_of_ascii c <? 128)%N && is_ascii s'
  end.

Definition ascii_value (v : value) : bool :=
  match v with
  | VBool _ => true
  | VStr s => is_ascii s
  end.

(** A row whose keys and values are in ASCII. *)
Definition ascii_row (x : gmap string value) : Prop :=
  map_Forall (λ k v, is_ascii k = true ∧ ascii_value v = true) x.

End PlainText.

Module Staged.
Import Runner Executor.

(** The scripts a call of [run_level] applies: the ones given, or the
    ones the configuration requires for the level. *)
Definition scripts_of (cfg : config) (_resolve_script_path : string → string)
    (level : Z) (materialize : option (list string)) : list string :=
  match materialize with
  | None =>
      _resolve_script_path <$>
        default [] (materialization_requirements cfg !! pretty level)
  | Some given => given
  end.

End Staged.

(** ** tests/cli.py: running all levels together *)

Module Cli.
Import Runner Executor.

(** The body of [for script in mat_config.get(str(level), [])]: a script
    not seen before goes to the end of the list. *)
Definition dedupe_step (acc : list string * gset string) (script : string)
    : list string * gset string :=
  if decide (script ∈ acc.2) then acc
  else (acc.1 ++ [script], acc.2 ∪ {[script]}).

(** [mat_config.get(str(level), [])] *)
Definition level_scripts (mat_config : gmap string (list string))
    (level : Z) : list string :=
  default [] (mat_config !! pretty level).

(** The fallback of the all-levels mode: the scripts of levels 0 to 9,
    each kept where it is first met. *)
Definition collect_scripts (mat_config : gmap string (list string))
    : list string :=
  (foldl (λ acc level, foldl dedupe_step acc (level_scripts mat_config level))
         ([], ∅) (seqZ 0 10)).1.

(** [all_materialize]: the entry [all] of the configuration when there is
    one. *)
Definition all_materialize (mat_config : gmap string (list string))
    : list string :=
  match mat_config !! "all" with
  | Some scripts => scripts
  | None => collect_scripts mat_config
  end.

(** [all_test_ids]: the tests of levels 0 to 9, one level after the
    other. *)
Definition all_test_ids (levels : gmap string level_info) : list string :=
  seqZ 0 10 ≫= (λ level : Z,
                  default [] (level_tests <$> levels !! pretty level)).

(** What the loop keeps, [seen] being the scripts met so far. *)
Definition kept_in_order (acc : list string * gset string)
    (seen : list string) : Prop :=
  NoDup acc.1 ∧
  (∀ x, x ∈ acc.2 ↔ x ∈ acc.1) ∧
  (∀ x, x ∈ acc.1 ↔ x ∈ seen) ∧
  ∀ i j x y,
    acc.1 !! i = Some x → acc.1 !! j = Some y → (i < j)%nat →
    ∃ i' j', Py.index x seen = Some i' ∧ Py.index y seen = Some j' ∧
             (i' < j')%nat.

Section cli.
Context {Store : Type} `{!Backend Store}.
Variable int_of_str : string → option Z.
Variable tests : gmap string test_case.
Variable cfg : config.
Variable files : gmap string string.
Variable _resolve_script_path : string → string.

(** The all-levels mode of [cmd_run_tests], from the scripts to the call
    of [run_tests]: the scripts are applied one after the other with no
    handler around them (the [try] of the command only catches
    [ValueError], after which it exits). *)
Definition run_all_together : M (Store:=Store) unit :=
  let scripts := all_materialize (materialization_requirements cfg) in
  bind (for_ (_resolve_script_path <$> scripts) (apply_materialization files))
       (λ _, run_tests int_of_str tests
               (Some (all_test_ids (test_levels cfg)))).

End cli.

End Cli.

(** ** Concrete inputs used below *)

Module Examples.

(** [grandparentOf = [parentOf, parentOf]], [siblingOf] depends on
    [parentOf]. *)
Definition family_deps : gmap string (gset string) :=
  {[ "grandparentOf" := {[ "parentOf" ]}; "siblingOf" := {[ "parentOf" ]} ]}.

Definition two_cycle : gmap string (gset string) :=
  {[ "X" := {[ "Y" ]}; "Y" := {[ "X" ]} ]}.

Definition x_on_y : gmap string (gset string) :=
  {[ "X" := {[ "Y" ]} ]}.

(** The same relation under the identifiers of the ontology. *)
Definition family_uris : gmap string (gset string) :=
  {[ "http://example.org/family#grandparentOf" :=
       {[ "http://example.org/family#parentOf" ]};
     "http://example.org/family#siblingOf" :=
       {[ "http://example.org/family#parentOf" ]} ]}.

(** Two identifiers with the same last segment. *)
Definition same_suffix : gmap string (gset string) :=
  {[ "http://example.org/family#parentOf" :=
       {[ "http://example.org/legacy/parentOf" ]} ]}.

(** A small backend: the store is the list of the updates applied so far.
    A query with [ASK] in it answers yes, one with [BROKEN] fails, any
    other returns the two people of the test data. *)
Definition toy_query (st : list string) (q : string)
    : Runner.exn + list (gmap string Runner.value) :=
  if Py.contains "ASK" q then inr [ {[ "result" := Runner.VBool true ]} ]
  else if Py.contains "BROKEN" q then
    inl (Runner.RuntimeError "Query failed: 400")
  else
    inr [ {[ "x" := Runner.VStr "http://example.org/family#Alice" ]};
          {[ "x" := Runner.VStr "http://example.org/family#Bob" ]} ].

Definition toy_update (st : list string) (u : string)
    : list string * (Runner.exn + option Z) :=
  if Py.contains "INVALID" u then
    (st, inl (Runner.RuntimeError "Update failed: 400"))
  else (st ++ [u], inr (Some 1%Z)).

Global Instance toy_backend : Runner.Backend (list string) :=
  {| Runner.execute_query := toy_query;
     Runner.execute_update := toy_update |}.

(** [int] on plain decimal numerals. *)
Fixpoint digits (acc : Z) (s : string) : option Z :=
  match s with
  | EmptyString => Some acc
  | String c s' =>
      let n := N_of_ascii c in
      if ((48 <=? n) && (n <=? 57))%N
      then digits (10 * acc + Z.of_N (n - 48)) s'
      else None
  end.

Definition decimal (s : string) : option Z :=
  match s with
  | EmptyString => None
  | _ => digits 0 s
  end.

Definition people_query : string := "SELECT ?x WHERE { ?x a :Person }".

Definition toy_tests : gmap string Runner.test_case :=
  {[ "0.1" := {| Runner.name := "people"; Runner.description := "all people";
                 Runner.query := people_query;
                 Runner.expected :=
                   [ {[ "x" := Runner.VStr ":Bob" ]};
                     {[ "x" := Runner.VStr ":Alice" ]} ] |};
     "0.2" := {| Runner.name := "carol"; Runner.description := "not there";
                 Runner.query := people_query;
                 Runner.expected := [ {[ "x" := Runner.VStr ":Carol" ]} ] |};
     "1.1" := {| Runner.name := "broken"; Runner.description := "bad query";
                 Runner.query := "BROKEN";
                 Runner.expected := [] |} ]}.

Definition toy_world : Runner.world (Store:=list string) :=
  {| Runner.store := []; Runner.runner_results := Runner.fresh_results;
     Runner.console := [] |}.

(** The world after the whole suite has been run once. *)
Definition toy_world_after_suite : Runner.world (Store:=list string) :=
  match Runner.run_tests decimal toy_tests None toy_world with
  | Runner.Ok _ w | Runner.Raise _ w => w
  end.

(** Four levels; the only test of level 0 fails. *)
Definition failing_first_level : Executor.config :=
  {| Executor.test_levels :=
       {[ "0" := {| Executor.level_name := "base";
                    Executor.level_tests := ["0.2"] |};
          "1" := {| Executor.level_name := "one";
                    Executor.level_tests := ["0.1"] |};
          "2" := {| Executor.level_name := "two";
                    Executor.level_tests := ["0.1"] |};
          "3" := {| Executor.level_name := "three";
                    Executor.level_tests := ["0.1"] |} ]};
     Executor.materialization_requirements := ∅ |}.

(** Four levels whose tests pass. *)
Definition passing_levels : Executor.config :=
  {| Executor.test_levels :=
       {[ "0" := {| Executor.level_name := "base";
                    Executor.level_tests := ["0.1"] |};
          "1" := {| Executor.level_name := "one";
                    Executor.level_tests := ["0.1"] |};
          "2" := {| Executor.level_name := "two";
                    Executor.level_tests := ["0.1"] |};
          "3" := {| Executor.level_name := "three";
                    Executor.level_tests := ["0.1"] |} ]};
     Executor.materialization_requirements := ∅ |}.

(** No script file exists. *)
Definition no_files : gmap string string := ∅.

(** A staged run whose level 0 names a script that is not there. *)
Definition missing_script_run
    : Runner.result (Store:=list string)
        (list (string * Executor.level_result)) :=
  Executor.run_all_levels decimal toy_tests passing_levels no_files id 0
    (Some {[ 0%Z := ["missing.rq"] ]}) toy_world.

Definition missing_script_world : Runner.world (Store:=list string) :=
  match missing_script_run with
  | Runner.Ok _ w | Runner.Raise _ w => w
  end.

Definition missing_script_results : list (string * Executor.level_result) :=
  match missing_script_run with
  | Runner.Ok all _ => all
  | Runner.Raise _ _ => []
  end.

End Examples.

(** ** More concrete inputs *)

Module Samples.
Import Examples.

(** The state a sort of [family_deps] leaves. *)
Definition family_sorted : Analyzer.analyzer :=
  {| Analyzer.dependencies := family_deps;
     Analyzer.sorted_relations := ["parentOf"; "grandparentOf"; "siblingOf"];
     Analyzer.visited := {[ "parentOf"; "grandparentOf"; "siblingOf" ]};
     Analyzer.temp_marked := ∅ |}.

(** The state the sort of [two_cycle] is aborted in. *)
Definition two_cycle_aborted : Analyzer.analyzer :=
  {| Analyzer.dependencies := two_cycle; Analyzer.sorted_relations := [];
     Analyzer.visited := ∅; Analyzer.temp_marked := {[ "X"; "Y" ]} |}.

(** A suite with an identifier that is not made of numbers. *)
Definition named_tests : gmap string Runner.test_case :=
  {[ "0.1" := {| Runner.name := "people"; Runner.description := "all people";
                 Runner.query := people_query;
                 Runner.expected := [] |};
     "smoke" := {| Runner.name := "ask"; Runner.description := "anything";
                   Runner.query := "ASK { ?s ?p ?o }";
                   Runner.expected :=
                     [ {[ "result" := Runner.VBool true ]} ] |} ]}.

(** One script that exists. *)
Definition one_script : gmap string string :=
  {[ "ok.rq" := "INSERT { ?x a :Person } WHERE { ?x :parentOf ?y }" ]}.

(** The world after level 0 was announced and [ok.rq] applied. *)
Definition world_after_ok_script : Runner.world (Store:=list string) :=
  {| Runner.store := ["INSERT { ?x a :Person } WHERE { ?x :parentOf ?y }"];
     Runner.runner_results := Runner.fresh_results;
     Runner.console := [Runner.RunningLevel 0; Runner.Applying "ok.rq"] |}.

(** Level 0 lists no test. *)
Definition empty_first_level : Executor.config :=
  {| Executor.test_levels :=
       {[ "0" := {| Executor.level_name := "base";
                    Executor.level_tests := [] |} ]};
     Executor.materialization_requirements := ∅ |}.

Definition world_after_empty_level : Runner.world (Store:=list string) :=
  match Executor.run_level decimal toy_tests empty_first_level no_files id
          0 None toy_world with
  | Runner.Ok _ w | Runner.Raise _ w => w
  end.

(** [passing_levels] with scripts required for two levels. *)
Definition scripted_levels : Executor.config :=
  {| Executor.test_levels := Executor.test_levels passing_levels;
     Executor.materialization_requirements :=
       {[ "0" := ["a.rq"]; "1" := ["a.rq"; "b.rq"] ]} |}.

(** The test [0.1] of [toy_tests]. *)
Definition people_test : Runner.test_case :=
  {| Runner.name := "people"; Runner.description := "all people";
     Runner.query := people_query;
     Runner.expected :=
       [ {[ "x" := Runner.VStr ":Bob" ]};
         {[ "x" := Runner.VStr ":Alice" ]} ] |}.

(** The world after the test [0.1] of [toy_tests] has been run. *)
Definition world_after_first_test : Runner.world (Store:=list string) :=
  {| Runner.store := [];
     Runner.runner_results :=
       {| Runner.total := 0; Runner.passed := 1; Runner.failed := 0;
          Runner.details :=
            {[ "0.1" := {| Runner.d_status := Runner.PASS;
                           Runner.d_name := "people";
                           Runner.d_message := "All assertions passed";
                           Runner.d_expected := None;
                           Runner.d_actual := None |} ]} |};
     Runner.console := [Runner.TestHeader "0.1"; Runner.Verdict Runner.PASS] |}.

(** The staged run of [failing_first_level]. *)
Definition failing_run_world : Runner.world (Store:=list string) :=
  match Executor.run_all_levels decimal toy_tests failing_first_level
          no_files id 0 None toy_world with
  | Runner.Ok _ w | Runner.Raise _ w => w
  end.

End Samples.

(** ** Tactics *)

(** Decidable facts about concrete inputs are settled by evaluation. *)
Ltac by_compute :=
  match goal with
  | |- ?P => apply (bool_decide_unpack P); vm_compute; exact I
  end.

(** [String.append] does not unfold under [simpl]; this pushes it under
    the characters of a literal. *)
Ltac str_simpl :=
  repeat match goal with
    | |- context [String.append (String ?c ?s) ?t] =>
        change (String.append (String c s) t)
          with (String c (String.append s t))
    | |- context [String.append EmptyString ?t] =>
        change (String.append EmptyString t) with t
    end.

(** The number of verdicts of a kind on a console of one line. *)
Ltac count_verdicts :=
  repeat match goal with
    | |- context [Runner.count_status ?s [Runner.Verdict ?v]] =>
        let r :=
          eval vm_compute in (Runner.count_status s [Runner.Verdict v]) in
        change (Runner.count_status s [Runner.Verdict v]) with r
    end.

(** ** Facts about the Python helpers *)

Module PyFacts.
Import Py.

Lemma insert_with_perm {A K} (le : K → K → bool) (key : A → K) x l :
  insert_with le key x l ≡ₚ x :: l.
Proof.
  induction l as [|y l IH]; simpl; [done|].
  destruct (le _ _); [done|].
  rewrite IH. apply Permutation_swap.
Qed.

Lemma sorted_with_perm {A K} (le : K → K → bool) (key : A → K) l :
  sorted_with le key l ≡ₚ l.
Proof.
  induction l as [|x l IH]; simpl; [done|].
  by rewrite insert_with_perm, IH.
Qed.

Lemma sorted_by_perm {A} (key : A → string) l : sorted_by key l ≡ₚ l.
Proof. apply sorted_with_perm. Qed.

Lemma elem_of_sorted_set s x : x ∈ sorted_set s ↔ x ∈ s.
Proof. unfold sorted_set. rewrite sorted_by_perm. apply elem_of_elements. Qed.

Lemma index_Some x xs i :
  index x xs = Some i → xs !! i = Some x.
Proof.
  revert i. induction xs as [|y xs IH]; intros i; simpl; [done|].
  destruct (decide (y = x)) as [->|_].
  - by intros [= <-].
  - destruct (index x xs) as [j|] eqn:E; simpl; [|done].
    intros [= <-]. simpl. by apply IH.
Qed.

Lemma index_NoDup x xs i :
  NoDup xs → xs !! i = Some x → index x xs = Some i.
Proof.
  revert i. induction xs as [|y xs IH]; intros i Hnd Hi; [done|].
  apply NoDup_cons in Hnd as [Hy Hnd]. simpl.
  destruct i as [|i]; simpl in Hi.
  - injection Hi as ->. by rewrite decide_True.
  - rewrite decide_False.
    + by rewrite (IH i).
    + intros ->. apply Hy. by eapply list_elem_of_lookup_2.
Qed.

(** *** The order on strings *)

Lemma string_leb_trans a b c :
  String.leb a b = true → String.leb b c = true → String.leb a c = true.
Proof.
  unfold String.leb. revert b c.
  induction a as [|x a IH]; intros [|y b] [|z c]; simpl; try done.
  unfold Ascii.compare.
  destruct (N.compare_spec (N_of_ascii x) (N_of_ascii y)) as [Hxy|Hxy|Hxy];
    destruct (N.compare_spec (N_of_ascii y) (N_of_ascii z)) as [Hyz|Hyz|Hyz];
    destruct (N.compare_spec (N_of_ascii x) (N_of_ascii z)) as [Hxz|Hxz|Hxz];
    try done; try lia.
  apply IH.
Qed.

Section sorted_with.
Context {A K : Type} (le : K → K → bool) (key : A → K).
Hypothesis le_total : ∀ a b, le a b = true ∨ le b a = true.

Lemma insert_with_sorted x l :
  Sorted (key_le le key) l → Sorted (key_le le key) (insert_with le key x l).
Proof.
  induction 1 as [|y l Hl IH Hy]; simpl.
  - by repeat constructor.
  - destruct (le (key x) (key y)) eqn:E.
    + constructor; [by constructor|]. by constructor.
    + constructor; [done|].
      assert (key_le le key y x) as Hyx.
      { destruct (le_total (key x) (key y)) as [H|H]; [congruence|done]. }
      destruct Hy as [|z l Hz]; simpl.
      * by constructor.
      * destruct (le (key x) (key z)); by constructor.
Qed.

Lemma sorted_with_sorted l : Sorted (key_le le key) (sorted_with le key l).
Proof.
  induction l as [|x l IH]; simpl; [constructor|].
  by apply insert_with_sorted.
Qed.

End sorted_with.

(** Sorting by an injective string key gives one result for all the
    arrangements of a list. *)
Lemma sorted_by_perm_eq {A} (key : A → string) (l1 l2 : list A) :
  (∀ x y, key x = key y → x = y) →
  l1 ≡ₚ l2 → sorted_by key l1 = sorted_by key l2.
Proof.
  intros Hinj Hperm.
  assert (Transitive (key_le String.leb key)).
  { intros x y z. apply string_leb_trans. }
  assert (AntiSymm (=) (key_le String.leb key)).
  { intros x y Hxy Hyx. apply Hinj. by apply String.leb_antisym. }
  apply (Sorted_unique (key_le String.leb key)).
  - apply sorted_with_sorted, String.leb_total.
  - apply sorted_with_sorted, String.leb_total.
  - by rewrite !sorted_by_perm.
Qed.

Lemma sorted_set_sorted s :
  Sorted (key_le String.leb id) (sorted_set s).
Proof. apply sorted_with_sorted, String.leb_total. Qed.

(** *** Substrings and splitting *)

Lemma prefix_append a b :
  String.prefix a b = true ↔ ∃ r, b = String.append a r.
Proof.
  revert a. induction b as [|y b IH]; intros [|x a]; simpl.
  - split; [by exists EmptyString|done].
  - split; [done|]. by intros [r Hr].
  - split; [by exists (String y b)|done].
  - destruct (ascii_dec x y) as [->|Hne].
    + rewrite IH. split; intros [r Hr]; exists r.
      * by rewrite Hr.
      * by injection Hr.
    + split; [done|]. intros [r Hr]. by injection Hr as <- _.
Qed.

Lemma contains_unfold needle hay :
  contains needle hay =
  String.prefix needle hay ||
  match hay with
  | EmptyString => false
  | String _ hay' => contains needle hay'
  end.
Proof. by destruct hay. Qed.

Lemma contains_spec needle hay :
  contains needle hay = true ↔
  ∃ pre post, hay = String.append pre (String.append needle post).
Proof.
  split.
  - induction hay as [|c hay IH]; rewrite contains_unfold, orb_true_iff.
    + intros [[r Hr]%prefix_append|?]; [|done]. by exists EmptyString, r.
    + intros [[r Hr]%prefix_append|Hc].
      * by exists EmptyString, r.
      * destruct (IH Hc) as (pre & post & ->). by exists (String c pre), post.
  - intros (pre & post & ->). induction pre as [|c pre IH].
    + rewrite contains_unfold. apply orb_true_iff. left.
      apply prefix_append. eauto.
    + change (String.append (String c pre) (String.append needle post))
        with (String c (String.append pre (String.append needle post))).
      rewrite contains_unfold, IH. apply orb_true_r.
Qed.

Lemma has_char_append c (a b : string) :
  has_char c (String.append a b) = has_char c a || has_char c b.
Proof.
  induction a as [|x a IH]; [done|].
  change (String.append (String x a) b) with (String x (String.append a b)).
  simpl. by rewrite IH, orb_assoc.
Qed.

Lemma split_no_sep sep s : has_char sep s = false → split sep s = [s].
Proof.
  induction s as [|c s IH]; simpl; [done|].
  intros [Hc Hs]%orb_false_iff. rewrite Hc. by rewrite IH.
Qed.

Lemma split_sep sep s :
  has_char sep s = true → ∃ w1 w2 ws, split sep s = w1 :: w2 :: ws.
Proof.
  induction s as [|c s IH]; simpl; [done|].
  destruct (Ascii.eqb c sep) eqn:Hc; simpl.
  - intros _. destruct (has_char sep s) eqn:Hs.
    + destruct (IH eq_refl) as (w1 & w2 & ws & ->). eauto.
    + rewrite split_no_sep by done. eauto.
  - intros Hs. destruct (IH Hs) as (w1 & w2 & ws & ->). eauto.
Qed.

Lemma last_split_no_sep sep s :
  has_char sep (last_item (split sep s)) = false.
Proof.
  unfold last_item. induction s as [|c s IH]; simpl; [done|].
  destruct (Ascii.eqb c sep) eqn:Hc.
  - destruct (split sep s) eqn:E; [|done].
    clear -E. by destruct s; simpl in E; repeat case_match.
  - destruct (split sep s) as [|w [|w2 ws]] eqn:E; simpl in *.
    + by rewrite Hc.
    + by rewrite Hc.
    + done.
Qed.

(** The last item is what follows the last separator. *)
Lemma last_split_suffix sep s :
  has_char sep s = true →
  ∃ pre, s = String.append pre (String sep (last_item (split sep s))).
Proof.
  unfold last_item. induction s as [|c s IH]; simpl; [done|].
  destruct (Ascii.eqb_spec c sep) as [->|Hc]; simpl.
  - intros _. destruct (has_char sep s) eqn:Hs.
    + destruct (IH eq_refl) as [pre Hpre].
      destruct (split_sep sep s Hs) as (w1 & w2 & ws & E). rewrite E in *.
      exists (String sep pre). str_simpl. f_equal. exact Hpre.
    + rewrite split_no_sep by done. by exists EmptyString.
  - intros Hs. destruct (IH Hs) as [pre Hpre].
    destruct (split_sep sep s Hs) as (w1 & w2 & ws & E). rewrite E in *.
    exists (String c pre). str_simpl. f_equal. exact Hpre.
Qed.

End PyFacts.

(** ** Literals can be told apart *)

Module ReprFacts.
Import Repr.

Lemma append_cons c (s t : string) :
  String.append (String c s) t = String c (String.append s t).
Proof. reflexivity. Qed.

Lemma append_empty (t : string) : String.append EmptyString t = t.
Proof. reflexivity. Qed.

Lemma append_assoc (a b c : string) :
  String.append (String.append a b) c = String.append a (String.append b c).
Proof. induction a as [|x a IH]; [done|]. str_simpl. by rewrite IH. Qed.

Lemma quote_of_cases s : quote_of s = squote ∨ quote_of s = dquote.
Proof. unfold quote_of. destruct (_ && _); auto. Qed.

Lemma unescape_escape quote c rest :
  quote = squote ∨ quote = dquote →
  unescape_char (String.append (escape_char quote c) rest) = Some (c, rest).
Proof.
  intros [->| ->]; destruct c as [[] [] [] [] [] [] [] []]; reflexivity.
Qed.

(** An escaped character never starts with the closing quote. *)
Lemma escape_char_head quote c :
  quote = squote ∨ quote = dquote →
  ∃ h t, escape_char quote c = String h t ∧ h ≠ quote.
Proof.
  intros [->| ->]; destruct c as [[] [] [] [] [] [] [] []];
    eexists _, _; (split; [reflexivity|discriminate]).
Qed.

Lemma escape_inj quote s1 s2 r1 r2 :
  quote = squote ∨ quote = dquote →
  String.append (escape quote s1) (String quote r1)
    = String.append (escape quote s2) (String quote r2) →
  s1 = s2 ∧ r1 = r2.
Proof.
  intros Hq. revert s2.
  induction s1 as [|c1 s1 IH]; intros [|c2 s2]; simpl.
  - str_simpl. by intros [= ->].
  - rewrite append_assoc.
    destruct (escape_char_head quote c2 Hq) as (h & t & -> & Hh).
    str_simpl. by intros [= <- _].
  - rewrite append_assoc.
    destruct (escape_char_head quote c1 Hq) as (h & t & -> & Hh).
    str_simpl. by intros [= -> _].
  - rewrite !append_assoc. intros Heq.
    apply (f_equal unescape_char) in Heq.
    rewrite !unescape_escape in Heq by done.
    injection Heq as -> Heq. by destruct (IH _ Heq) as [-> ->].
Qed.

(** What follows a literal does not blur where it ends. *)
Lemma repr_str_inj s1 s2 r1 r2 :
  String.append (repr_str s1) r1 = String.append (repr_str s2) r2 →
  s1 = s2 ∧ r1 = r2.
Proof.
  unfold repr_str. str_simpl. intros [= Hq Heq].
  rewrite Hq in Heq.
  rewrite !append_assoc in Heq. rewrite ?append_cons, ?append_empty in Heq.
  by apply escape_inj in Heq; [|apply quote_of_cases].
Qed.

End ReprFacts.

(** ** The canonical key of a row *)

Module KeyFacts.
Import Py PyFacts Repr ReprFacts Runner.

Lemma repr_inj v1 v2 r1 r2 :
  String.append (repr v1) r1 = String.append (repr v2) r2 →
  v1 = v2 ∧ r1 = r2.
Proof.
  destruct v1 as [b1|s1], v2 as [b2|s2]; simpl.
  - destruct b1, b2; str_simpl; try discriminate; by intros [= ->].
  - unfold repr_str.
    destruct b1; destruct (quote_of_cases s2) as [-> | ->];
      str_simpl; discriminate.
  - unfold repr_str.
    destruct b2; destruct (quote_of_cases s1) as [-> | ->];
      str_simpl; discriminate.
  - by intros [-> ->]%repr_str_inj.
Qed.

Local Opaque repr_str repr.

Lemma String_tail c1 c2 (s1 s2 : string) :
  String c1 s1 = String c2 s2 → s1 = s2.
Proof. by intros [= _ ->]. Qed.

Lemma repr_item_inj kv1 kv2 r1 r2 :
  String.append (repr_item kv1) r1 = String.append (repr_item kv2) r2 →
  kv1 = kv2 ∧ r1 = r2.
Proof.
  destruct kv1 as [k1 v1], kv2 as [k2 v2]. unfold repr_item. simpl.
  rewrite !append_assoc. str_simpl. intros Heq%String_tail.
  apply repr_str_inj in Heq as [-> Heq]. revert Heq. str_simpl.
  intros Heq%String_tail%String_tail. rewrite ?append_assoc in Heq.
  apply repr_inj in Heq as [-> Heq]. revert Heq. str_simpl.
  by intros ->%String_tail.
Qed.

Lemma repr_item_head kv : ∃ t, repr_item kv = String "(" t.
Proof. unfold repr_item. str_simpl. eauto. Qed.

Lemma concat_items_step z l r :
  String.append (String.concat ", " (repr_item <$> z :: l)) (String "]" r)
  = String.append (repr_item z)
      match l with
      | [] => String "]" r
      | _ => String ","
               (String " "
                  (String.append (String.concat ", " (repr_item <$> l))
                     (String "]" r)))
      end.
Proof.
  destruct l as [|z' l]; [done|].
  change (repr_item <$> z :: z' :: l)
    with (repr_item z :: (repr_item <$> z' :: l)).
  change (String.concat ", " (repr_item z :: (repr_item <$> z' :: l)))
    with (String.append (repr_item z)
            (String.append ", " (String.concat ", " (repr_item <$> z' :: l)))).
  by rewrite !append_assoc.
Qed.

Lemma concat_items_inj l1 l2 r1 r2 :
  String.append (String.concat ", " (repr_item <$> l1)) (String "]" r1)
    = String.append (String.concat ", " (repr_item <$> l2)) (String "]" r2) →
  l1 = l2 ∧ r1 = r2.
Proof.
  revert l2. induction l1 as [|x l1 IH]; intros [|y l2].
  - simpl. str_simpl. by intros ->%String_tail.
  - rewrite concat_items_step. destruct (repr_item_head y) as [t ->].
    simpl. str_simpl. discriminate.
  - rewrite concat_items_step. destruct (repr_item_head x) as [t ->].
    simpl. str_simpl. discriminate.
  - rewrite !concat_items_step. intros [-> Heq]%repr_item_inj.
    destruct l1 as [|x1 l1], l2 as [|y1 l2].
    + by apply String_tail in Heq as ->.
    + discriminate.
    + discriminate.
    + apply String_tail, String_tail in Heq.
      by destruct (IH _ Heq) as [-> ->].
Qed.

Lemma repr_items_inj l1 l2 : repr_items l1 = repr_items l2 → l1 = l2.
Proof.
  unfold repr_items. str_simpl. intros Heq%String_tail.
  by apply concat_items_inj in Heq as [-> _].
Qed.

Lemma sorted_items_inj (x y : gmap string value) :
  sorted_items x = sorted_items y → x = y.
Proof.
  intros Heq. apply (map_to_list_inj (M:=gmap string)).
  rewrite <- (sorted_by_perm fst (map_to_list x)).
  rewrite <- (sorted_by_perm fst (map_to_list y)).
  unfold sorted_items in Heq. by rewrite Heq.
Qed.

(** Two rows with the same key are the same row. *)
Lemma row_key_inj (x y : gmap string value) : row_key x = row_key y → x = y.
Proof. intros Heq. by apply sorted_items_inj, repr_items_inj. Qed.

(** The items of a row come out ordered by their names. *)
Lemma sorted_items_sorted (x : gmap string value) :
  Sorted (key_le String.leb fst) (sorted_items x).
Proof. apply sorted_with_sorted, String.leb_total. Qed.

End KeyFacts.

(** ** The runner *)

Module RunnerFacts.
Import Py PyFacts Runner KeyFacts.

Lemma verdicts_app evs1 evs2 :
  verdicts (evs1 ++ evs2) = verdicts evs1 ++ verdicts evs2.
Proof. unfold verdicts. apply omap_app. Qed.

Lemma count_status_app s evs1 evs2 :
  count_status s (evs1 ++ evs2) = count_status s evs1 + count_status s evs2.
Proof.
  unfold count_status. by rewrite verdicts_app, filter_app, length_app.
Qed.

Lemma count_status_total evs :
  count_status PASS evs + count_status FAIL evs + count_status ERROR evs
  = length (verdicts evs).
Proof.
  unfold count_status. induction (verdicts evs) as [|s l IH]; [done|].
  rewrite !filter_cons. destruct s; repeat case_decide; simplify_eq/=; lia.
Qed.

Section runner.
Context {Store : Type} `{!Backend Store}.
Variable int_of_str : string → option Z.
Variable tests : gmap string test_case.

(** One test: two lines on the console, one counter moved by one. *)
Lemma run_test_spec test_id tc (w : world (Store:=Store)) :
  ∃ b v w',
    run_test test_id tc w = Ok b w' ∧
    store w' = store w ∧
    console w' = console w ++ [TestHeader test_id; Verdict v] ∧
    total (runner_results w') = total (runner_results w) ∧
    passed (runner_results w')
      = passed (runner_results w) + count_status PASS [Verdict v] ∧
    failed (runner_results w')
      = failed (runner_results w) + count_status FAIL [Verdict v]
        + count_status ERROR [Verdict v] ∧
    d_status <$> details (runner_results w') !! test_id = Some v ∧
    v = verdict_on (store w) tc ∧
    (b = true ↔ v = PASS).
Proof.
  unfold run_test, verdict_on, bind, print, get_store, record_outcome,
    update_results, ret. simpl.
  destruct (execute_query _ _) as [e|rows] eqn:E;
    [exists false, ERROR|destruct (results_match _ _) eqn:Em;
                          [exists true, PASS|exists false, FAIL]];
    (eexists; split; [done|]); simpl; rewrite <- app_assoc;
    count_verdicts; split_and!;
    try done; try lia; by rewrite lookup_insert_eq.
Qed.

Lemma count_status_header s test_id evs :
  count_status s (TestHeader test_id :: evs) = count_status s evs.
Proof. reflexivity. Qed.

(** The loop over the tests: every test gets its verdict, and the two
    counters move by the number of verdicts of their kind. *)
Lemma for_run_test_spec to_run (w : world (Store:=Store)) :
  ∃ w' new,
    for_ to_run run_one w = Ok tt w' ∧
    store w' = store w ∧
    console w' = console w ++ new ∧
    Forall is_test_line new ∧
    verdicts new = (λ t, verdict_on (store w) t.2) <$> to_run ∧
    total (runner_results w') = total (runner_results w) ∧
    passed (runner_results w')
      = passed (runner_results w) + count_status PASS new ∧
    failed (runner_results w')
      = failed (runner_results w) + count_status FAIL new
        + count_status ERROR new.
Proof.
  revert w. induction to_run as [|[tid tc] to_run IH]; intros w.
  - exists w, []. simpl. rewrite app_nil_r.
    split_and!; try done; unfold count_status; simpl; lia.
  - destruct (run_test_spec tid tc w)
      as (b & v & w1 & Hrun & Hst & Hcon & Htot & Hpass & Hfail & _ & Hv
            & _).
    destruct (IH w1) as (w' & new & Hloop & Hst' & Hcon' & Hnew & Hlen
                           & Htot' & Hpass' & Hfail').
    exists w', ([TestHeader tid; Verdict v] ++ new).
    split.
    { simpl. unfold bind at 1, run_one at 1, bind at 1. simpl.
      rewrite Hrun. unfold ret at 1. exact Hloop. }
    rewrite !count_status_app, !count_status_header, verdicts_app.
    split_and!.
    + congruence.
    + by rewrite Hcon', Hcon, <- app_assoc.
    + apply Forall_app. split; [by repeat constructor|done].
    + simpl. rewrite Hlen, Hst. by subst v.
    + congruence.
    + lia.
    + lia.
Qed.

Lemma run_tests_spec test_ids (w : world (Store:=Store)) :
  match tests_to_run int_of_str tests test_ids with
  | inl e => run_tests int_of_str tests test_ids w = Raise e w
  | inr to_run =>
      ∃ w' new,
        run_tests int_of_str tests test_ids w = Ok tt w' ∧
        store w' = store w ∧
        console w'
          = console w ++ new
              ++ [Summary (total (runner_results w'))
                    (passed (runner_results w'))
                    (failed (runner_results w'))] ∧
        Forall is_test_line new ∧
        verdicts new = (λ t, verdict_on (store w) t.2) <$> to_run ∧
        total (runner_results w') = length to_run ∧
        passed (runner_results w')
          = passed (runner_results w) + count_status PASS new ∧
        failed (runner_results w')
          = failed (runner_results w) + count_status FAIL new
            + count_status ERROR new
  end.
Proof.
  unfold run_tests. destruct (tests_to_run _ _ _) as [e|to_run]; [done|].
  unfold bind at 1, update_results at 1.
  match goal with
  | |- context [bind (for_ to_run run_one) _ ?w0] =>
      destruct (for_run_test_spec to_run w0)
        as (w1 & new & Hloop & Hst & Hcon & Hnew & Hlen & Htot & Hpass
              & Hfail)
  end.
  unfold bind at 1. rewrite Hloop. unfold print. simpl in *.
  eexists _, new. split; [done|]. simpl.
  rewrite Hcon, <- app_assoc. by split_and!.
Qed.

End runner.

End RunnerFacts.

(** ** The level computation *)

Module LevelsFacts.
Import Py PyFacts Levels.

Section loop.
Variable rev_graph : gmap string (list string).

Lemma level_in_deps (levels : gmap string nat) (deps : list string) dep k :
  dep ∈ deps → levels !! dep = Some k →
  (k ≤ max_list ((λ dep, default 0 (levels !! dep)) <$> deps))%nat.
Proof.
  intros Hd Hk. apply max_list_elem_of_le, list_elem_of_fmap.
  exists dep. by rewrite Hk.
Qed.

(** A level is above the levels of the dependencies. *)
Lemma level_ok_edge levels a b k :
  level_ok rev_graph levels → levels !! a = Some k →
  short_dep rev_graph a b →
  ∃ kb, levels !! b = Some kb ∧ kb < k.
Proof.
  intros Hok Ha Hab. destruct (Hok a k Ha) as [_ Hdeps].
  unfold short_dep in Hab.
  destruct Hdeps as [Hall ->].
  { intros E. rewrite E in Hab. by apply elem_of_nil in Hab. }
  destruct (Hall b Hab) as [kb Hkb].
  exists kb. split; [done|].
  pose proof (level_in_deps levels _ b kb Hab Hkb). lia.
Qed.

Lemma level_ok_path levels a b k :
  level_ok rev_graph levels → tc (short_dep rev_graph) a b →
  levels !! a = Some k → ∃ kb, levels !! b = Some kb ∧ kb < k.
Proof.
  intros Hok Hab. revert k.
  induction Hab as [a b Hab|a b c Hab _ IH]; intros k Ha.
  - by eapply level_ok_edge.
  - destruct (level_ok_edge _ _ _ _ Hok Ha Hab) as (kb & Hb & Hlt).
    destruct (IH kb Hb) as (kc & Hc & Hlt'). exists kc. split; [done|lia].
Qed.

(** No node of a cycle ever has a level that [level_ok] accepts. *)
Lemma level_ok_cycle levels node :
  level_ok rev_graph levels → tc (short_dep rev_graph) node node →
  levels !! node = None.
Proof.
  intros Hok Hc. destruct (levels !! node) as [k|] eqn:E; [|done].
  destruct (level_ok_path _ _ _ _ Hok Hc E) as (k' & Hk' & Hlt).
  rewrite E in Hk'. injection Hk' as <-. lia.
Qed.

Lemma level_ok_insert levels node k :
  level_ok rev_graph levels → levels !! node = None →
  level_for rev_graph levels node k →
  level_ok rev_graph (<[node := k]> levels).
Proof.
  intros Hok Hnone Hk.
  assert (∀ m km, level_for rev_graph levels m km →
            level_for rev_graph (<[node := k]> levels) m km) as Hsame.
  { intros m km [H0 Hdeps]. split; [done|]. intros Hne.
    destruct (Hdeps Hne) as [Hall ->].
    assert (∀ dep, dep ∈ rev_of rev_graph m → dep ≠ node) as Hfresh.
    { intros dep Hd ->. destruct (Hall node Hd) as [? ?]. congruence. }
    split.
    - intros dep Hd. rewrite lookup_insert_ne; [by apply Hall|].
      intros <-. by eapply Hfresh.
    - do 2 f_equal. apply list_fmap_ext. intros i dep Hd.
      rewrite lookup_insert_ne; [done|].
      intros <-. apply list_elem_of_lookup_2 in Hd. by eapply Hfresh. }
  intros m km. rewrite lookup_insert. case_decide as Hm.
  - subst m. intros [= <-]. by apply Hsame.
  - intros Hkm. by apply Hsame, Hok.
Qed.

Lemma forallb_false {A} (f : A → bool) (l : list A) :
  forallb f l = false → ∃ x, x ∈ l ∧ f x = false.
Proof.
  induction l as [|x l IH]; simpl; [done|].
  destruct (f x) eqn:E; simpl.
  - intros (y & Hy & Hf)%IH. exists y. split; [by right|done].
  - intros _. exists x. split; [by left|done].
Qed.

Lemma forallb_true {A} (f : A → bool) (l : list A) :
  forallb f l = true → ∀ x, x ∈ l → f x = true.
Proof.
  intros H x Hx. rewrite forallb_forall in H. by apply H, list_elem_of_In.
Qed.

Lemma level_step_unfold (st : gmap string nat * bool) node :
  level_step rev_graph st node =
  match st.1 !! node with
  | Some _ => st
  | None =>
      if decide (rev_of rev_graph node = []) then (<[node := 0]> st.1, true)
      else if forallb (λ dep, bool_decide (is_Some (st.1 !! dep)))
                (rev_of rev_graph node)
      then (<[node := max_list ((λ dep, default 0 (st.1 !! dep))
                                  <$> rev_of rev_graph node) + 1]> st.1, true)
      else st
  end.
Proof.
  unfold level_step. destruct (st.1 !! node); [done|].
  by destruct (rev_of rev_graph node).
Qed.

(** One node of one pass: either nothing moves, and then the node has a
    level or waits for a dependency, or the node gets its level. *)
Lemma level_step_spec (st : gmap string nat * bool) node :
  level_ok rev_graph st.1 →
  (level_step rev_graph st node = st ∧
   (st.1 !! node = None →
    ∃ dep, dep ∈ rev_of rev_graph node ∧ st.1 !! dep = None)) ∨
  (st.1 !! node = None ∧
   ∃ k, level_step rev_graph st node = (<[node := k]> st.1, true) ∧
        level_ok rev_graph (<[node := k]> st.1)).
Proof.
  intros Hok. rewrite level_step_unfold.
  destruct (st.1 !! node) as [k|] eqn:Hn.
  { left. by split. }
  destruct (decide (rev_of rev_graph node = [])) as [Hdeps|Hdeps].
  { right. split; [done|]. exists 0. split; [done|].
    apply level_ok_insert; [done..|]. by split. }
  destruct (forallb _ _) eqn:Hall.
  - right. split; [done|]. eexists. split; [done|].
    apply level_ok_insert; [done..|].
    split; [done|]. intros _. split; [|done].
    intros dep Hd. apply (forallb_true _ _ Hall) in Hd.
    by apply bool_decide_eq_true in Hd.
  - left. split; [done|]. intros _.
    apply forallb_false in Hall as (dep & Hd & Hdep).
    exists dep. split; [done|].
    apply bool_decide_eq_false in Hdep.
    destruct (st.1 !! dep); [|done]. destruct Hdep. eauto.
Qed.

(** One pass: either nothing moved and the loop is settled on the nodes
    of the pass, with the flag as it was, or the flag is set and there are
    more levels than before. *)
Lemma level_pass_spec order (levels : gmap string nat) (changed : bool) :
  level_ok rev_graph levels →
  let st := foldl (level_step rev_graph) (levels, changed) order in
  level_ok rev_graph st.1 ∧
  levels ⊆ st.1 ∧
  dom st.1 ⊆ dom levels ∪ list_to_set order ∧
  ((st = (levels, changed) ∧
    ∀ node, node ∈ order → levels !! node = None →
      ∃ dep, dep ∈ rev_of rev_graph node ∧ levels !! dep = None) ∨
   (st.2 = true ∧ size levels < size st.1)).
Proof.
  revert levels changed.
  induction order as [|node order IH]; intros levels changed Hok; simpl.
  { split_and!; [done|done|apply union_subseteq_l|]. left. split; [done|].
    intros node Hn. by apply elem_of_nil in Hn. }
  destruct (level_step_spec (levels, changed) node Hok)
    as [[-> Hwait]|(Hnone & k & -> & Hok')]; simpl in *.
  - destruct (IH levels changed Hok) as (Hok1 & Hsub & Hdom & Hcase).
    split_and!; [done|done| |].
    { intros x [?|?]%Hdom%elem_of_union; apply elem_of_union; [by left|].
      right. rewrite ?list_to_set_cons. apply elem_of_union. by right. }
    destruct Hcase as [[Heq Hset]|Hgrow]; [left|by right].
    split; [done|]. intros n [->|Hn]%elem_of_cons; auto.
  - destruct (IH _ true Hok') as (Hok1 & Hsub & Hdom & Hcase).
    assert (levels ⊆ <[node := k]> levels) as Hins
      by by apply insert_subseteq.
    assert (size (<[node := k]> levels) = S (size levels)) as Hsz
      by by apply map_size_insert_None.
    split_and!; [done|by etrans| |right].
    + intros x [Hx|?]%Hdom%elem_of_union; apply elem_of_union.
      * rewrite ?list_to_set_cons.
        apply elem_of_dom in Hx as [kx Hx]. rewrite lookup_insert in Hx.
        case_decide as Hn; [subst x|].
        -- right. apply elem_of_union. left. by apply elem_of_singleton.
        -- left. apply elem_of_dom. eauto.
      * right. rewrite ?list_to_set_cons. apply elem_of_union. by right.
    + destruct Hcase as [[-> _]|[? ?]]; simpl; split; [done|lia|done|lia].
Qed.

(** *** The [while] loop ends

    A pass that sets the flag adds a level, and levels are given to nodes
    only: after at most as many passes as there are nodes a pass leaves
    the flag down. *)
Lemma level_loop_terminates (nodes : gset string) order fuel :
  (∀ node, node ∈ order → node ∈ nodes) →
  ∀ levels : gmap string nat,
    level_ok rev_graph levels → dom levels ⊆ nodes →
    size nodes < fuel + size levels →
    ∃ levels',
      level_loop fuel rev_graph order levels = Some levels' ∧
      level_ok rev_graph levels' ∧ levels ⊆ levels' ∧
      dom levels' ⊆ nodes ∧ settled rev_graph order levels'.
Proof.
  intros Horder.
  assert (list_to_set order ⊆ nodes) as Hsub.
  { intros x Hx%elem_of_list_to_set. by apply Horder. }
  induction fuel as [|fuel IH]; intros levels Hok Hdom Hsz.
  { apply subseteq_size in Hdom. rewrite size_dom in Hdom. simpl in Hsz. lia. }
  simpl. unfold level_pass.
  destruct (level_pass_spec order levels false Hok)
    as (Hok1 & Hsub1 & Hdom1 & Hcase).
  destruct Hcase as [[-> Hset]|[Hch Hgrow]]; simpl.
  - exists levels. by split_and!.
  - rewrite Hch.
    destruct (IH (foldl (level_step rev_graph) (levels, false) order).1)
      as (levels' & Hloop & Hok' & Hsub' & Hdom' & Hset'); [done| |lia|].
    { intros x [?|?]%Hdom1%elem_of_union; [by apply Hdom|by apply Hsub]. }
    exists levels'. split_and!; [done|done|by etrans|done|done].
Qed.

(** *** The loops before and after *)

Lemma init_levels_lookup order node :
  init_levels rev_graph order !! node =
  if decide (node ∈ order ∧ rev_of rev_graph node = []) then Some 0 else None.
Proof.
  unfold init_levels.
  assert (∀ levels : gmap string nat,
            foldl (λ levels node,
                     match rev_of rev_graph node with
                     | [] => <[node := 0]> levels
                     | _ => levels
                     end) levels order !! node
            = if decide (node ∈ order ∧ rev_of rev_graph node = [])
              then Some 0 else levels !! node) as Hgen.
  { induction order as [|x order IH]; intros levels; cbn [foldl].
    - rewrite decide_False; [done|]. intros [[]%elem_of_nil _].
    - rewrite IH.
      destruct (decide (node ∈ order ∧ rev_of rev_graph node = []))
        as [[Hin Hr]|Hno].
      { rewrite decide_True; [done|]. split; [by right|done]. }
      destruct (decide (x = node)) as [->|Hne].
      + destruct (rev_of rev_graph node) eqn:E.
        * rewrite lookup_insert_eq. rewrite decide_True; [done|].
          split; [by left|done].
        * rewrite decide_False; [done|]. by intros [_ ?].
      + assert ((if rev_of rev_graph x is [] then <[x := 0]> levels
                 else levels) !! node = levels !! node) as ->.
        { destruct (rev_of rev_graph x); [|done]. by rewrite lookup_insert_ne. }
        rewrite decide_False; [done|].
        intros [[?|?]%elem_of_cons ?]; [congruence|by apply Hno]. }
  by rewrite Hgen, lookup_empty.
Qed.

Lemma init_levels_ok order : level_ok rev_graph (init_levels rev_graph order).
Proof.
  intros node k. rewrite init_levels_lookup.
  case_decide as H; [|done]. intros [= <-]. destruct H as [_ H].
  by split.
Qed.

Lemma default_levels_lookup order (levels : gmap string nat) node :
  default_levels order levels !! node =
  match levels !! node with
  | Some k => Some k
  | None => if decide (node ∈ order) then Some 0 else None
  end.
Proof.
  unfold default_levels. revert levels.
  induction order as [|x order IH]; intros levels; cbn [foldl].
  - destruct (levels !! node); [done|].
    rewrite decide_False; [done|]. by intros ?%elem_of_nil.
  - rewrite IH. destruct (decide (x = node)) as [->|Hne].
    + destruct (levels !! node) eqn:E; [by rewrite E|].
      rewrite lookup_insert_eq. rewrite decide_True; [done|by left].
    + assert ((if levels !! x is None then <[x := 0]> levels else levels)
              !! node = levels !! node) as ->.
      { destruct (levels !! x); [done|]. by rewrite lookup_insert_ne. }
      destruct (levels !! node); [done|].
      destruct (decide (node ∈ order)) as [Hin|Hin].
      * rewrite decide_True; [done|by right].
      * rewrite decide_False; [done|].
        intros [?|?]%elem_of_cons; [congruence|done].
Qed.

(** *** Without a cycle every node gets its level from the loop *)

Lemma settled_complete (nodes : gset string) order
    (levels : gmap string nat) :
  (∀ node, node ∈ nodes → node ∈ order) →
  (∀ a b, short_dep rev_graph a b → b ∈ nodes) →
  (∀ node, ¬ tc (short_dep rev_graph) node node) →
  settled rev_graph order levels →
  ∀ node, node ∈ nodes → is_Some (levels !! node).
Proof.
  intros Horder Hclosed Hac Hset node.
  assert (sn (short_dep rev_graph) node) as Hsn.
  { apply tc_finite_sn; [exact Hac|]. exists (elements nodes).
    intros y Hy. apply elem_of_elements.
    clear -Hy Hclosed.
    induction Hy as [x y Hxy|x y z Hxy Hyz IH]; [by eapply Hclosed|done]. }
  induction Hsn as [node _ IH]. intros Hn.
  destruct (levels !! node) eqn:E; [done|].
  destruct (Hset node (Horder _ Hn) E) as (dep & Hdep & Hnone).
  destruct (IH dep Hdep (Hclosed _ _ Hdep)) as [? ?]. congruence.
Qed.

End loop.

(** *** From the dependency map to the graph of short names *)

Lemma collect_deps_foldl prop (acc : gset string * list (string * string))
    (ds : list string) :
  foldl (collect_deps prop) acc ds =
  (acc.1 ∪ list_to_set (_get_short_name <$> ds),
   acc.2 ++ ((λ d, (_get_short_name d, prop)) <$> ds)).
Proof.
  revert acc. induction ds as [|d ds IH]; intros [nodes rels]; simpl.
  - rewrite app_nil_r. f_equal. set_solver.
  - rewrite IH. simpl. rewrite <- app_assoc. f_equal. set_solver.
Qed.

Lemma collect_spec items :
  collect items
  = (list_to_set (items ≫= item_names), items ≫= item_pairs).
Proof.
  unfold collect.
  assert (∀ acc : gset string * list (string * string),
            foldl collect_item acc items
            = (acc.1 ∪ list_to_set (items ≫= item_names),
               acc.2 ++ (items ≫= item_pairs))) as Hgen.
  { induction items as [|[p ds] items IH]; intros [nodes rels]; simpl.
    - rewrite app_nil_r. f_equal. set_solver.
    - rewrite IH. unfold collect_item. rewrite collect_deps_foldl. simpl.
      unfold item_pairs at 1. simpl. rewrite <- app_assoc. f_equal.
      rewrite list_to_set_app_L. set_solver. }
  rewrite Hgen. simpl. f_equal. set_solver.
Qed.

Lemma build_rev_graph_lookup (nodes : gset string)
    (rels : list (string * string)) node :
  build_rev_graph nodes rels !! node =
  if decide (node ∈ nodes)
  then Some ((filter (λ st, st.2 = node) rels).*1) else None.
Proof.
  unfold build_rev_graph.
  induction rels as [|[src tgt] rels IH] using rev_ind.
  - simpl. rewrite lookup_gset_to_gmap. unfold guard.
    by destruct (decide (node ∈ nodes)).
  - rewrite foldl_app. cbn [foldl]. cbn [fst snd].
    rewrite filter_app, fmap_app, filter_cons, filter_nil. cbn [fst snd].
    destruct (decide (tgt = node)) as [->|Hne].
    + rewrite lookup_alter_eq, IH.
      destruct (decide (node ∈ nodes)); by simpl.
    + rewrite lookup_alter_ne, IH by done.
      destruct (decide (node ∈ nodes)); simpl; by rewrite ?app_nil_r.
Qed.

Lemma elem_of_rev_of (nodes : gset string) (rels : list (string * string))
    node dep :
  dep ∈ rev_of (build_rev_graph nodes rels) node ↔
  node ∈ nodes ∧ (dep, node) ∈ rels.
Proof.
  unfold rev_of. rewrite build_rev_graph_lookup.
  destruct (decide (node ∈ nodes)) as [Hn|Hn]; simpl.
  - rewrite list_elem_of_fmap. split.
    + intros ([d n] & -> & [Heq Hin]%list_elem_of_filter). simpl in *.
      by subst.
    + intros [_ Hin]. exists (dep, node). split; [done|].
      by apply list_elem_of_filter.
  - rewrite elem_of_nil. tauto.
Qed.

End LevelsFacts.

(** ** The depth-first sorter *)

Module AnalyzerFacts.
Import Py PyFacts Analyzer.

Lemma elem_of_all_nodes deps x :
  x ∈ all_nodes deps ↔
  is_Some (deps !! x) ∨ ∃ k, depends_on deps k x.
Proof.
  unfold all_nodes, depends_on, deps_of.
  rewrite elem_of_union, elem_of_dom, elem_of_union_list.
  split; (intros [?|H]; [by left|right]).
  - destruct H as (X & HX & Hx).
    apply list_elem_of_fmap in HX as ([k v] & -> & Hkv).
    apply elem_of_map_to_list in Hkv. exists k. by rewrite Hkv.
  - destruct H as (k & Hk). destruct (deps !! k) as [v|] eqn:E; simpl in Hk.
    + exists v. split; [|done]. apply list_elem_of_fmap.
      exists (k, v). split; [done|]. by apply elem_of_map_to_list.
    + set_solver.
Qed.

Lemma depends_on_nodes deps a b :
  depends_on deps a b → a ∈ all_nodes deps ∧ b ∈ all_nodes deps.
Proof.
  intros H. split; apply elem_of_all_nodes; [left|right; eauto].
  unfold depends_on, deps_of in H.
  destruct (deps !! a); [done|set_solver].
Qed.

(** *** Loops *)

Lemma for_each_app body l1 l2 s :
  for_each body (l1 ++ l2) s =
  match for_each body l1 s with
  | Returned _ s1 => for_each body l2 s1
  | Raised m s1 => Raised m s1
  | OutOfFuel => OutOfFuel
  end.
Proof.
  revert s. induction l1 as [|x l1 IH]; intros s; simpl; [done|].
  destruct (body x s); auto.
Qed.

(** A loop that does not run to its end stopped in one iteration, after
    the iterations before it returned. *)
Lemma for_each_stopped body l s o :
  for_each body l s = o →
  (∀ u s', o ≠ Returned u s') →
  ∃ pre x post s1,
    l = pre ++ x :: post ∧
    for_each body pre s = Returned tt s1 ∧ body x s1 = o.
Proof.
  revert s. induction l as [|x l IH]; intros s; simpl.
  - intros <- H. by destruct (H tt s).
  - destruct (body x s) as [[] s1| |] eqn:E.
    + intros Hl Ho.
      destruct (IH _ Hl Ho) as (pre & y & post & s2 & -> & H1 & H2).
      exists (x :: pre), y, post, s2. simpl. by rewrite E.
    + intros <- _. by exists [], x, l, s.
    + intros <- _. by exists [], x, l, s.
Qed.

(** *** What a call leaves untouched *)

Lemma frame_refl s : frame s s.
Proof. done. Qed.

Lemma frame_trans s1 s2 s3 : frame s1 s2 → frame s2 s3 → frame s1 s3.
Proof. unfold frame. intros [-> ->] [-> ->]. done. Qed.

Lemma for_each_frame body l :
  (∀ x s u s', body x s = Returned u s' → frame s s') →
  ∀ s u s', for_each body l s = Returned u s' → frame s s'.
Proof.
  intros Hbody. induction l as [|x l IH]; intros s u s'; simpl.
  - intros [= _ <-]. apply frame_refl.
  - destruct (body x s) as [u1 s1| |] eqn:E; [|done..].
    intros H. eapply frame_trans; eauto.
Qed.

Lemma visit_frame fuel :
  ∀ node s u s', _visit fuel node s = Returned u s' → frame s s'.
Proof.
  induction fuel as [|fuel IH]; intros node s u s'; simpl; [done|].
  destruct (decide (node ∈ temp_marked s)) as [|Htm]; [done|].
  destruct (decide (node ∈ visited s)); [intros [= _ <-]; apply frame_refl|].
  destruct (for_each _ _ _) as [u2 s2| |] eqn:E; [|done..].
  intros [= _ <-].
  apply (for_each_frame _ _ IH) in E as [Etm Edeps]. simpl in *.
  split; simpl; [|done]. rewrite Etm. set_solver.
Qed.

Lemma top_body_frame fuel node s u s' :
  top_body fuel node s = Returned u s' → frame s s'.
Proof.
  unfold top_body. destruct (decide _).
  - intros [= _ <-]. apply frame_refl.
  - apply visit_frame.
Qed.

(** *** The invariant of the traversal

    [N] is the set of nodes; the output so far lists the visited nodes
    once each, and every listed node comes after all its dependencies. *)

Lemma all_nodes_closed deps : closed (all_nodes deps) deps.
Proof. intros a b _ H. by apply depends_on_nodes in H as [_ ?]. Qed.

Lemma for_each_ok N body l :
  body_ok N body →
  ∀ s u s',
    closed N (dependencies s) → (∀ d, d ∈ l → d ∈ N) → wf N s →
    for_each body l s = Returned u s' →
    wf N s' ∧ visited s ⊆ visited s' ∧ (∀ d, d ∈ l → d ∈ visited s') ∧
    ∀ x, x ∈ visited s' → x ∈ visited s ∨ x ∉ temp_marked s.
Proof.
  intros [Hfr Hok]. induction l as [|d l IH]; intros s u s' Hcl HN Hwf; simpl.
  - intros [= _ <-]. split_and!; auto. intros d Hd. by apply elem_of_nil in Hd.
  - destruct (body d s) as [u1 s1| |] eqn:E; [|done..]. intros Hl.
    pose proof (Hfr _ _ _ _ E) as [Etm Edeps].
    destruct (Hok _ _ _ _ Hcl (HN d (list_elem_of_here _ _)) Hwf E)
      as (Hwf1 & Hsub1 & Hd1 & Hnew1).
    destruct (IH s1 u s') as (Hwf' & Hsub' & Hl' & Hnew'); auto.
    { by rewrite Edeps. }
    { intros x Hx. apply HN. by apply list_elem_of_further. }
    split_and!; [done| | |].
    + by transitivity (visited s1).
    + intros x [->|Hx]%elem_of_cons; auto.
    + intros x Hx. destruct (Hnew' x Hx) as [Hx1|Hx1]; auto.
      right. by rewrite <- Etm.
Qed.

Lemma visit_ok N fuel : body_ok N (_visit fuel).
Proof.
  split; [apply visit_frame|].
  induction fuel as [|fuel IH]; intros node s u s' Hcl HN Hwf; simpl; [done|].
  destruct (decide (node ∈ temp_marked s)) as [|Htm]; [done|].
  destruct (decide (node ∈ visited s)) as [Hv|Hv].
  { intros [= _ <-]. split_and!; [done|done|done|]. intros x Hx. by left. }
  destruct (for_each _ _ _) as [u2 s2| |] eqn:E; [|done..].
  intros [= _ <-].
  pose proof (for_each_frame _ _ (visit_frame fuel) _ _ _ E) as [Etm Edeps].
  simpl in Etm, Edeps.
  eapply (for_each_ok N) in E as (Hwf2 & Hsub2 & Hl2 & Hnew2);
    [|split; [apply visit_frame|apply IH]|done| |].
  2:{ intros d Hd. apply elem_of_sorted_set in Hd. simpl in Hd.
      by apply (Hcl node). }
  2:{ destruct Hwf. by split. }
  simpl in *.
  assert (node ∉ visited s2) as Hfresh.
  { intros Hin. destruct (Hnew2 _ Hin) as [?|Hn]; [done|].
    apply Hn. apply elem_of_union. right. by apply elem_of_singleton. }
  destruct Hwf2 as [Hnd2 Hvis2 HN2 Hord2].
  split_and!.
  - split; simpl.
    + apply NoDup_app. split_and!; [done| |apply NoDup_singleton].
      intros x Hx ->%list_elem_of_singleton. by apply Hfresh, Hvis2.
    + intros x. rewrite elem_of_app, list_elem_of_singleton, Hvis2.
      rewrite elem_of_union, elem_of_singleton. done.
    + intros x [Hx| ->%elem_of_singleton]%elem_of_union; [by apply HN2|done].
    + intros i a b Hi Hab. rewrite Edeps in Hab.
      destruct (decide (i < length (sorted_relations s2))) as [Hlt|Hge].
      * rewrite lookup_app_l in Hi by done.
        destruct (Hord2 i a b Hi) as (j & Hj & Hb); [by rewrite Edeps|].
        exists j. split; [done|]. rewrite lookup_app_l; [done|lia].
      * rewrite lookup_app_r in Hi by lia.
        apply list_lookup_singleton_Some in Hi as [Hi ->].
        assert (b ∈ sorted_relations s2) as Hb.
        { apply Hvis2, Hl2, elem_of_sorted_set. exact Hab. }
        apply list_elem_of_lookup in Hb as [j Hj].
        exists j. split.
        -- apply lookup_lt_Some in Hj. lia.
        -- by apply lookup_app_l_Some.
  - simpl. intros x Hx. apply elem_of_union. left. by apply Hsub2.
  - simpl. apply elem_of_union. right. by apply elem_of_singleton.
  - simpl. intros x [Hx| ->%elem_of_singleton]%elem_of_union; [|by right].
    destruct (Hnew2 x Hx) as [?|Hn]; [by left|right].
    intros Hx'. apply Hn. apply elem_of_union. by left.
Qed.

Lemma top_body_ok N fuel : body_ok N (top_body fuel).
Proof.
  split; [apply top_body_frame|].
  intros node s u s' Hcl HN Hwf. unfold top_body.
  destruct (decide (node ∈ visited s)).
  - intros [= _ <-]. split_and!; [done|done|done|]. intros x Hx. by left.
  - by apply visit_ok.
Qed.

(** *** Enough fuel

    Every call that goes on adds its node to [temp_marked], so the depth of
    the recursion is bounded by the number of nodes not marked yet. *)

Lemma size_unmarked (N tm : gset string) node :
  node ∈ N → node ∉ tm →
  size (N ∖ tm) = S (size (N ∖ (tm ∪ {[node]}))).
Proof.
  intros HN Htm.
  replace (N ∖ tm) with ({[node]} ∪ N ∖ (tm ∪ {[node]})).
  - rewrite size_union by set_solver. by rewrite size_singleton.
  - apply set_eq. intros x. destruct (decide (x = node)); set_solver.
Qed.

Lemma for_each_fuel body l :
  (∀ x s u s', body x s = Returned u s' → frame s s') →
  ∀ s,
    (∀ d s1, d ∈ l → frame s s1 → body d s1 ≠ OutOfFuel) →
    for_each body l s ≠ OutOfFuel.
Proof.
  intros Hfr. induction l as [|d l IH]; intros s Hbody; simpl; [done|].
  destruct (body d s) as [u1 s1| |] eqn:E; [|done|].
  - apply IH. intros d' s2 Hd' Hf. apply Hbody; [by right|].
    eapply frame_trans; eauto.
  - exfalso. eapply Hbody; [by left|apply frame_refl|done].
Qed.

Lemma visit_fuel N fuel :
  ∀ node s,
    closed N (dependencies s) → node ∈ N →
    size (N ∖ temp_marked s) < fuel →
    _visit fuel node s ≠ OutOfFuel.
Proof.
  induction fuel as [|fuel IH]; intros node s Hcl HN Hsz; simpl; [lia|].
  destruct (decide (node ∈ temp_marked s)) as [|Htm]; [done|].
  destruct (decide (node ∈ visited s)); [done|].
  destruct (for_each _ _ _) as [u2 s2| |] eqn:E; [done..|].
  exfalso. revert E. apply for_each_fuel; [apply visit_frame|].
  intros d s1 Hd [Etm Edeps]. simpl in *.
  apply elem_of_sorted_set in Hd.
  apply IH.
  - by rewrite Edeps.
  - by apply (Hcl node).
  - rewrite Etm. rewrite (size_unmarked N _ node) in Hsz by done. lia.
Qed.

(** *** No false alarm

    While a node is being visited, the marked nodes are the ones whose
    visit is still open, and each of them depends on it. *)

Lemma visit_no_raise deps fuel :
  acyclic deps →
  ∀ node s m s',
    dependencies s = deps → on_stack deps s node →
    _visit fuel node s ≠ Raised m s'.
Proof.
  intros Hac.
  induction fuel as [|fuel IH]; intros node s m s' Hdeps Hst; simpl; [done|].
  destruct (decide (node ∈ temp_marked s)) as [Htm|Htm].
  { destruct (Hac node). by apply Hst. }
  destruct (decide (node ∈ visited s)); [done|].
  destruct (for_each _ _ _) as [u2 s2|m2 s2|] eqn:E; [done| |done].
  intros [= -> ->].
  apply for_each_stopped in E as (pre & d & post & s1 & Hl & Hpre & Hd);
    [|done].
  apply (for_each_frame _ _ (visit_frame fuel)) in Hpre as [Etm Edeps].
  simpl in *. revert Hd. apply IH; [congruence|].
  assert (depends_on deps node d) as Hnd.
  { unfold depends_on. rewrite <- Hdeps. apply elem_of_sorted_set.
    rewrite Hl. set_solver. }
  intros t. rewrite Etm.
  intros [Ht| ->%elem_of_singleton]%elem_of_union.
  - eapply tc_r; [by apply Hst|done].
  - by apply tc_once.
Qed.

(** *** The whole sort *)

Lemma iteration_of_list (s : gset string) (l : list string) :
  NoDup l → list_to_set l = s → iteration_of s l.
Proof.
  intros Hnd <-. split; [done|]. intros x. by rewrite elem_of_list_to_set.
Qed.

Lemma iteration_of_elements (s : gset string) : iteration_of s (elements s).
Proof. split; [apply NoDup_elements|]. intros x. apply elem_of_elements. Qed.

(** What a returned sequence looks like, whatever the relation. *)
Lemma topological_sort_returned fuel order self out self' :
  iteration_of (all_nodes (dependencies self)) order →
  topological_sort fuel order self = Returned out self' →
  NoDup out ∧
  (∀ x, x ∈ out ↔ x ∈ all_nodes (dependencies self)) ∧
  (∀ x, x ∈ out → x ∉ temp_marked self) ∧
  ∀ i a b,
    out !! i = Some a → depends_on (dependencies self) a b →
    ∃ j, j < i ∧ out !! j = Some b.
Proof.
  intros [_ Hord]. unfold topological_sort.
  destruct (for_each _ _ _) as [u s1| |] eqn:E; [|done..].
  intros [= <- <-].
  pose proof (for_each_frame _ _ (top_body_frame fuel) _ _ _ E) as [_ Edeps].
  eapply (for_each_ok (all_nodes (dependencies self))) in E
    as ([Hnd Hvis HN Hwf] & _ & Hall & Hnew);
    [|apply top_body_ok|apply all_nodes_closed|by intros d ?%Hord|].
  2:{ split; simpl.
      - apply NoDup_nil_2.
      - intros x. rewrite elem_of_nil, elem_of_empty. done.
      - apply empty_subseteq.
      - intros i a b Hi. by rewrite lookup_nil in Hi. }
  simpl in *. split_and!; [done| | |].
  - intros x. rewrite Hvis. split; [apply HN|]. intros Hx. by apply Hall, Hord.
  - intros x Hx%Hvis. destruct (Hnew x Hx); [set_solver|done].
  - intros i a b Hi Hab. apply (Hwf i a b Hi). by rewrite Edeps.
Qed.

Lemma topological_sort_fuel fuel order self :
  iteration_of (all_nodes (dependencies self)) order →
  size (all_nodes (dependencies self)) < fuel →
  topological_sort fuel order self ≠ OutOfFuel.
Proof.
  intros [_ Hord] Hsz. unfold topological_sort.
  destruct (for_each _ _ _) as [u s1| |] eqn:E; [done..|].
  exfalso. revert E.
  apply for_each_fuel; [apply top_body_frame|].
  intros d s1 Hd [Etm Edeps]. simpl in *. unfold top_body.
  destruct (decide (d ∈ visited s1)); [done|].
  apply (visit_fuel (all_nodes (dependencies self))).
  - rewrite Edeps. apply all_nodes_closed.
  - by apply Hord.
  - eapply Nat.le_lt_trans; [|exact Hsz]. apply subseteq_size. set_solver.
Qed.

Lemma visit_raises_cycle_msg fuel :
  ∀ node s m s', _visit fuel node s = Raised m s' → m = cycle_msg.
Proof.
  induction fuel as [|fuel IH]; intros node s m s'; simpl; [done|].
  destruct (decide (node ∈ temp_marked s)); [by intros [= <- _]|].
  destruct (decide (node ∈ visited s)); [done|].
  destruct (for_each _ _ _) as [u2 s2|m2 s2|] eqn:E; [done| |done].
  intros [= -> ->].
  apply for_each_stopped in E as (pre & d & post & s1 & _ & _ & Hd); [|done].
  by eapply IH.
Qed.

Lemma topological_sort_raises_cycle_msg fuel order self m self' :
  topological_sort fuel order self = Raised m self' → m = cycle_msg.
Proof.
  unfold topological_sort.
  destruct (for_each _ _ _) as [u s1|m1 s1|] eqn:E; [done| |done].
  intros [= -> ->].
  apply for_each_stopped in E as (pre & d & post & s2 & _ & _ & Hd); [|done].
  unfold top_body in Hd. destruct (decide (d ∈ visited s2)); [done|].
  by eapply visit_raises_cycle_msg.
Qed.

Lemma topological_sort_no_raise fuel order self m self' :
  acyclic (dependencies self) → temp_marked self = ∅ →
  topological_sort fuel order self ≠ Raised m self'.
Proof.
  intros Hac Htm. unfold topological_sort.
  destruct (for_each _ _ _) as [u s1|m1 s1|] eqn:E; [done| |done].
  intros [= -> ->].
  apply for_each_stopped in E as (pre & d & post & s2 & _ & Hpre & Hd);
    [|done].
  apply (for_each_frame _ _ (top_body_frame fuel)) in Hpre as [Etm Edeps].
  simpl in *. unfold top_body in Hd.
  destruct (decide (d ∈ visited s2)); [done|].
  revert Hd. apply (visit_no_raise (dependencies self)); [done..|].
  intros t. rewrite Etm, Htm. set_solver.
Qed.

(** A sequence in which every node comes after its dependencies leaves no
    room for a cycle. *)
Lemma ordered_acyclic deps (out : list string) :
  NoDup out →
  (∀ x, x ∈ all_nodes deps → x ∈ out) →
  (∀ i a b, out !! i = Some a → depends_on deps a b →
            ∃ j, j < i ∧ out !! j = Some b) →
  acyclic deps.
Proof.
  intros Hnd Hall Hord.
  assert (∀ a b, tc (depends_on deps) a b →
            ∀ i, out !! i = Some a → ∃ j, j < i ∧ out !! j = Some b) as Htc.
  { induction 1 as [a b Hab|a b c Hab _ IH]; intros i Hi.
    - by apply (Hord i a).
    - destruct (Hord i a b Hi Hab) as (j & Hj & Hb).
      destruct (IH j Hb) as (k & Hk & Hc). exists k. split; [lia|done]. }
  intros n Hn.
  assert (n ∈ out) as [i Hi]%list_elem_of_lookup.
  { apply Hall. apply tc_rtc_l with (x := n) in Hn; [|done].
    inversion Hn as [? ? H|? y ? H _]; subst;
      by apply depends_on_nodes in H as [? _]. }
  destruct (Htc n n Hn i Hi) as (j & Hj & Hnj).
  pose proof (NoDup_lookup _ _ _ _ Hnd Hi Hnj). lia.
Qed.

End AnalyzerFacts.

(** ** From the dependency map to the graph of short names *)

Module GraphFacts.
Import Py PyFacts Analyzer AnalyzerFacts Levels LevelsFacts.

Section graph.
Variable deps : gmap string (gset string).
Variable items : list (string * list string).
Hypothesis Hitems : items_of deps items.

Lemma depends_on_items a b :
  depends_on deps a b ↔ ∃ l, (a, l) ∈ items ∧ b ∈ l.
Proof.
  destruct Hitems as (_ & _ & Hlook). unfold depends_on, deps_of. split.
  - destruct (deps !! a) as [v|] eqn:E; simpl; [|by intros ?%elem_of_empty].
    apply Hlook in E as (l & Hl & ->). intros Hb%elem_of_list_to_set. eauto.
  - intros (l & Hl & Hb).
    assert (deps !! a = Some (list_to_set l)) as -> by (apply Hlook; eauto).
    simpl. by apply elem_of_list_to_set.
Qed.

Lemma elem_of_rels d p :
  (d, p) ∈ short_pairs items ↔
  ∃ a b, depends_on deps a b ∧
         _get_short_name a = p ∧ _get_short_name b = d.
Proof.
  unfold short_pairs. rewrite collect_spec. simpl.
  rewrite list_elem_of_bind. split.
  - intros ([a l] & Hpair & Hin). unfold item_pairs in Hpair. simpl in Hpair.
    apply list_elem_of_fmap in Hpair as (b & [= -> ->] & Hb).
    exists a, b. split; [|done]. apply depends_on_items. eauto.
  - intros (a & b & (l & Hl & Hb)%depends_on_items & <- & <-).
    exists (a, l). split; [|done]. unfold item_pairs. simpl.
    apply list_elem_of_fmap. eauto.
Qed.

Lemma elem_of_nodes n :
  n ∈ short_nodes items ↔ ∃ a, a ∈ all_nodes deps ∧ _get_short_name a = n.
Proof.
  destruct Hitems as (_ & _ & Hlook).
  unfold short_nodes. rewrite collect_spec. simpl.
  rewrite elem_of_list_to_set, list_elem_of_bind. split.
  - intros ([a l] & Hn & Hin). unfold item_names in Hn. simpl in Hn.
    assert (deps !! a = Some (list_to_set l)) as Ha by (apply Hlook; eauto).
    apply elem_of_cons in Hn as [->|Hn].
    + exists a. split; [|done]. apply elem_of_all_nodes. left. eauto.
    + apply list_elem_of_fmap in Hn as (b & -> & Hb). exists b. split; [|done].
      apply elem_of_all_nodes. right. exists a. apply depends_on_items. eauto.
  - intros (a & Ha & <-). apply elem_of_all_nodes in Ha as [[v Hv]|[k Hk]].
    + apply Hlook in Hv as (l & Hl & _). exists (a, l). split; [|done].
      unfold item_names. by left.
    + apply depends_on_items in Hk as (l & Hl & Hb). exists (k, l).
      split; [|done]. unfold item_names. right. simpl.
      apply list_elem_of_fmap. eauto.
Qed.

Lemma short_dep_iff p d :
  short_dep (short_graph items) p d ↔
  ∃ a b, depends_on deps a b ∧
         _get_short_name a = p ∧ _get_short_name b = d.
Proof.
  unfold short_dep, short_graph. rewrite elem_of_rev_of, elem_of_rels.
  split; [by intros [_ ?]|]. intros (a & b & Hab & <- & <-).
  split; [|eauto]. apply elem_of_nodes. exists a. split; [|done].
  by apply depends_on_nodes in Hab as [? _].
Qed.

Lemma short_dep_nodes p d :
  short_dep (short_graph items) p d → d ∈ short_nodes items.
Proof.
  intros (a & b & Hab & _ & <-)%short_dep_iff. apply elem_of_nodes.
  exists b. split; [|done]. by apply depends_on_nodes in Hab as [_ ?].
Qed.

Lemma short_path a b :
  tc (depends_on deps) a b →
  tc (short_dep (short_graph items)) (_get_short_name a) (_get_short_name b).
Proof.
  induction 1 as [a b Hab|a b c Hab _ IH].
  - apply tc_once, short_dep_iff. eauto.
  - eapply tc_l; [|exact IH]. apply short_dep_iff. eauto.
Qed.

(** When the nodes have distinct short names, a path between short names
    is a path between the (short_nodes items) themselves. *)
Lemma short_path_inv x y :
  (∀ a b, a ∈ all_nodes deps → b ∈ all_nodes deps →
          _get_short_name a = _get_short_name b → a = b) →
  tc (short_dep (short_graph items)) x y →
  ∀ a, a ∈ all_nodes deps → _get_short_name a = x →
    ∃ b, _get_short_name b = y ∧ tc (depends_on deps) a b.
Proof.
  intros Hinj. induction 1 as [x y Hxy|x y z Hxy _ IH]; intros a Ha Hax.
  - apply short_dep_iff in Hxy as (a' & b & Hab & Ha' & Hb).
    assert (a' = a) as ->.
    { apply Hinj; [|done|congruence].
      by apply depends_on_nodes in Hab as [? _]. }
    exists b. split; [done|]. by apply tc_once.
  - apply short_dep_iff in Hxy as (a' & b & Hab & Ha' & Hb).
    assert (a' = a) as ->.
    { apply Hinj; [|done|congruence].
      by apply depends_on_nodes in Hab as [? _]. }
    destruct (IH b) as (c & Hc & Hbc); [|done|].
    { by apply depends_on_nodes in Hab as [_ ?]. }
    exists c. split; [done|]. by eapply tc_l.
Qed.

End graph.

(** The whole computation returns, on every dependency map: the loop ends
    settled, and the last loop gives level 0 to what it left out. *)
Lemma calculate_returns (deps : gmap string (gset string)) items order fuel :
  items_of deps items →
  iteration_of (short_nodes items) order →
  size (short_nodes items) < fuel →
  let rev_graph := (short_graph items) in
  ∃ loop_levels,
    level_loop fuel rev_graph order (init_levels rev_graph order)
      = Some loop_levels ∧
    level_ok rev_graph loop_levels ∧
    settled rev_graph order loop_levels ∧
    dom loop_levels ⊆ (short_nodes items) ∧
    _calculate_dependency_levels fuel items order
      = Some (short_nodes items, (short_pairs items),
              default_levels order loop_levels,
              max_list (snd <$> map_to_list
                                  (default_levels order loop_levels))).
Proof.
  intros Hitems [_ Horder] Hfuel rev_graph.
  destruct (level_loop_terminates rev_graph (short_nodes items) order fuel)
    with (levels := init_levels rev_graph order)
    as (loop_levels & Hloop & Hok & _ & Hdom & Hset).
  - intros node. apply Horder.
  - apply init_levels_ok.
  - intros node [k Hk]%elem_of_dom. rewrite init_levels_lookup in Hk.
    case_decide as H; [|done]. apply Horder, H.
  - lia.
  - exists loop_levels. split_and!; [done..|].
    unfold _calculate_dependency_levels.
    change (build_rev_graph (collect items).1 (collect items).2)
      with rev_graph.
    by rewrite Hloop.
Qed.

End GraphFacts.

(** ** The staged run *)

Module ExecutorFacts.
Import Py PyFacts Runner RunnerFacts Executor Staged.

(** *** Consoles *)

Lemma no_start_halts evs :
  Forall (λ e, ¬ is_level_start e) evs → halts_after_failure evs.
Proof.
  induction 1 as [|ev evs Hev Hevs IH]; simpl; [done|]. split; [|done].
  by intros _.
Qed.

Lemma halts_after_failure_app evs1 evs2 :
  halts_after_failure evs1 → halts_after_failure evs2 →
  Forall (λ e, ¬ is_failing_verdict e) evs1
  ∨ Forall (λ e, ¬ is_level_start e) evs2 →
  halts_after_failure (evs1 ++ evs2).
Proof.
  intros H1 H2 Hor. induction evs1 as [|ev evs1 IH]; simpl; [done|].
  destruct H1 as [Hev H1]. split.
  - intros Hf. apply Forall_app. split; [by apply Hev|].
    destruct Hor as [Hnf|?]; [|done].
    apply Forall_cons in Hnf as [Hnf _]. by destruct Hnf.
  - apply IH; [done|]. destruct Hor as [Hnf|?]; [left|by right].
    by apply Forall_cons in Hnf as [_ ?].
Qed.

Lemma halts_after_failure_split evs pre ev post :
  halts_after_failure evs → evs = pre ++ ev :: post →
  is_failing_verdict ev → Forall (λ e, ¬ is_level_start e) post.
Proof.
  intros H ->. induction pre as [|x pre IH]; simpl in H.
  - apply H.
  - apply IH, H.
Qed.

Lemma no_stop_quiet evs :
  Forall (λ e, ¬ is_stopping e) evs → quiet_after_stop evs.
Proof.
  induction 1 as [|ev evs Hev Hevs IH]; simpl; [done|]. split; [|done].
  by intros ?.
Qed.

Lemma quiet_after_stop_app evs1 evs2 :
  quiet_after_stop evs1 → quiet_after_stop evs2 → quiet_head evs2 →
  quiet_after_stop (evs1 ++ evs2).
Proof.
  intros H1 H2 Hhead. induction evs1 as [|ev evs1 IH]; simpl; [done|].
  destruct H1 as [Hev H1]. split; [|by apply IH].
  intros Hs. specialize (Hev Hs). by destruct evs1.
Qed.

Lemma quiet_after_stop_split evs pre m ev post :
  quiet_after_stop evs → evs = pre ++ Stopping m :: ev :: post →
  quiet_line ev.
Proof.
  intros H ->. induction pre as [|x pre IH]; simpl in H.
  - by apply H.
  - apply IH, H.
Qed.

Lemma test_lines_no_start evs :
  Forall is_test_line evs → Forall (λ e, ¬ is_level_start e) evs.
Proof. intros H. eapply Forall_impl; [exact H|]. intros []; simpl; tauto. Qed.

Lemma test_lines_no_stop evs :
  Forall is_test_line evs → Forall (λ e, ¬ is_stopping e) evs.
Proof. intros H. eapply Forall_impl; [exact H|]. intros []; simpl; tauto. Qed.

Lemma no_failing_count evs :
  count_status FAIL evs = 0 → count_status ERROR evs = 0 →
  Forall (λ e, ¬ is_failing_verdict e) evs.
Proof.
  unfold count_status, verdicts.
  induction evs as [|ev evs IH]; [done|]. intros HF HE.
  destruct ev as [| | | | |[]|]; simpl in *;
    rewrite ?filter_cons in HF, HE; simpl in *;
    repeat case_decide; simplify_eq/=;
    constructor; auto.
Qed.

Section executor.
Context {Store : Type} `{!Backend Store}.
Variable int_of_str : string → option Z.
Variable tests : gmap string test_case.
Variable cfg : config.
Variable files : gmap string string.
Variable _resolve_script_path : string → string.

(** *** Scripts

    A script leaves the counters alone and writes at most its own line;
    a missing file raises before anything is written or applied. *)
Lemma apply_materialization_spec script_path (w : world (Store:=Store)) :
  ∃ lines w',
    (apply_materialization files script_path w = Ok tt w' ∨
     ∃ e, apply_materialization files script_path w = Raise e w') ∧
    runner_results w' = runner_results w ∧
    console w' = console w ++ lines ∧
    Forall is_script_line lines.
Proof.
  unfold apply_materialization.
  destruct (files !! script_path) as [sparql_update|].
  - unfold bind, print, get_store, put_store, raise, ret. simpl.
    destruct (execute_update (store w) sparql_update) as [st [e|n]] eqn:E;
      simpl; eexists [Applying script_path], _;
      (split; [eauto|]); simpl; by repeat constructor.
  - exists [], w. split; [right; eauto|]. rewrite app_nil_r.
    by repeat constructor.
Qed.

Lemma missing_script_raises script_path (w : world (Store:=Store)) :
  files !! script_path = None →
  ∃ e, apply_materialization files script_path w = Raise e w.
Proof. unfold apply_materialization. intros ->. eauto. Qed.

(** The scripts of a level: script lines, then [Stopping] if one of them
    failed, and nothing after it. *)
Lemma apply_scripts_spec materialize (w : world (Store:=Store)) :
  ∃ stopped lines w',
    apply_scripts files materialize w = Ok stopped w' ∧
    runner_results w' = runner_results w ∧
    console w'
      = console w ++ lines
          ++ match stopped with Some m => [Stopping m] | None => [] end ∧
    Forall is_script_line lines.
Proof.
  revert w. induction materialize as [|script_path rest IH]; intros w.
  - exists None, [], w. simpl. rewrite app_nil_r. by repeat constructor.
  - destruct (apply_materialization_spec script_path w)
      as (lines & w1 & Hrun & Hres & Hcon & Hlines).
    simpl. unfold bind at 1, try_.
    destruct Hrun as [->|[e ->]].
    + destruct (IH w1) as (stopped & lines' & w' & -> & Hres' & Hcon' & Hl').
      exists stopped, (lines ++ lines'), w'. split_and!; [done|congruence| |].
      * by rewrite Hcon', Hcon, <- !app_assoc.
      * by apply Forall_app.
    + unfold bind, print, ret. simpl.
      eexists (Some (exn_str e)), lines, _. split_and!; [done|done| |done].
      simpl. by rewrite Hcon, <- app_assoc.
Qed.

(** *** One level *)

Lemma run_level_spec level materialize (w : world (Store:=Store)) r w' :
  run_level int_of_str tests cfg files _resolve_script_path level materialize w
    = Ok r w' →
  ∃ body,
    console w' = console w ++ RunningLevel level :: body ∧
    Forall (λ e, ¬ is_level_start e) body ∧
    quiet_after_stop body ∧
    (failed_of r w' = 0 → Forall (λ e, ¬ is_failing_verdict e) body) ∧
    (∀ m, r = MaterializationError m →
       runner_results w' = runner_results w ∧
       ∃ lines, body = lines ++ [Stopping m] ∧ Forall is_script_line lines).
Proof.
  unfold run_level.
  destruct (test_levels cfg !! pretty level) as [info|]; [|done].
  unfold bind at 1, print at 1. unfold bind at 1.
  match goal with
  | |- context [apply_scripts files ?mat ?w0] =>
      destruct (apply_scripts_spec mat w0)
        as (stopped & lines & w1 & -> & Hres & Hcon & Hlines)
  end.
  simpl in Hres, Hcon.
  assert (Forall (λ e, ¬ is_level_start e) lines) as Hns.
  { eapply Forall_impl; [exact Hlines|]. intros []; simpl; tauto. }
  assert (Forall (λ e, ¬ is_stopping e) lines) as Hnst.
  { eapply Forall_impl; [exact Hlines|]. intros []; simpl; tauto. }
  assert (Forall (λ e, ¬ is_failing_verdict e) lines) as Hnf.
  { eapply Forall_impl; [exact Hlines|]. intros []; simpl; tauto. }
  destruct stopped as [m|].
  - unfold ret. intros [= <- <-]. exists (lines ++ [Stopping m]).
    split_and!.
    + by rewrite Hcon, <- !app_assoc.
    + apply Forall_app. split; [done|]. apply Forall_singleton; simpl; tauto.
    + apply quiet_after_stop_app; [by apply no_stop_quiet| |];
        unfold quiet_head, quiet_line; simpl; tauto.
    + intros _. apply Forall_app. split; [done|].
      apply Forall_singleton; simpl; tauto.
    + intros m' [= <-]. split; [done|]. eauto.
  - unfold bind at 1.
    pose proof (run_tests_spec int_of_str tests
                  (Some (level_tests info)) w1) as Hspec.
    destruct (tests_to_run _ _ _) as [e|to_run].
    { by rewrite Hspec. }
    destruct Hspec as (w2 & new & -> & _ & Hcon2 & Hnew & _ & _ & _ & Hfail).
    unfold ret. intros [= <- <-].
    eexists (lines ++ new ++ [Summary _ _ _]). split_and!.
    + rewrite Hcon2, Hcon, app_nil_r, <- !app_assoc. done.
    + rewrite !Forall_app. split_and!; [done|by apply test_lines_no_start|].
      apply Forall_singleton; simpl; tauto.
    + apply no_stop_quiet. rewrite !Forall_app.
      split_and!; [done|by apply test_lines_no_stop|].
      apply Forall_singleton; simpl; tauto.
    + simpl. intros Hz. rewrite !Forall_app. split_and!; [done| |].
      * apply no_failing_count; lia.
      * apply Forall_singleton; simpl; tauto.
    + done.
Qed.

(** *** The loop over the levels *)

Lemma levels_loop_spec levels materialize_per_level acc
    (w : world (Store:=Store)) all w' :
  levels_loop int_of_str tests cfg files _resolve_script_path
    levels materialize_per_level acc w = Ok all w' →
  ∃ new,
    console w' = console w ++ new ∧
    halts_after_failure new ∧
    quiet_after_stop new ∧
    match new with
    | [] => True
    | ev :: _ => is_level_start ev
    end.
Proof.
  revert acc w. induction levels as [|level rest IH]; intros acc w.
  { intros [= <- <-]. exists []. by rewrite app_nil_r. }
  simpl. unfold bind at 1.
  destruct (run_level _ _ _ _ _ _ _ w) as [r w1|e w1] eqn:Hlevel; [|done].
  destruct (run_level_spec _ _ _ _ _ Hlevel)
    as (body & Hcon & Hns & Hq & Hnf & _).
  destruct (decide (0 < failed_of r w1)) as [Hfailed|Hclean].
  - unfold bind, print, ret. simpl. intros [= <- <-]. simpl.
    exists (RunningLevel level :: body ++ [LevelHasFailures level]).
    split_and!; [by rewrite Hcon, <- app_assoc| | |done].
    + simpl. split; [by intros []|].
      apply halts_after_failure_app; [by apply no_start_halts|by simpl|].
      right. apply Forall_singleton. simpl. tauto.
    + simpl. split; [by intros []|].
      apply quiet_after_stop_app; [done|by simpl|].
      unfold quiet_head, quiet_line. simpl. tauto.
  - intros Hrest. destruct (IH _ _ Hrest) as (new & Hcon' & Hh & Hq' & Hhead).
    exists (RunningLevel level :: body ++ new).
    split_and!; [by rewrite Hcon', Hcon, <- app_assoc| | |done].
    + simpl. split; [by intros []|].
      apply halts_after_failure_app; [by apply no_start_halts|done|].
      left. apply Hnf. lia.
    + simpl. split; [by intros []|].
      apply quiet_after_stop_app; [done..|].
      destruct new as [|[] ?]; try done. unfold quiet_head, quiet_line.
      simpl. tauto.
Qed.

(** The scripts after a prefix that went through start from the world the
    prefix leaves. *)
Lemma apply_scripts_app pre rest (w w1 : world (Store:=Store)) :
  apply_scripts files pre w = Ok None w1 →
  apply_scripts files (pre ++ rest) w = apply_scripts files rest w1.
Proof.
  revert w. induction pre as [|p pre IH]; intros w; simpl.
  - unfold ret. by intros [= <-].
  - unfold bind at 1 3. destruct (try_ _ w) as [[e|[]] w0|e w0]; [| |done].
    + unfold bind, print, ret. done.
    + apply IH.
Qed.

(** [run_level] on a configured level, cut at the end of its scripts. *)
Lemma run_level_inv level materialize info (w : world (Store:=Store)) :
  test_levels cfg !! pretty level = Some info →
  ∃ stopped w1,
    apply_scripts files (scripts_of cfg _resolve_script_path level materialize)
      {| store := store w; runner_results := runner_results w;
         console := console w ++ [RunningLevel level] |}
    = Ok stopped w1 ∧
    run_level int_of_str tests cfg files _resolve_script_path level
      materialize w
    = match stopped with
      | Some message => Ok (MaterializationError message) w1
      | None =>
          match run_tests int_of_str tests (Some (level_tests info)) w1 with
          | Ok _ w' => Ok RunnerResults w'
          | Raise e w' => Raise e w'
          end
      end.
Proof.
  intros Hinfo. unfold run_level. rewrite Hinfo.
  unfold bind at 1, print at 1.
  fold (scripts_of cfg _resolve_script_path level materialize).
  match goal with |- context [apply_scripts files _ ?w0] =>
    destruct (apply_scripts_spec
                (scripts_of cfg _resolve_script_path level materialize) w0)
      as (stopped & lines & w1 & Hs & _) end.
  exists stopped, w1. split; [done|].
  unfold bind at 1. rewrite Hs. destruct stopped; [done|].
  unfold bind, ret. by destruct (run_tests _ _ _ _).
Qed.

End executor.

End ExecutorFacts.

(** ** The sorter: what holds and what does not *)

Module SortClaims.
Import Py PyFacts Analyzer AnalyzerFacts Examples.

(** The relation is acyclic as soon as one run of the sort returns. *)
Lemma returned_acyclic fuel order self out self' :
  iteration_of (all_nodes (dependencies self)) order →
  topological_sort fuel order self = Returned out self' →
  acyclic (dependencies self).
Proof.
  intros Hit Hret.
  destruct (topological_sort_returned _ _ _ _ _ Hit Hret)
    as (Hnd & Hall & _ & Hord).
  apply (ordered_acyclic _ out); [done| |done]. intros x. apply Hall.
Qed.

Lemma sort_returns_acyclic fuel deps :
  sort_returns fuel deps = true → acyclic deps.
Proof.
  unfold sort_returns.
  destruct (topological_sort _ _ _) as [out self'| |] eqn:E; [|done..].
  intros _.
  by apply (returned_acyclic _ _ _ _ _ (iteration_of_elements _) E).
Qed.

Lemma family_deps_acyclic : acyclic family_deps.
Proof. apply (sort_returns_acyclic 4). by vm_compute. Qed.

(** C2. On an acyclic dependency relation, [topological_sort], started
    with no node marked, returns a sequence with as many entries as there
    are distinct nodes (dependents and dependencies together), and for every
    edge, [a] depending on [b], the index of [b] in it is smaller than the
    index of [a].  This holds for every order in which the set of nodes is
    enumerated, with fuel for one call per node. *)
Theorem topological_sort_acyclic_ordered
    (deps : gmap string (gset string)) (self : analyzer)
    (order : list string) (fuel : nat) :
  acyclic deps →
  dependencies self = deps →
  temp_marked self = ∅ →
  iteration_of (all_nodes deps) order →
  size (all_nodes deps) < fuel →
  ∃ out self',
    topological_sort fuel order self = Returned out self' ∧
    length out = size (all_nodes deps) ∧
    ∀ a b, depends_on deps a b →
      ∃ i j, index b out = Some i ∧ index a out = Some j ∧ i < j.
Proof.
  intros Hac <- Htm Hit Hfuel.
  destruct (topological_sort fuel order self) as [out self'|m self'|] eqn:E.
  - exists out, self'. split; [done|].
    destruct (topological_sort_returned _ _ _ _ _ Hit E)
      as (Hnd & Hall & _ & Hord).
    split.
    + rewrite <- (size_list_to_set (C:=gset string)) by done. f_equal.
      apply set_eq. intros x. by rewrite elem_of_list_to_set.
    + intros a b Hab.
      assert (a ∈ out) as [j Hj]%list_elem_of_lookup.
      { apply Hall. by apply depends_on_nodes in Hab as [? _]. }
      destruct (Hord j a b Hj Hab) as (i & Hij & Hi).
      exists i, j. split_and!; [by apply index_NoDup..|done].
  - by destruct (topological_sort_no_raise fuel order self m self').
  - by destruct (topological_sort_fuel fuel order self).
Qed.

Lemma topological_sort_acyclic_ordered_witness :
  ∃ out self',
    topological_sort 4 (elements (all_nodes family_deps)) (init family_deps)
      = Returned out self' ∧
    length out = size (all_nodes family_deps) ∧
    ∀ a b, depends_on family_deps a b →
      ∃ i j, index b out = Some i ∧ index a out = Some j ∧ i < j.
Proof.
  apply (topological_sort_acyclic_ordered family_deps (init family_deps)).
  - exact family_deps_acyclic.
  - reflexivity.
  - reflexivity.
  - apply iteration_of_elements.
  - vm_compute. lia.
Defined.

(** C4. On a dependency relation with a cycle, [topological_sort] raises
    the cycle error and returns no sequence at all, whatever the state it
    starts from and the order in which the nodes are enumerated. *)
Theorem topological_sort_cycle_raises
    (deps : gmap string (gset string)) (self : analyzer)
    (order : list string) (fuel : nat) :
  (∃ n, tc (depends_on deps) n n) →
  dependencies self = deps →
  iteration_of (all_nodes deps) order →
  size (all_nodes deps) < fuel →
  ∃ self', topological_sort fuel order self = Raised cycle_msg self'.
Proof.
  intros [n Hn] <- Hit Hfuel.
  destruct (topological_sort fuel order self) as [out self'|m self'|] eqn:E.
  - destruct (returned_acyclic _ _ _ _ _ Hit E n Hn).
  - exists self'. by rewrite (topological_sort_raises_cycle_msg _ _ _ _ _ E).
  - by destruct (topological_sort_fuel fuel order self).
Qed.

Lemma two_cycle_has_cycle : ∃ n, tc (depends_on two_cycle) n n.
Proof.
  exists "X". apply tc_l with "Y"; [|apply tc_once];
    unfold depends_on; by_compute.
Qed.

Lemma topological_sort_cycle_raises_witness :
  ∃ self',
    topological_sort 3 ["X"; "Y"] (init two_cycle) = Raised cycle_msg self'.
Proof.
  apply (topological_sort_cycle_raises two_cycle (init two_cycle)).
  - exact two_cycle_has_cycle.
  - reflexivity.
  - apply iteration_of_list; by_compute.
  - vm_compute. lia.
Defined.

Lemma x_on_y_acyclic : acyclic x_on_y.
Proof. apply (sort_returns_acyclic 3). by vm_compute. Qed.

(** A node left in [temp_marked] by an earlier call makes the next call
    raise as soon as the relation mentions it, cyclic or not:
    [topological_sort] resets [visited] and [sorted_relations] only. *)
Lemma marked_node_raises fuel order self node :
  node ∈ temp_marked self →
  node ∈ all_nodes (dependencies self) →
  iteration_of (all_nodes (dependencies self)) order →
  size (all_nodes (dependencies self)) < fuel →
  ∃ self', topological_sort fuel order self = Raised cycle_msg self'.
Proof.
  intros Htm HN Hit Hfuel.
  destruct (topological_sort fuel order self) as [out self'|m self'|] eqn:E.
  - destruct (topological_sort_returned _ _ _ _ _ Hit E)
      as (_ & Hall & Hfree & _).
    destruct (Hfree node); [by apply Hall|done].
  - exists self'. by rewrite (topological_sort_raises_cycle_msg _ _ _ _ _ E).
  - by destruct (topological_sort_fuel fuel order self).
Qed.

(** C5 (fails on the code). A call on the cycle [X -> Y -> X] raises and
    leaves [X] and [Y] in [temp_marked].  After the relation has been
    replaced by the acyclic [X -> Y], the next call on the same analyzer
    raises the cycle error again, where a new analyzer returns [Y; X]. *)
Theorem stale_marks_leak_into_next_sort :
  let aborted :=
    {| dependencies := two_cycle; sorted_relations := [];
       visited := ∅; temp_marked := {[ "X"; "Y" ]} |} in
  acyclic x_on_y ∧
  topological_sort 3 ["X"; "Y"] (init two_cycle)
    = Raised cycle_msg aborted ∧
  topological_sort 3 ["X"; "Y"] (extract_dependencies x_on_y aborted)
    = Raised cycle_msg (extract_dependencies x_on_y aborted) ∧
  topological_sort 3 ["X"; "Y"] (init x_on_y)
    = Returned ["Y"; "X"]
        {| dependencies := x_on_y; sorted_relations := ["Y"; "X"];
           visited := {[ "X"; "Y" ]}; temp_marked := ∅ |}.
Proof.
  split_and!; [exact x_on_y_acyclic|by_compute..].
Qed.

(** C6 (fails on the code). The dependencies of a node are visited in
    lexicographic order, but the nodes themselves are taken in the order in
    which the set [all_nodes] happens to be enumerated: two enumerations of
    the same set give two different results on the same relation. *)
Theorem topological_sort_follows_set_order :
  let done :=
    {| dependencies := family_deps;
       sorted_relations := ["parentOf"; "grandparentOf"; "siblingOf"];
       visited := {[ "parentOf"; "grandparentOf"; "siblingOf" ]};
       temp_marked := ∅ |} in
  let done' :=
    {| dependencies := family_deps;
       sorted_relations := ["parentOf"; "siblingOf"; "grandparentOf"];
       visited := {[ "parentOf"; "grandparentOf"; "siblingOf" ]};
       temp_marked := ∅ |} in
  iteration_of (all_nodes family_deps)
    ["grandparentOf"; "siblingOf"; "parentOf"] ∧
  iteration_of (all_nodes family_deps)
    ["siblingOf"; "grandparentOf"; "parentOf"] ∧
  topological_sort 4 ["grandparentOf"; "siblingOf"; "parentOf"]
    (init family_deps)
  = Returned ["parentOf"; "grandparentOf"; "siblingOf"] done ∧
  topological_sort 4 ["siblingOf"; "grandparentOf"; "parentOf"]
    (init family_deps)
  = Returned ["parentOf"; "siblingOf"; "grandparentOf"] done'.
Proof.
  split_and!; [apply iteration_of_list; by_compute..|by_compute|by_compute].
Qed.

End SortClaims.

(** ** The runner: what holds and what does not *)

Module RunnerClaims.
Import Py PyFacts Runner KeyFacts RunnerFacts Examples.

(** C8. A list of result rows and any rearrangement of it are judged equal
    by the comparison of [run_test]: both sides are sorted by the string
    form of each row's sorted items, then compared as sequences. *)
Theorem results_match_permutation
    (rows rows' : list (gmap string value)) :
  rows' ≡ₚ rows → results_match rows' rows = true.
Proof.
  intros Hperm. unfold results_match. apply bool_decide_eq_true.
  apply sorted_by_perm_eq; [apply row_key_inj|done].
Qed.

Lemma results_match_permutation_witness :
  results_match
    [ {[ "x" := VStr ":Bob" ]}; {[ "x" := VStr ":Alice" ]};
      {[ "x" := VStr ":Bob" ]} ]
    [ {[ "x" := VStr ":Alice" ]}; {[ "x" := VStr ":Bob" ]};
      {[ "x" := VStr ":Bob" ]} ] = true.
Proof.
  apply results_match_permutation.
  apply Permutation_swap.
Defined.

(** C10. A single row with a key named [result] comes back untouched,
    whether its value is the boolean of an ASK or the text bound to a SELECT
    variable called [result].  Every other non-empty input keeps its rows
    and their keys; each value becomes the text [str] gives for it, or, when
    that text contains the base namespace, a colon followed by what comes
    after its last [#]. *)
Theorem normalize_results_cases (results : list (gmap string value)) :
  results ≠ [] →
  (∀ row, results = [row] → is_Some (row !! "result") →
     normalize_results results = results) ∧
  ((∀ row, results = [row] → row !! "result" = None) →
   length (normalize_results results) = length results ∧
   ∀ i row, results !! i = Some row →
     ∃ row', normalize_results results !! i = Some row' ∧
       dom row' = dom row ∧
       ∀ k v, row !! k = Some v →
         ∃ text, row' !! k = Some (VStr text) ∧
           ((∃ pre post,
               str v = String.append pre (String.append base_namespace post)) →
            ∃ pre local,
              str v = String.append pre (String "#" local) ∧
              has_char "#" local = false ∧
              text = String ":" local) ∧
           ((¬ ∃ pre post,
               str v = String.append pre (String.append base_namespace post)) →
            text = str v)).
Proof.
  intros Hne. split.
  - intros row -> Hres. unfold normalize_results. simpl.
    by rewrite bool_decide_eq_true_2.
  - intros Hnot.
    assert (normalize_results results
            = (λ row : gmap string value, normalize_value <$> row) <$> results)
      as ->.
    { destruct results as [|row0 [|row1 rest]]; [done| |done].
      unfold normalize_results. simpl.
      rewrite bool_decide_eq_false_2; [done|].
      rewrite (Hnot row0 eq_refl). by intros [? ?]. }
    split; [by rewrite length_fmap|].
    intros i row Hi. exists (normalize_value <$> row).
    split; [by rewrite list_lookup_fmap, Hi|].
    split; [by rewrite dom_fmap_L|].
    intros k v Hk. rewrite lookup_fmap, Hk. simpl. unfold normalize_value.
    eexists. split; [done|].
    destruct (contains base_namespace (str v)) eqn:Ec.
    + split; [|intros []; by apply contains_spec].
      intros _. apply contains_spec in Ec as (pre & post & Ev).
      assert (has_char "#" (str v) = true) as Hh.
      { rewrite Ev, !has_char_append.
        replace (has_char "#" base_namespace) with true by done.
        by rewrite orb_true_r. }
      destruct (last_split_suffix "#" _ Hh) as [pre' Hpre'].
      exists pre', (last_item (split "#" (str v))).
      split_and!; [done|apply last_split_no_sep|done].
    + split; [|done]. intros Hex%contains_spec. congruence.
Qed.

Lemma normalize_results_cases_witness :
  normalize_results [ {[ "result" := VStr "http://example.org/family#Bob" ]} ]
  = [ {[ "result" := VStr "http://example.org/family#Bob" ]} ].
Proof.
  assert ([ ({[ "result" := VStr "http://example.org/family#Bob" ]}
             : gmap string value) ] ≠ []) as Hne by discriminate.
  destruct (normalize_results_cases _ Hne) as [Hask _].
  apply (Hask _ eq_refl). by rewrite lookup_singleton_eq.
Defined.

(** C9 as stated fails: the runner never resets [passed] and [failed], so
    a second call on the same runner ends with [total = 1] and
    [passed = 2]. *)
Lemma second_run_breaks_total :
  ∃ w1 w2 : world (Store:=list string),
    run_tests decimal toy_tests (Some ["0.1"]) toy_world = Ok tt w1 ∧
    run_tests decimal toy_tests (Some ["0.1"]) w1 = Ok tt w2 ∧
    total (runner_results w2) = 1 ∧
    passed (runner_results w2) = 2 ∧
    failed (runner_results w2) = 0 ∧
    total (runner_results w2)
      ≠ passed (runner_results w2) + failed (runner_results w2).
Proof.
  eexists _, _. split; [vm_compute; reflexivity|].
  split; [vm_compute; reflexivity|]. by vm_compute.
Qed.

(** C9, amended. A completed [run_tests] call sets [total] to the number
    of tests it ran and gives each of them one verdict; [passed] grows by
    the number of [PASS] verdicts and [failed] by the number of [FAIL] and
    [ERROR] ones, a test whose query raises being an [ERROR].  So
    [passed + failed] grows by [total], and [total = passed + failed] holds
    when the call started with both counters at zero. *)
Theorem run_tests_counters {Store : Type} `{!Backend Store}
    (int_of_str : string → option Z) (tests : gmap string test_case)
    (test_ids : option (list string)) (w w' : world (Store:=Store)) :
  run_tests int_of_str tests test_ids w = Ok tt w' →
  ∃ to_run new,
    tests_to_run int_of_str tests test_ids = inr to_run ∧
    console w'
      = console w ++ new
          ++ [Summary (total (runner_results w'))
                (passed (runner_results w')) (failed (runner_results w'))] ∧
    verdicts new = (λ t, verdict_on (store w) t.2) <$> to_run ∧
    total (runner_results w') = length to_run ∧
    passed (runner_results w')
      = passed (runner_results w) + count_status PASS new ∧
    failed (runner_results w')
      = failed (runner_results w) + count_status FAIL new
        + count_status ERROR new ∧
    passed (runner_results w') + failed (runner_results w')
      = passed (runner_results w) + failed (runner_results w)
        + total (runner_results w') ∧
    (passed (runner_results w) = 0 → failed (runner_results w) = 0 →
     total (runner_results w')
       = passed (runner_results w') + failed (runner_results w')).
Proof.
  intros Hrun.
  pose proof (run_tests_spec int_of_str tests test_ids w) as Hspec.
  destruct (tests_to_run _ _ _) as [e|to_run]; [congruence|].
  destruct Hspec as (w1 & new & Hrun1 & _ & Hcon & _ & Hv & Htot & Hpass
                       & Hfail).
  rewrite Hrun in Hrun1. injection Hrun1 as <-.
  exists to_run, new.
  pose proof (count_status_total new) as Hcount.
  rewrite Hv, length_fmap in Hcount.
  split_and!; try done; lia.
Qed.

Lemma run_tests_counters_witness :
  total (runner_results toy_world_after_suite)
  = passed (runner_results toy_world_after_suite)
    + failed (runner_results toy_world_after_suite).
Proof.
  assert (run_tests decimal toy_tests None toy_world
          = Ok tt toy_world_after_suite) as Hrun by (vm_compute; reflexivity).
  destruct (run_tests_counters decimal toy_tests None toy_world
              toy_world_after_suite Hrun)
    as (to_run & new & _ & _ & _ & _ & _ & _ & _ & Hfresh).
  apply Hfresh; reflexivity.
Defined.

End RunnerClaims.
(** ** The levels: what holds and what does not *)

Module LevelClaims.
Import Py PyFacts Analyzer AnalyzerFacts Levels LevelsFacts GraphFacts Examples.

Lemma items_in_order_ok (deps : gmap string (gset string)) :
  items_of deps (items_in_order deps).
Proof.
  unfold items_of, items_in_order. split_and!.
  - rewrite <- list_fmap_compose.
    apply (NoDup_fst_map_to_list deps).
  - intros k l ([k' v] & [= -> ->] & _)%list_elem_of_fmap. apply NoDup_elements.
  - intros k v. split.
    + intros Hkv%elem_of_map_to_list. exists (elements v). split.
      * apply list_elem_of_fmap. by exists (k, v).
      * apply set_eq. intros x.
        by rewrite elem_of_list_to_set, elem_of_elements.
    + intros (l & Hl & ->).
      apply list_elem_of_fmap in Hl
        as ([k' v'] & [= -> ->] & Hin%elem_of_map_to_list).
      rewrite Hin. f_equal. apply set_eq. intros x.
      by rewrite elem_of_list_to_set, elem_of_elements.
Qed.

Lemma distinct_short_names (deps : gmap string (gset string)) :
  NoDup (_get_short_name <$> elements (all_nodes deps)) →
  ∀ a b, a ∈ all_nodes deps → b ∈ all_nodes deps →
    _get_short_name a = _get_short_name b → a = b.
Proof.
  intros Hnd a b Ha%elem_of_elements Hb%elem_of_elements.
  revert Hnd Ha Hb. generalize (elements (all_nodes deps)).
  intros l. induction l as [|x l IH]; [by intros _ ?%elem_of_nil|].
  rewrite fmap_cons, NoDup_cons, !elem_of_cons.
  intros [Hx Hnd] [->|Ha] [->|Hb] Heq; auto.
  - destruct Hx. rewrite Heq. apply list_elem_of_fmap. eauto.
  - destruct Hx. rewrite <- Heq. apply list_elem_of_fmap. eauto.
Qed.

Lemma same_suffix_acyclic : acyclic same_suffix.
Proof. apply (SortClaims.sort_returns_acyclic 3). by vm_compute. Qed.

Lemma family_uris_acyclic : acyclic family_uris.
Proof. apply (SortClaims.sort_returns_acyclic 4). by vm_compute. Qed.

(** C3 as stated fails: the levels are keyed by the last segment of the
    identifiers.  Here [family#parentOf] depends on [legacy/parentOf]; the
    relation is acyclic, both share the key [parentOf], and the node with a
    dependency ends at level 0, the level of what it depends on. *)
Lemma same_suffix_levels_collide :
  let levels : gmap string nat := {[ "parentOf" := 0 ]} in
  acyclic same_suffix ∧
  items_of same_suffix (items_in_order same_suffix) ∧
  iteration_of (short_nodes (items_in_order same_suffix)) ["parentOf"] ∧
  depends_on same_suffix "http://example.org/family#parentOf"
    "http://example.org/legacy/parentOf" ∧
  _calculate_dependency_levels 2 (items_in_order same_suffix) ["parentOf"]
    = Some ({[ "parentOf" ]}, [("parentOf", "parentOf")], levels, 0) ∧
  level_of levels "http://example.org/family#parentOf" = Some 0 ∧
  level_of levels "http://example.org/legacy/parentOf" = Some 0.
Proof.
  split_and!.
  - exact same_suffix_acyclic.
  - apply items_in_order_ok.
  - apply iteration_of_list; by_compute.
  - unfold depends_on. by_compute.
  - by_compute.
  - by_compute.
  - by_compute.
Qed.

(** C3, amended. On an acyclic dependency relation whose nodes have
    pairwise distinct short names, the level computation returns, gives
    every node a level, level 0 to exactly the nodes without dependencies,
    and to every node a level above the level of each of its
    dependencies. *)
Theorem levels_of_acyclic_relation
    (deps : gmap string (gset string)) (items : list (string * list string))
    (order : list string) (fuel : nat) :
  acyclic deps →
  (∀ a b, a ∈ all_nodes deps → b ∈ all_nodes deps →
          _get_short_name a = _get_short_name b → a = b) →
  items_of deps items →
  iteration_of (short_nodes items) order →
  size (short_nodes items) < fuel →
  ∃ nodes relationships levels max_level,
    _calculate_dependency_levels fuel items order
      = Some (nodes, relationships, levels, max_level) ∧
    (∀ n, n ∈ all_nodes deps →
       ∃ k, level_of levels n = Some k ∧ (k = 0 ↔ deps_of deps n = ∅)) ∧
    (∀ a b, depends_on deps a b →
       ∃ ka kb, level_of levels a = Some ka ∧ level_of levels b = Some kb ∧
                kb < ka).
Proof.
  intros Hac Hinj Hitems Hit Hfuel.
  destruct (calculate_returns deps items order fuel Hitems Hit Hfuel)
    as (loop_levels & _ & Hok & Hset & _ & Hcalc).
  set (rev_graph := (short_graph items)) in *.
  eexists _, _, _, _. split; [exact Hcalc|].
  assert (∀ n, n ∈ all_nodes deps →
            is_Some (loop_levels !! _get_short_name n)) as Hall.
  { intros n Hn.
    apply (settled_complete rev_graph (short_nodes items) order).
    - intros node. apply Hit.
    - intros a b. by apply (short_dep_nodes deps items Hitems).
    - intros x Hx.
      assert (x ∈ (short_nodes items)) as Hxn.
      { apply tc_rtc_l with (x := x) in Hx; [|done].
        clear -Hx Hitems.
        induction Hx as [x y Hxy|x y z Hxy _ IH]; [|done].
        by apply (short_dep_nodes deps items Hitems) in Hxy. }
      apply (elem_of_nodes deps items Hitems) in Hxn as (a & Ha & Hax).
      destruct (short_path_inv deps items Hitems x x Hinj Hx a Ha Hax)
        as (b & Hb & Hab).
      assert (b = a) as ->.
      { apply Hinj; [|done|congruence].
        apply tc_rtc_r with (z := b) in Hab; [|done].
        clear -Hab. induction Hab as [x y Hxy|x y z Hxy _ IH]; [|done].
        by apply depends_on_nodes in Hxy as [_ ?]. }
      by apply (Hac a).
    - done.
    - apply (elem_of_nodes deps items Hitems). eauto. }
  assert (∀ n k, loop_levels !! _get_short_name n = Some k →
            level_of (default_levels order loop_levels) n = Some k) as Hkeep.
  { intros n k Hk. unfold level_of. by rewrite default_levels_lookup, Hk. }
  split.
  - intros n Hn. destruct (Hall n Hn) as [k Hk]. exists k.
    split; [by apply Hkeep|].
    destruct (Hok _ _ Hk) as [Hzero Hpos]. split.
    + intros ->. apply set_eq. intros b. split; [|by intros ?%elem_of_empty].
      intros Hb. exfalso.
      assert (short_dep rev_graph (_get_short_name n) (_get_short_name b))
        as Hsd by (apply (short_dep_iff deps items Hitems); eauto).
      destruct Hpos as [_ Hk0]; [|lia].
      intros E. unfold short_dep in Hsd. rewrite E in Hsd.
      by apply elem_of_nil in Hsd.
    + intros Hempty. apply Hzero.
      destruct (rev_of rev_graph (_get_short_name n)) as [|d ds] eqn:E; [done|].
      exfalso.
      assert (short_dep rev_graph (_get_short_name n) d) as Hsd.
      { unfold short_dep. rewrite E. by left. }
      apply (short_dep_iff deps items Hitems) in Hsd as (a & b & Hab & Ha & _).
      assert (a = n) as ->.
      { apply Hinj; [|done..]. by apply depends_on_nodes in Hab as [? _]. }
      unfold depends_on in Hab. rewrite Hempty in Hab.
      by apply elem_of_empty in Hab.
  - intros a b Hab.
    destruct (Hall a) as [ka Hka]; [by apply depends_on_nodes in Hab as [? _]|].
    assert (short_dep rev_graph (_get_short_name a) (_get_short_name b))
      as Hsd by (apply (short_dep_iff deps items Hitems); eauto).
    destruct (level_ok_edge rev_graph _ _ _ _ Hok Hka Hsd) as (kb & Hkb & Hlt).
    exists ka, kb. split_and!; [by apply Hkeep..|done].
Qed.

Lemma levels_of_acyclic_relation_witness :
  ∃ nodes relationships levels max_level,
    _calculate_dependency_levels 4 (items_in_order family_uris)
      (elements (short_nodes (items_in_order family_uris)))
      = Some (nodes, relationships, levels, max_level) ∧
    (∀ n, n ∈ all_nodes family_uris →
       ∃ k, level_of levels n = Some k ∧
            (k = 0 ↔ deps_of family_uris n = ∅)) ∧
    (∀ a b, depends_on family_uris a b →
       ∃ ka kb, level_of levels a = Some ka ∧ level_of levels b = Some kb ∧
                kb < ka).
Proof.
  apply (levels_of_acyclic_relation family_uris).
  - exact family_uris_acyclic.
  - apply distinct_short_names. by_compute.
  - apply items_in_order_ok.
  - apply iteration_of_elements.
  - vm_compute. lia.
Defined.

(** C7 as stated fails: on the cycle [X -> Y -> X] the first pass of the
    [while] loop gives no level, leaves the flag down and the loop is
    over; the last loop then gives both nodes level 0. *)
Lemma level_loop_ends_on_two_cycle :
  let items := items_in_order two_cycle in
  (∃ n, tc (depends_on two_cycle) n n) ∧
  items_of two_cycle items ∧
  iteration_of (short_nodes items) ["X"; "Y"] ∧
  level_loop 1 (short_graph items) ["X"; "Y"]
    (init_levels (short_graph items) ["X"; "Y"])
  = Some ∅ ∧
  _calculate_dependency_levels 1 items ["X"; "Y"]
  = Some ({[ "X"; "Y" ]}, [("X", "Y"); ("Y", "X")],
          {[ "X" := 0; "Y" := 0 ]}, 0).
Proof.
  split_and!.
  - exact SortClaims.two_cycle_has_cycle.
  - apply items_in_order_ok.
  - apply iteration_of_list; by_compute.
  - by_compute.
  - by_compute.
Qed.

(** C7, amended. On a dependency relation with a cycle the [while] loop
    of the level computation ends, within one pass per node and one more:
    no node of a cycle is ever given a level by the loop, so a pass that
    gives none ends it, and the last loop of the function gives these
    nodes level 0. *)
Theorem level_loop_ends_on_cycle
    (deps : gmap string (gset string)) (items : list (string * list string))
    (order : list string) (fuel : nat) :
  (∃ n, tc (depends_on deps) n n) →
  items_of deps items →
  iteration_of (short_nodes items) order →
  size (short_nodes items) < fuel →
  ∃ loop_levels nodes relationships levels max_level,
    level_loop fuel (short_graph items) order
      (init_levels (short_graph items) order)
    = Some loop_levels ∧
    _calculate_dependency_levels fuel items order
    = Some (nodes, relationships, levels, max_level) ∧
    ∀ n, tc (depends_on deps) n n →
      loop_levels !! _get_short_name n = None ∧ level_of levels n = Some 0.
Proof.
  intros _ Hitems Hit Hfuel.
  destruct (calculate_returns deps items order fuel Hitems Hit Hfuel)
    as (loop_levels & Hloop & Hok & _ & _ & Hcalc).
  exists loop_levels. eexists _, _, _, _.
  split; [exact Hloop|]. split; [exact Hcalc|].
  intros n Hn.
  assert (loop_levels !! _get_short_name n = None) as Hnone.
  { apply (level_ok_cycle (short_graph items)); [done|].
    by apply (short_path deps items Hitems). }
  split; [done|]. unfold level_of.
  rewrite default_levels_lookup, Hnone. rewrite decide_True; [done|].
  apply Hit, (elem_of_nodes deps items Hitems). exists n. split; [|done].
  apply tc_rtc_l with (x := n) in Hn; [|done].
  clear -Hn. induction Hn as [x y Hxy|x y z Hxy _ IH]; [|done].
  by apply depends_on_nodes in Hxy as [_ ?].
Qed.

Lemma level_loop_ends_on_cycle_witness :
  let items := items_in_order two_cycle in
  ∃ loop_levels nodes relationships levels max_level,
    level_loop 3 (short_graph items) ["X"; "Y"]
      (init_levels (short_graph items) ["X"; "Y"])
    = Some loop_levels ∧
    _calculate_dependency_levels 3 items ["X"; "Y"]
    = Some (nodes, relationships, levels, max_level) ∧
    ∀ n, tc (depends_on two_cycle) n n →
      loop_levels !! _get_short_name n = None ∧ level_of levels n = Some 0.
Proof.
  apply (level_loop_ends_on_cycle two_cycle (items_in_order two_cycle)
           ["X"; "Y"] 3).
  - exact SortClaims.two_cycle_has_cycle.
  - apply items_in_order_ok.
  - apply iteration_of_list; by_compute.
  - vm_compute. lia.
Defined.

End LevelClaims.

(** ** The staged run: what holds and what does not *)

Module ExecutorClaims.
Import Py PyFacts Runner RunnerFacts Executor ExecutorFacts Examples.
Import Staged Samples.

(** C1 as stated fails: the only test of level 0 fails, and
    [run_all_levels] stops there; levels 1 to 3 are never started. *)
Lemma later_levels_skipped_after_test_failure :
  ∃ w' : world (Store:=list string),
    run_all_levels decimal toy_tests failing_first_level no_files id 0 None
      toy_world
    = Ok [("level_0", RunnerResults)] w' ∧
    console w'
    = [RunningLevel 0; TestHeader "0.2"; Verdict FAIL; Summary 1 0 1;
       LevelHasFailures 0].
Proof. eexists. split; [vm_compute; reflexivity|reflexivity]. Qed.

(** What the loop does after a script error: the result of [run_level] has
    [failed = 0], so the next levels are run. *)
Lemma later_levels_run_after_script_error :
  missing_script_run = Ok missing_script_results missing_script_world ∧
  missing_script_results
  = [("level_0",
      MaterializationError "Materialization script not found: missing.rq");
     ("level_1", RunnerResults); ("level_2", RunnerResults);
     ("level_3", RunnerResults)] ∧
  console missing_script_world
  = [RunningLevel 0;
     Stopping "Materialization script not found: missing.rq";
     RunningLevel 1; TestHeader "0.1"; Verdict PASS; Summary 1 1 0;
     RunningLevel 2; TestHeader "0.1"; Verdict PASS; Summary 1 2 0;
     RunningLevel 3; TestHeader "0.1"; Verdict PASS; Summary 1 3 0].
Proof. split_and!; by_compute. Qed.

(** C1, amended. In a completed staged run no level is started after a
    test has failed or raised: the run stops after the first level that
    leaves a positive failed count, and the line after [Stopping] is never
    a script or a test.  A script that is missing or that the store
    rejects stops its level at once: when the scripts before it have gone
    through and it raises, [run_level] writes the error and returns the
    record of the error from the world that script left, whatever scripts
    remain; the counters are untouched and nothing but script lines has
    been written for the level, so none of its remaining scripts and none
    of its tests is run.  A missing file raises before anything is written
    or applied; a rejected update raises after its line and with the store
    the update left. *)
Theorem staged_run_stops_after_failures {Store : Type} `{!Backend Store}
    (int_of_str : string → option Z) (tests : gmap string test_case)
    (cfg : config) (files : gmap string string)
    (_resolve_script_path : string → string) :
  (∀ (start_level : Z)
     (materialize_per_level : option (gmap Z (list string)))
     (w w' : world (Store:=Store))
     (all_results : list (string * level_result)),
     run_all_levels int_of_str tests cfg files _resolve_script_path
       start_level materialize_per_level w = Ok all_results w' →
     ∃ new,
       console w' = console w ++ new ∧
       (∀ pre ev post, new = pre ++ ev :: post → is_failing_verdict ev →
          ∀ level, RunningLevel level ∉ post) ∧
       (∀ pre m ev post, new = pre ++ Stopping m :: ev :: post →
          ¬ is_script_line ev ∧ ¬ is_test_line ev)) ∧
  (∀ (level : Z) (info : level_info) (materialize : option (list string))
     (done_scripts rest : list string) (script_path : string)
     (w w1 w2 : world (Store:=Store)) (e : exn),
     test_levels cfg !! pretty level = Some info →
     scripts_of cfg _resolve_script_path level materialize
       = done_scripts ++ script_path :: rest →
     apply_scripts files done_scripts
       {| store := store w; runner_results := runner_results w;
          console := console w ++ [RunningLevel level] |} = Ok None w1 →
     apply_materialization files script_path w1 = Raise e w2 →
     run_level int_of_str tests cfg files _resolve_script_path level
       materialize w
     = Ok (MaterializationError (exn_str e))
          {| store := store w2; runner_results := runner_results w;
             console := console w2 ++ [Stopping (exn_str e)] |} ∧
     ∃ lines,
       console w2 = console w ++ RunningLevel level :: lines ∧
       Forall is_script_line lines) ∧
  (∀ (script_path : string) (w : world (Store:=Store)),
     (files !! script_path = None →
      apply_materialization files script_path w
      = Raise (FileNotFoundError
                 (String.append "Materialization script not found: "
                    script_path)) w) ∧
     (∀ sparql_update e,
        files !! script_path = Some sparql_update →
        (execute_update (store w) sparql_update).2 = inl e →
        apply_materialization files script_path w
        = Raise e
            {| store := (execute_update (store w) sparql_update).1;
               runner_results := runner_results w;
               console := console w ++ [Applying script_path] |})).
Proof.
  split_and!.
  - unfold run_all_levels.
    intros start_level materialize_per_level w w' all_results Hrun.
    destruct (levels_loop_spec _ _ _ _ _ _ _ _ _ _ _ Hrun)
      as (new & Hcon & Hhalts & Hquiet & _).
    exists new. split_and!; [done| |].
    + intros pre ev post Hnew Hev level Hin.
      pose proof (halts_after_failure_split _ _ _ _ Hhalts Hnew Hev) as Hpost.
      rewrite Forall_forall in Hpost. by apply (Hpost _ Hin).
    + intros pre m ev post Hnew.
      by apply (quiet_after_stop_split _ _ _ _ _ Hquiet Hnew).
  - intros level info materialize done_scripts rest script_path w w1 w2 e
      Hinfo Hscripts Hdone Hraise.
    destruct (run_level_inv int_of_str tests cfg files _resolve_script_path
                level materialize info w Hinfo) as (stopped & w3 & Hs & ->).
    rewrite Hscripts, (apply_scripts_app files _ _ _ _ Hdone) in Hs.
    destruct (apply_scripts_spec files done_scripts
                {| store := store w; runner_results := runner_results w;
                   console := console w ++ [RunningLevel level] |})
      as (st & lines1 & w1' & Hs1 & Hres1 & Hcon1 & Hlines1).
    rewrite Hdone in Hs1. injection Hs1 as <- <-.
    destruct (apply_materialization_spec files script_path w1)
      as (lines2 & w2' & Hrun2 & Hres2 & Hcon2 & Hlines2).
    assert (w2' = w2) as ->.
    { destruct Hrun2 as [Hrun2|[e' Hrun2]]; congruence. }
    simpl in Hres1, Hcon1. rewrite app_nil_r in Hcon1.
    revert Hs. simpl. unfold bind at 1, try_. rewrite Hraise.
    unfold bind, print, ret. intros [= <- <-]. split.
    + do 2 f_equal. congruence.
    + exists (lines1 ++ lines2). split.
      * rewrite Hcon2, Hcon1, <- !app_assoc. done.
      * by apply Forall_app.
  - intros script_path w. unfold apply_materialization. split.
    + by intros ->.
    + intros sparql_update e -> He.
      unfold bind, print, get_store, put_store, raise. simpl.
      by rewrite He.
Qed.

Lemma staged_run_stops_after_failures_witness :
  (∃ new,
     console missing_script_world = console toy_world ++ new ∧
     (∀ pre ev post, new = pre ++ ev :: post → is_failing_verdict ev →
        ∀ level, RunningLevel level ∉ post) ∧
     (∀ pre m ev post, new = pre ++ Stopping m :: ev :: post →
        ¬ is_script_line ev ∧ ¬ is_test_line ev)) ∧
  (run_level decimal toy_tests passing_levels one_script id 0
     (Some ["ok.rq"; "missing.rq"; "later.rq"]) toy_world
   = Ok (MaterializationError
           "Materialization script not found: missing.rq")
        {| store := store world_after_ok_script;
           runner_results := runner_results toy_world;
           console :=
             console world_after_ok_script
             ++ [Stopping "Materialization script not found: missing.rq"] |} ∧
   ∃ lines,
     console world_after_ok_script
     = console toy_world ++ RunningLevel 0 :: lines ∧
     Forall is_script_line lines).
Proof.
  destruct (staged_run_stops_after_failures decimal toy_tests passing_levels
              no_files id) as (Hstaged & _ & _).
  destruct (staged_run_stops_after_failures decimal toy_tests passing_levels
              one_script id) as (_ & Hlevel & _).
  split.
  - apply (Hstaged 0%Z (Some {[ 0%Z := ["missing.rq"] ]}) toy_world
             missing_script_world missing_script_results).
    by_compute.
  - apply (Hlevel 0%Z {| level_name := "base"; level_tests := ["0.1"] |}
             (Some ["ok.rq"; "missing.rq"; "later.rq"])
             ["ok.rq"] ["later.rq"] "missing.rq" toy_world
             world_after_ok_script world_after_ok_script
             (FileNotFoundError
                "Materialization script not found: missing.rq")).
    + reflexivity.
    + reflexivity.
    + by_compute.
    + by_compute.
Defined.

End ExecutorClaims.

(** * Further properties of the code *)

(** ** Short names *)

Module NameProps.
Import Py PyFacts ReprFacts Levels.

Lemma last_split_suffix_any sep s :
  ∃ pre, s = String.append pre (last_item (split sep s)).
Proof.
  destruct (has_char sep s) eqn:E.
  - destruct (last_split_suffix sep s E) as [pre Hpre].
    exists (String.append pre (String sep EmptyString)).
    rewrite append_assoc, append_cons, append_empty. exact Hpre.
  - exists EmptyString. by rewrite (split_no_sep _ _ E).
Qed.

(** X6. [_get_short_name] returns a suffix of its argument that holds
    neither [#] nor [/], and applying it to its own result changes
    nothing. *)
Theorem get_short_name_plain (node_uri : string) :
  has_char "#" (_get_short_name node_uri) = false ∧
  has_char "/" (_get_short_name node_uri) = false ∧
  (∃ pre, node_uri = String.append pre (_get_short_name node_uri)) ∧
  _get_short_name (_get_short_name node_uri) = _get_short_name node_uri.
Proof.
  unfold _get_short_name.
  set (a := last_item (split "#" node_uri)).
  set (b := last_item (split "/" a)).
  assert (has_char "#" a = false) as Ha by apply last_split_no_sep.
  assert (has_char "/" b = false) as Hb by apply last_split_no_sep.
  destruct (last_split_suffix_any "/" a) as [p Hp]. fold b in Hp.
  assert (has_char "#" b = false) as Hb'.
  { rewrite Hp, has_char_append in Ha. by apply orb_false_iff in Ha as [_ ?]. }
  split_and!; try done.
  - destruct (last_split_suffix_any "#" node_uri) as [q Hq]. fold a in Hq.
    exists (String.append q p). by rewrite append_assoc, <- Hp.
  - rewrite (split_no_sep _ _ Hb'). change (last_item [b]) with b.
    by rewrite (split_no_sep _ _ Hb).
Qed.

End NameProps.

(** ** Reading the ontology *)

Module OntologyProps.
Import Analyzer AnalyzerFacts Ontology.

Lemma deps_of_insert (m : gmap string (gset string)) k v a :
  deps_of (<[k := v]> m) a = if decide (k = a) then v else deps_of m a.
Proof.
  unfold deps_of. destruct (decide (k = a)) as [->|Hne].
  - by rewrite lookup_insert_eq.
  - by rewrite lookup_insert_ne.
Qed.

Lemma add_dependency_forward p d m a b :
  b ∈ deps_of (forward (add_dependency p d m)) a ↔
  (a = p ∧ b = d) ∨ b ∈ deps_of (forward m) a.
Proof.
  simpl. rewrite deps_of_insert. destruct (decide (p = a)) as [->|Hne].
  - rewrite elem_of_union, elem_of_singleton. naive_solver.
  - naive_solver.
Qed.

Lemma add_dependency_reverse p d m a b :
  a ∈ deps_of (reverse_deps (add_dependency p d m)) b ↔
  (a = p ∧ b = d) ∨ a ∈ deps_of (reverse_deps m) b.
Proof.
  simpl. rewrite deps_of_insert. destruct (decide (d = b)) as [->|Hne].
  - rewrite elem_of_union, elem_of_singleton. naive_solver.
  - naive_solver.
Qed.

Lemma add_dependency_mirrored p d m :
  mirrored m → mirrored (add_dependency p d m).
Proof.
  intros (Hmir & Hf & Hr). split_and!.
  - intros a b. rewrite add_dependency_forward, add_dependency_reverse.
    by rewrite Hmir.
  - intros a s. simpl. destruct (decide (p = a)) as [->|Hne].
    + rewrite lookup_insert_eq. intros [= <-] E.
      assert (d ∈ (∅ : gset string)) as H; [|by apply elem_of_empty in H].
      rewrite <- E. apply elem_of_union. right. by apply elem_of_singleton.
    + rewrite lookup_insert_ne by done. apply Hf.
  - intros b s. simpl. destruct (decide (d = b)) as [->|Hne].
    + rewrite lookup_insert_eq. intros [= <-] E.
      assert (p ∈ (∅ : gset string)) as H; [|by apply elem_of_empty in H].
      rewrite <- E. apply elem_of_union. right. by apply elem_of_singleton.
    + rewrite lookup_insert_ne by done. apply Hr.
Qed.

Lemma chain_foldl_mirrored p l m :
  mirrored m → mirrored (foldl (chain_step p) m l).
Proof.
  revert m. induction l as [|dep l IH]; intros m Hm; [done|].
  simpl. apply IH. unfold chain_step.
  destruct (is_uri_or_literal dep); [|done]. by apply add_dependency_mirrored.
Qed.

Lemma chain_foldl_forward p l m a b :
  b ∈ deps_of (forward (foldl (chain_step p) m l)) a ↔
  (a = p ∧ ∃ dep, dep ∈ l ∧ is_uri_or_literal dep = true ∧ term_str dep = b)
  ∨ b ∈ deps_of (forward m) a.
Proof.
  revert m. induction l as [|dep l IH]; intros m; simpl.
  - split; [by right|]. intros [(_ & dep & []%elem_of_nil & _)|?]; done.
  - rewrite IH. unfold chain_step.
    destruct (is_uri_or_literal dep) eqn:E.
    + rewrite add_dependency_forward. split.
      * intros [(-> & dep' & Hin & Hk & Hs)|[[-> ->]|Hm]].
        -- left. split; [done|]. exists dep'. split_and!; try done. by right.
        -- left. split; [done|]. exists dep. split_and!; try done. by left.
        -- by right.
      * intros [(-> & dep' & Hin & Hk & Hs)|Hm]; [|by right; right].
        apply elem_of_cons in Hin as [->|Hin].
        -- right. left. done.
        -- left. split; [done|]. by exists dep'.
    + split.
      * intros [(-> & dep' & Hin & Hk & Hs)|Hm]; [|by right].
        left. split; [done|]. exists dep'. split_and!; try done. by right.
      * intros [(-> & dep' & Hin & Hk & Hs)|Hm]; [|by right].
        apply elem_of_cons in Hin as [->|Hin]; [congruence|].
        left. split; [done|]. by exists dep'.
Qed.

Lemma chain_axioms_forward g l m a b :
  b ∈ deps_of (forward (foldl (chain_axiom_step g) m l)) a ↔
  (∃ prop chain_node dep,
     (prop, chain_node) ∈ l ∧ is_bnode chain_node = true ∧
     dep ∈ items g chain_node ∧ is_uri_or_literal dep = true ∧
     term_str prop = a ∧ term_str dep = b)
  ∨ b ∈ deps_of (forward m) a.
Proof.
  revert m. induction l as [|[prop node] l IH]; intros m; simpl.
  - split; [by right|]. intros [(? & ? & ? & []%elem_of_nil & _)|?]; done.
  - rewrite IH. unfold chain_axiom_step. simpl.
    destruct (is_bnode node) eqn:E.
    + rewrite chain_foldl_forward. split.
      * intros [(p' & n' & dep & Hin & H)|[(-> & dep & Hin & Hk & Hs)|Hm]].
        -- left. exists p', n', dep. split; [by right|done].
        -- left. exists prop, node, dep. split; [by left|done].
        -- by right.
      * intros [(p' & n' & dep & Hin & Hb & Hd & Hk & Ha & Hs)|Hm];
          [|by right; right].
        apply elem_of_cons in Hin as [[= -> ->]|Hin].
        -- right. left. split; [done|]. by exists dep.
        -- left. by exists p', n', dep.
    + split.
      * intros [(p' & n' & dep & Hin & H)|Hm]; [|by right].
        left. exists p', n', dep. split; [by right|done].
      * intros [(p' & n' & dep & Hin & Hb & H)|Hm]; [|by right].
        apply elem_of_cons in Hin as [[= -> ->]|Hin]; [congruence|].
        left. by exists p', n', dep.
Qed.

Lemma chain_axioms_mirrored g l m :
  mirrored m → mirrored (foldl (chain_axiom_step g) m l).
Proof.
  revert m. induction l as [|[prop node] l IH]; intros m Hm; [done|].
  simpl. apply IH. unfold chain_axiom_step. simpl.
  destruct (is_bnode node); [|done]. by apply chain_foldl_mirrored.
Qed.

Lemma annotations_mirrored l m :
  mirrored m → mirrored (foldl annotation_step m l).
Proof.
  revert m. induction l as [|[prop dep] l IH]; intros m Hm; [done|].
  simpl. apply IH. unfold annotation_step. simpl.
  destruct (is_uri prop && is_uri dep); [|done].
  by apply add_dependency_mirrored.
Qed.

Lemma annotations_forward l m a b :
  b ∈ deps_of (forward (foldl annotation_step m l)) a ↔
  (URIRef a, URIRef b) ∈ l ∨ b ∈ deps_of (forward m) a.
Proof.
  revert m. induction l as [|[prop dep] l IH]; intros m; simpl.
  - split; [by right|]. intros [[]%elem_of_nil|?]; done.
  - rewrite IH. unfold annotation_step. cbn [fst snd].
    rewrite elem_of_cons.
    destruct prop as [p|p|p], dep as [d|d|d]; cbn [is_uri andb term_str];
      try (split; [intros [?|?]; [by left; right|by right]
                  |intros [[[=]|?]|?]; [by left|by right]]).
    rewrite add_dependency_forward. split.
    + intros [?|[[-> ->]|?]]; [by left; right|by left; left|by right].
    + intros [[[= -> ->]|?]|?]; [by right; left|by left|by right; right].
Qed.

Lemma read_forward_edges (g : graph) (a b : string) :
  depends_on (forward (read_dependencies g)) a b ↔ declared_edge g a b.
Proof.
  unfold depends_on, read_dependencies, declared_edge.
  rewrite annotations_forward, chain_axioms_forward. simpl.
  unfold deps_of at 1. rewrite lookup_empty. simpl.
  rewrite elem_of_empty. naive_solver.
Qed.

(** X1. After [extract_dependencies] has read a graph, a property [a]
    depends on [b] exactly when the graph declares it: [b] is the text of a
    member, not a blank node, of a property chain of [a] whose list node is
    a blank node (a literal member counts, whatever the comment in the code
    says), or both are IRIs joined by a [:materializationDependency]
    annotation.  Nothing of what the maps held before is left. *)
Theorem read_dependencies_edges (g : graph) (a b : string) :
  depends_on (forward (read_dependencies g)) a b ↔ declared_edge g a b.
Proof.
  unfold depends_on, read_dependencies, declared_edge.
  rewrite annotations_forward, chain_axioms_forward. simpl.
  unfold deps_of at 1. rewrite lookup_empty. simpl.
  rewrite elem_of_empty. naive_solver.
Qed.

Lemma read_mirrored (g : graph) : mirrored (read_dependencies g).
Proof.
  apply annotations_mirrored, chain_axioms_mirrored.
  by split_and!.
Qed.

(** X2. The two maps [extract_dependencies] fills mirror each other:
    [b] is in [dependencies[a]] exactly when [a] is in [reverse_deps[b]];
    and no key of either map holds an empty set, since a key is only
    created by adding to it. *)
Theorem read_dependencies_mirrored (g : graph) :
  (∀ a b, b ∈ deps_of (forward (read_dependencies g)) a ↔
          a ∈ deps_of (reverse_deps (read_dependencies g)) b) ∧
  (∀ a s, forward (read_dependencies g) !! a = Some s → s ≠ ∅) ∧
  (∀ b s, reverse_deps (read_dependencies g) !! b = Some s → s ≠ ∅).
Proof.
  change (mirrored (read_dependencies g)).
  apply annotations_mirrored, chain_axioms_mirrored.
  by split_and!.
Qed.

(** X3. The nodes [topological_sort] collects after
    [extract_dependencies] are exactly the ends of the declared edges: a
    property that neither depends on anything nor is depended on is not a
    node and is never part of the sorted output. *)
Theorem sorted_nodes_are_edge_ends (g : graph) (self : analyzer)
    (x : string) :
  x ∈ all_nodes (dependencies (extract_dependencies_from g self)) ↔
  ∃ y, declared_edge g x y ∨ declared_edge g y x.
Proof.
  unfold extract_dependencies_from, extract_dependencies. simpl.
  rewrite elem_of_all_nodes. split.
  - intros [[s Hs]|[k Hk]].
    + destruct (read_mirrored g) as (_ & Hne & _).
      specialize (Hne x s Hs).
      apply set_choose_L in Hne as [y Hy]. exists y. left.
      apply read_forward_edges. unfold depends_on, deps_of.
      by rewrite Hs.
    + exists k. right. by apply read_forward_edges.
  - intros [y [Hxy|Hyx]].
    + apply read_forward_edges in Hxy. left.
      unfold depends_on, deps_of in Hxy.
      destruct (forward (read_dependencies g) !! x); [done|].
      by apply elem_of_empty in Hxy.
    + right. exists y. by apply read_forward_edges.
Qed.

End OntologyProps.

(** ** The sort and its state *)

Module SortProps.
Import Py PyFacts Analyzer AnalyzerFacts Examples Samples.

(** A visit that raises leaves a mark behind. *)
Lemma visit_raised_marks N fuel :
  ∀ node s m s',
    closed N (dependencies s) → node ∈ N →
    _visit fuel node s = Raised m s' →
    dependencies s' = dependencies s ∧
    ∃ x, x ∈ temp_marked s' ∧ x ∈ N.
Proof.
  induction fuel as [|fuel IH]; intros node s m s' Hcl Hn; [done|].
  simpl. destruct (decide (node ∈ temp_marked s)) as [Hm|Hm].
  { intros [= <- <-]. split; [done|]. by exists node. }
  destruct (decide (node ∈ visited s)); [done|].
  match goal with |- context [for_each _ ?l ?s1] =>
    destruct (for_each (_visit fuel) l s1) as [u s2|m2 s2|] eqn:Hfor;
      [done| |done] end.
  intros [= <- <-].
  destruct (for_each_stopped _ _ _ _ Hfor) as (pre & x & post & s1 & Hl & Hpre
                                                 & Hx); [done|].
  assert (frame {| dependencies := dependencies s;
                   sorted_relations := sorted_relations s;
                   visited := visited s;
                   temp_marked := temp_marked s ∪ {[node]} |} s1)
    as [_ Hdeps].
  { eapply for_each_frame; [|exact Hpre]. apply visit_frame. }
  simpl in Hdeps.
  assert (x ∈ N) as Hx'.
  { apply (Hcl node x Hn). unfold depends_on.
    apply elem_of_sorted_set. simpl in Hl.
    rewrite Hl. apply elem_of_app. right. by left. }
  destruct (IH x s1 m2 s2) as [Hd Hmark]; [by rewrite Hdeps|done|done|].
  split; [congruence|done].
Qed.

Lemma sort_raised_marks fuel order self m self1 :
  iteration_of (all_nodes (dependencies self)) order →
  topological_sort fuel order self = Raised m self1 →
  dependencies self1 = dependencies self ∧
  ∃ x, x ∈ temp_marked self1 ∧ x ∈ all_nodes (dependencies self).
Proof.
  intros [_ Hord]. unfold topological_sort.
  match goal with |- context [for_each _ _ ?s0] =>
    destruct (for_each (top_body fuel) order s0) as [u s2|m2 s2|] eqn:Hfor;
      [done| |done] end.
  intros [= <- <-].
  destruct (for_each_stopped _ _ _ _ Hfor) as (pre & x & post & s1 & Hl & Hpre
                                                 & Hx); [done|].
  assert (frame {| dependencies := dependencies self;
                   sorted_relations := [];
                   visited := ∅;
                   temp_marked := temp_marked self |} s1)
    as [_ Hdeps].
  { eapply for_each_frame; [|exact Hpre]. apply top_body_frame. }
  simpl in Hdeps. unfold top_body in Hx.
  destruct (decide (x ∈ visited s1)); [done|].
  destruct (visit_raised_marks (all_nodes (dependencies self)) fuel x s1 m2 s2)
    as [Hd Hmark]; try done.
  - rewrite Hdeps. apply all_nodes_closed.
  - apply Hord. rewrite Hl. apply elem_of_app. right. by left.
  - split; [congruence|done].
Qed.

(** X5. When [topological_sort] raises, the dependencies are
    unchanged and at least one node of the relation is left in
    [temp_marked].  From then on, whatever relation [extract_dependencies]
    puts in place, every call of [topological_sort] on this analyzer raises
    the cycle error as long as one of the marked names is a node of that
    relation, cycle or not. *)
Theorem aborted_sort_blocks_later_sorts (fuel : nat) (order : list string)
    (self self1 : analyzer) (m : string) :
  iteration_of (all_nodes (dependencies self)) order →
  topological_sort fuel order self = Raised m self1 →
  dependencies self1 = dependencies self ∧
  (∃ x, x ∈ temp_marked self1 ∧ x ∈ all_nodes (dependencies self)) ∧
  ∀ (declared : gmap string (gset string)) (fuel' : nat)
    (order' : list string),
    (∃ x, x ∈ temp_marked self1 ∧ x ∈ all_nodes declared) →
    iteration_of (all_nodes declared) order' →
    size (all_nodes declared) < fuel' →
    ∃ self2,
      topological_sort fuel' order' (extract_dependencies declared self1)
      = Raised cycle_msg self2.
Proof.
  intros Hord Hraised.
  destruct (sort_raised_marks fuel order self m self1 Hord Hraised)
    as [Hdeps Hmark].
  split_and!; try done.
  intros declared fuel' order' (x & Hx & Hxn) Hord' Hfuel.
  by apply (SortClaims.marked_node_raises fuel' order'
              (extract_dependencies declared self1) x).
Qed.

Lemma aborted_sort_blocks_later_sorts_witness :
  dependencies two_cycle_aborted = dependencies (init two_cycle) ∧
  (∃ x, x ∈ temp_marked two_cycle_aborted ∧
        x ∈ all_nodes (dependencies (init two_cycle))) ∧
  ∀ (declared : gmap string (gset string)) (fuel' : nat)
    (order' : list string),
    (∃ x, x ∈ temp_marked two_cycle_aborted ∧ x ∈ all_nodes declared) →
    iteration_of (all_nodes declared) order' →
    size (all_nodes declared) < fuel' →
    ∃ self2,
      topological_sort fuel' order'
        (extract_dependencies declared two_cycle_aborted)
      = Raised cycle_msg self2.
Proof.
  apply (aborted_sort_blocks_later_sorts 3 ["X"; "Y"] (init two_cycle)
           two_cycle_aborted cycle_msg).
  - apply iteration_of_list; by_compute.
  - by_compute.
Defined.

(** X4. When [topological_sort] returns, [sorted_relations] is the
    list returned, [visited] is the set of all nodes, [temp_marked] and
    [dependencies] are as they were before the call, and a second call on
    the state it leaves returns the same list again. *)
Theorem topological_sort_returned_state (fuel : nat) (order : list string)
    (self self' : analyzer) (out : list string) :
  iteration_of (all_nodes (dependencies self)) order →
  topological_sort fuel order self = Returned out self' →
  sorted_relations self' = out ∧
  visited self' = all_nodes (dependencies self) ∧
  temp_marked self' = temp_marked self ∧
  dependencies self' = dependencies self ∧
  topological_sort fuel order self' = Returned out self'.
Proof.
  intros Hord Hret.
  destruct (topological_sort_returned fuel order self out self' Hord Hret)
    as (Hnd & Hmem & _ & _).
  revert Hret. unfold topological_sort.
  match goal with |- context [for_each _ _ ?s0] =>
    destruct (for_each (top_body fuel) order s0) as [u s2|m2 s2|] eqn:Hfor;
      [|done|done] end.
  intros [= <- <-].
  assert (frame {| dependencies := dependencies self;
                   sorted_relations := [];
                   visited := ∅;
                   temp_marked := temp_marked self |} s2)
    as [Htm Hdeps].
  { eapply for_each_frame; [|exact Hfor]. apply top_body_frame. }
  simpl in Htm, Hdeps.
  destruct (for_each_ok (all_nodes (dependencies self)) (top_body fuel) order
              (top_body_ok _ fuel)
              {| dependencies := dependencies self; sorted_relations := [];
                 visited := ∅; temp_marked := temp_marked self |} u s2)
    as (Hwf & _ & Hall & _); try done.
  { apply all_nodes_closed. }
  { intros d. apply Hord. }
  { constructor; simpl.
    - constructor.
    - intros x. split; [by intros ?%elem_of_nil|by intros ?%elem_of_empty].
    - intros x ?%elem_of_empty. done.
    - intros i a b H. by rewrite lookup_nil in H. }
  split_and!; try done.
  - apply set_eq. intros x. split.
    + intros Hx. by apply (wf_nodes _ _ Hwf).
    + intros Hx. apply Hall. by apply Hord.
  - rewrite Htm, Hdeps, Hfor. done.
Qed.

Lemma topological_sort_returned_state_witness :
  sorted_relations family_sorted = ["parentOf"; "grandparentOf"; "siblingOf"] ∧
  visited family_sorted = all_nodes (dependencies (init family_deps)) ∧
  temp_marked family_sorted = temp_marked (init family_deps) ∧
  dependencies family_sorted = dependencies (init family_deps) ∧
  topological_sort 4 ["grandparentOf"; "siblingOf"; "parentOf"] family_sorted
  = Returned ["parentOf"; "grandparentOf"; "siblingOf"] family_sorted.
Proof.
  apply (topological_sort_returned_state 4
           ["grandparentOf"; "siblingOf"; "parentOf"] (init family_deps)).
  - apply iteration_of_list; by_compute.
  - by_compute.
Defined.

End SortProps.

(** ** The levels *)

Module LevelProps.
Import Py PyFacts Analyzer AnalyzerFacts Levels LevelsFacts GraphFacts Examples.

Lemma max_list_bound (l : list nat) (m : nat) :
  (∀ x, x ∈ l → (x ≤ m)%nat) → (max_list l ≤ m)%nat.
Proof.
  induction l as [|x l IH]; intros H; simpl; [lia|].
  assert (x ≤ m)%nat by (apply H; left).
  assert (max_list l ≤ m)%nat by (apply IH; intros; apply H; by right).
  lia.
Qed.

Lemma max_list_fmap_le (f g : string → nat) (l1 l2 : list string) :
  (∀ x, x ∈ l1 → x ∈ l2) → (∀ x, x ∈ l1 → f x = g x) →
  (max_list (f <$> l1) ≤ max_list (g <$> l2))%nat.
Proof.
  intros Hsub Hfg. apply max_list_bound.
  intros k (x & -> & Hx)%list_elem_of_fmap.
  apply max_list_elem_of_le. rewrite (Hfg x Hx).
  apply list_elem_of_fmap. exists x. split; [done|]. by apply Hsub.
Qed.

Lemma max_list_fmap_ext (f g : string → nat) (l1 l2 : list string) :
  (∀ x, x ∈ l1 ↔ x ∈ l2) → (∀ x, x ∈ l1 → f x = g x) →
  max_list (f <$> l1) = max_list (g <$> l2).
Proof.
  intros Hmem Hfg. apply Nat.le_antisymm.
  - apply max_list_fmap_le; [|done]. intros x. apply Hmem.
  - apply max_list_fmap_le.
    + intros x. apply Hmem.
    + intros x Hx. symmetry. apply Hfg. by apply Hmem.
Qed.

(** Two runs of the [while] loop over the same graph, each enumerating
    the nodes in its own order, end with the same levels. *)
Section two_orders.
Variables rg1 rg2 : gmap string (list string).
Variable nodes : gset string.
Variables order1 order2 : list string.
Variables lv1 lv2 : gmap string nat.
Hypothesis Hrg : ∀ n d, d ∈ rev_of rg1 n ↔ d ∈ rev_of rg2 n.

Lemma loop_levels_agree_half :
  level_ok rg1 lv1 → level_ok rg2 lv2 →
  settled rg2 order2 lv2 →
  (∀ n, n ∈ nodes → n ∈ order2) →
  dom lv1 ⊆ nodes →
  ∀ k n, lv1 !! n = Some k → lv2 !! n = Some k.
Proof.
  intros Hok1 Hok2 Hset2 Hord2 Hdom1 k.
  induction (lt_wf k) as [k _ IH]. intros n Hn.
  assert (∀ d, d ∈ rev_of rg1 n →
            ∃ kd, lv1 !! d = Some kd ∧ lv2 !! d = Some kd) as Hdeps.
  { intros d Hd.
    destruct (level_ok_edge rg1 lv1 n d k Hok1 Hn Hd) as (kd & Hkd & Hlt).
    exists kd. split; [done|]. by apply (IH kd). }
  assert (n ∈ order2) as Hno.
  { apply Hord2, Hdom1. apply elem_of_dom. by exists k. }
  destruct (lv2 !! n) as [k2|] eqn:E2.
  - f_equal. destruct (Hok1 n k Hn) as [Hz1 Hp1].
    destruct (Hok2 n k2 E2) as [Hz2 Hp2].
    destruct (rev_of rg1 n) as [|d ds] eqn:E1.
    + rewrite Hz1 by done. apply Hz2.
      destruct (rev_of rg2 n) as [|d' ds'] eqn:E; [done|].
      assert (d' ∈ rev_of rg1 n) as Hd by (apply Hrg; rewrite E; left).
      rewrite E1 in Hd. by apply elem_of_nil in Hd.
    + destruct Hp1 as [_ ->]; [done|].
      destruct Hp2 as [_ ->].
      { intros E. assert (d ∈ rev_of rg2 n) as Hd
          by (apply Hrg; rewrite E1; left).
        rewrite E in Hd. by apply elem_of_nil in Hd. }
      f_equal. symmetry. rewrite <- E1. apply max_list_fmap_ext.
      * intros x. apply Hrg.
      * intros x Hx. destruct (Hdeps x) as (kd & H1 & H2);
          [by rewrite <- E1|]. by rewrite H1, H2.
  - exfalso. destruct (Hset2 n Hno E2) as (d & Hd & Hnone).
    apply Hrg in Hd. destruct (Hdeps d Hd) as (kd & _ & Hkd). congruence.
Qed.

End two_orders.

Lemma loop_levels_agree rg1 rg2 (nodes : gset string) order1 order2
    (lv1 lv2 : gmap string nat) :
  (∀ n d, d ∈ rev_of rg1 n ↔ d ∈ rev_of rg2 n) →
  level_ok rg1 lv1 → level_ok rg2 lv2 →
  settled rg1 order1 lv1 → settled rg2 order2 lv2 →
  (∀ n, n ∈ nodes → n ∈ order1) → (∀ n, n ∈ nodes → n ∈ order2) →
  dom lv1 ⊆ nodes → dom lv2 ⊆ nodes →
  lv1 = lv2.
Proof.
  intros Hrg Hok1 Hok2 Hs1 Hs2 Ho1 Ho2 Hd1 Hd2. apply map_eq. intros n.
  destruct (lv1 !! n) as [k|] eqn:E1.
  - symmetry.
    by apply (loop_levels_agree_half rg1 rg2 nodes order2 lv1 lv2 Hrg).
  - destruct (lv2 !! n) as [k|] eqn:E2; [|done].
    assert (lv1 !! n = Some k) as Hk; [|congruence].
    apply (loop_levels_agree_half rg2 rg1 nodes order1 lv2 lv1);
      [|done..].
    intros ??. symmetry. apply Hrg.
Qed.

(** A level [k] given by the loop rests on a chain of [k + 1] names. *)
Lemma level_chain rev_graph (levels : gmap string nat) :
  level_ok rev_graph levels →
  ∀ k n, levels !! n = Some k →
    ∃ l : list string,
      length l = S k ∧ NoDup l ∧
      ∀ x, x ∈ l → ∃ j, (j ≤ k)%nat ∧ levels !! x = Some j.
Proof.
  intros Hok k. induction k as [|k IH]; intros n Hn.
  - exists [n]. split_and!; [done|apply NoDup_singleton|].
    intros x ->%list_elem_of_singleton. by exists 0%nat.
  - destruct (Hok n (S k) Hn) as [Hz Hpos].
    assert (rev_of rev_graph n ≠ []) as Hne
      by (intros E; specialize (Hz E); lia).
    destruct (Hpos Hne) as [Hall Hmax].
    assert ((λ dep, default 0 (levels !! dep)) <$> rev_of rev_graph n ≠ [])
      as Hne' by (intros E; by apply fmap_nil_inv in E).
    apply max_list_elem_of in Hne'.
    apply list_elem_of_fmap in Hne' as (d & Hd & Hin).
    destruct (Hall d Hin) as [kd Hkd]. rewrite Hkd in Hd. simpl in Hd.
    assert (kd = k) as -> by lia.
    destruct (IH d Hkd) as (l & Hlen & Hnd & Hl).
    exists (n :: l). split_and!.
    + simpl. by rewrite Hlen.
    + constructor; [|done]. intros Hnl.
      destruct (Hl n Hnl) as (j & Hj & Hnj). rewrite Hn in Hnj.
      injection Hnj as <-. lia.
    + intros x [->|Hx]%elem_of_cons.
      * by exists (S k).
      * destruct (Hl x Hx) as (j & Hj & Hxj). exists j. split; [lia|done].
Qed.

Section graph.
Variable deps : gmap string (gset string).

(** X7. On every dependency relation, with or without cycles,
    [_calculate_dependency_levels] returns: its nodes are the short names
    of the nodes of the relation, its relationships the pairs of short
    names of the edges, every node and nothing else has a level, no level
    exceeds [max_level], and some node has level [max_level] when there is
    a node at all. *)
Theorem every_node_gets_a_level (items : list (string * list string))
    (order : list string) (fuel : nat) :
  items_of deps items →
  iteration_of (short_nodes items) order →
  size (short_nodes items) < fuel →
  ∃ nodes relationships levels max_level,
    _calculate_dependency_levels fuel items order
      = Some (nodes, relationships, levels, max_level) ∧
    (∀ n, n ∈ nodes ↔ ∃ a, a ∈ all_nodes deps ∧ _get_short_name a = n) ∧
    (∀ d p, (d, p) ∈ relationships ↔
       ∃ a b, depends_on deps a b ∧
              _get_short_name a = p ∧ _get_short_name b = d) ∧
    dom levels = nodes ∧
    (∀ n k, levels !! n = Some k → (k ≤ max_level)%nat) ∧
    (nodes ≠ ∅ → ∃ n, levels !! n = Some max_level).
Proof.
  intros Hitems Hit Hfuel.
  destruct (calculate_returns deps items order fuel Hitems Hit Hfuel)
    as (loop_levels & _ & Hok & Hset & Hdom & Hcalc).
  eexists _, _, _, _. split; [exact Hcalc|].
  assert (dom (default_levels order loop_levels) = short_nodes items) as Hd.
  { apply set_eq. intros n. rewrite elem_of_dom, default_levels_lookup.
    destruct (loop_levels !! n) as [k|] eqn:E.
    - split; [|done]. intros _. apply Hdom. apply elem_of_dom. by exists k.
    - destruct (decide (n ∈ order)) as [Hn|Hn].
      + split; [|done]. intros _. by apply Hit.
      + split; [by intros [? ?]|]. intros Hn'. by apply Hit in Hn'. }
  split_and!.
  - apply (elem_of_nodes deps items Hitems).
  - apply (elem_of_rels deps items Hitems).
  - exact Hd.
  - intros n k Hk. apply max_list_elem_of_le.
    apply list_elem_of_fmap. exists (n, k). split; [done|].
    by apply elem_of_map_to_list.
  - intros Hne.
    set (levels := default_levels order loop_levels) in *.
    assert ((map_to_list levels).*2 ≠ []) as Hnil.
    { intros Hnil. apply fmap_nil_inv in Hnil.
      apply map_to_list_empty_iff in Hnil.
      apply Hne. rewrite <- Hd, Hnil. apply dom_empty_L. }
    apply max_list_elem_of in Hnil.
    apply list_elem_of_fmap in Hnil as ([n k] & Hk & Hin).
    exists n. apply elem_of_map_to_list in Hin. simpl in Hk. by rewrite Hk.
Qed.


(** X8. In the result of [_calculate_dependency_levels], a
    name with the positive level [k + 1] has all its dependencies at levels
    at most [k] and one of them at level [k] exactly; this holds on every
    relation, cycles included. *)
Theorem positive_level_is_one_more_than_dependencies
    (items : list (string * list string)) (order : list string)
    (fuel : nat) :
  items_of deps items →
  iteration_of (short_nodes items) order →
  size (short_nodes items) < fuel →
  ∃ nodes relationships levels max_level,
    _calculate_dependency_levels fuel items order
      = Some (nodes, relationships, levels, max_level) ∧
    ∀ p k, levels !! p = Some (S k) →
      (∀ a b, depends_on deps a b → _get_short_name a = p →
         ∃ kb, level_of levels b = Some kb ∧ (kb ≤ k)%nat) ∧
      (∃ a b, depends_on deps a b ∧ _get_short_name a = p ∧
              level_of levels b = Some k).
Proof.
  intros Hitems Hit Hfuel.
  destruct (calculate_returns deps items order fuel Hitems Hit Hfuel)
    as (loop_levels & _ & Hok & Hset & Hdom & Hcalc).
  eexists _, _, _, _. split; [exact Hcalc|].
  intros p k Hk. rewrite default_levels_lookup in Hk.
  destruct (loop_levels !! p) as [k'|] eqn:Hp;
    [|by destruct (decide (p ∈ order))].
  injection Hk as ->.
  destruct (Hok p (S k) Hp) as [Hz [Hall Hmax]].
  { intros E. specialize (Hz E). lia. }
  assert (∀ d, d ∈ rev_of (short_graph items) p →
            ∃ kd, loop_levels !! d = Some kd ∧ (kd ≤ k)%nat) as Hdeps.
  { intros d Hd. destruct (Hall d Hd) as [kd Hkd]. exists kd.
    split; [done|].
    pose proof (level_in_deps loop_levels _ d kd Hd Hkd). lia. }
  split.
  - intros a b Hab Ha.
    assert (short_dep (short_graph items) p (_get_short_name b)) as Hsd.
    { apply (short_dep_iff deps items Hitems). eauto. }
    destruct (Hdeps _ Hsd) as (kd & Hkd & Hle). exists kd.
    split; [|done]. unfold level_of. by rewrite default_levels_lookup, Hkd.
  - assert (rev_of (short_graph items) p ≠ []) as Hne
      by (intros E; specialize (Hz E); lia).
    assert ((λ dep, default 0 (loop_levels !! dep))
              <$> rev_of (short_graph items) p ≠ []) as Hne'.
    { intros E. by apply fmap_nil_inv in E. }
    apply max_list_elem_of in Hne'.
    apply list_elem_of_fmap in Hne' as (d & Hd & Hin).
    apply (short_dep_iff deps items Hitems) in Hin as Hab.
    destruct Hab as (a & b & Hab & Ha & Hb).
    exists a, b. split_and!; try done.
    unfold level_of. rewrite Hb, default_levels_lookup.
    destruct (Hall d Hin) as [kd Hkd]. rewrite Hkd in Hd |- *.
    simpl in Hd. f_equal. lia.
Qed.


(** X9. The nodes, the levels and [max_level] that
    [_calculate_dependency_levels] returns do not depend on the order in
    which the dictionary and the sets are enumerated; the list of
    relationships holds the same pairs, possibly in another order.  This
    holds on every relation, cycles included. *)
Theorem levels_do_not_depend_on_iteration_order
    (items1 items2 : list (string * list string))
    (order1 order2 : list string) (fuel1 fuel2 : nat) :
  items_of deps items1 → items_of deps items2 →
  iteration_of (short_nodes items1) order1 →
  iteration_of (short_nodes items2) order2 →
  size (short_nodes items1) < fuel1 →
  size (short_nodes items2) < fuel2 →
  ∃ nodes relationships1 relationships2 levels max_level,
    _calculate_dependency_levels fuel1 items1 order1
      = Some (nodes, relationships1, levels, max_level) ∧
    _calculate_dependency_levels fuel2 items2 order2
      = Some (nodes, relationships2, levels, max_level) ∧
    ∀ pair, pair ∈ relationships1 ↔ pair ∈ relationships2.
Proof.
  intros Hi1 Hi2 Ho1 Ho2 Hf1 Hf2.
  destruct (calculate_returns deps items1 order1 fuel1 Hi1 Ho1 Hf1)
    as (lv1 & _ & Hok1 & Hset1 & Hdom1 & Hcalc1).
  destruct (calculate_returns deps items2 order2 fuel2 Hi2 Ho2 Hf2)
    as (lv2 & _ & Hok2 & Hset2 & Hdom2 & Hcalc2).
  assert (short_nodes items1 = short_nodes items2) as Hnodes.
  { apply set_eq. intros n.
    by rewrite (elem_of_nodes deps items1 Hi1),
      (elem_of_nodes deps items2 Hi2). }
  assert (lv1 = lv2) as Hlv.
  { apply (loop_levels_agree (short_graph items1) (short_graph items2)
             (short_nodes items1) order1 order2); try done.
    - intros n d. change (short_dep (short_graph items1) n d
                          ↔ short_dep (short_graph items2) n d).
      by rewrite (short_dep_iff deps items1 Hi1),
        (short_dep_iff deps items2 Hi2).
    - intros n. apply Ho1.
    - intros n Hn. apply Ho2. by rewrite <- Hnodes.
    - by rewrite Hnodes. }
  assert (default_levels order1 lv1 = default_levels order2 lv2) as Hdef.
  { apply map_eq. intros n. rewrite !default_levels_lookup, Hlv.
    destruct (lv2 !! n); [done|].
    destruct (decide (n ∈ order1)) as [H1|H1],
             (decide (n ∈ order2)) as [H2|H2]; try done; exfalso.
    - apply H2, Ho2. rewrite <- Hnodes. by apply Ho1.
    - apply H1, Ho1. rewrite Hnodes. by apply Ho2. }
  eexists _, _, _, _, _. split; [exact Hcalc1|].
  split.
  - rewrite Hcalc2, Hnodes, Hdef. done.
  - intros [d p].
    by rewrite (elem_of_rels deps items1 Hi1), (elem_of_rels deps items2 Hi2).
Qed.


(** X28. Every level that
    [_calculate_dependency_levels] gives is smaller than the number of
    nodes, and so is [max_level] when there is a node: a name at level [k]
    rests on a chain of [k + 1] different names. *)
Theorem levels_stay_below_number_of_nodes
    (items : list (string * list string)) (order : list string)
    (fuel : nat) :
  items_of deps items →
  iteration_of (short_nodes items) order →
  size (short_nodes items) < fuel →
  ∃ nodes relationships levels max_level,
    _calculate_dependency_levels fuel items order
      = Some (nodes, relationships, levels, max_level) ∧
    (∀ n k, levels !! n = Some k → (k < size nodes)%nat) ∧
    (nodes ≠ ∅ → (max_level < size nodes)%nat).
Proof.
  intros Hitems Hit Hfuel.
  destruct (calculate_returns deps items order fuel Hitems Hit Hfuel)
    as (loop_levels & _ & Hok & Hset & Hdom & Hcalc).
  eexists _, _, _, _. split; [exact Hcalc|].
  assert (∀ n k, default_levels order loop_levels !! n = Some k →
            (k < size (short_nodes items))%nat) as Hlt.
  { intros n k. rewrite default_levels_lookup.
    destruct (loop_levels !! n) as [k'|] eqn:Hn.
    - intros [= <-].
      destruct (level_chain _ _ Hok k' n Hn) as (l & Hlen & Hnd & Hl).
      assert (length l ≤ size (short_nodes items))%nat; [|lia].
      unfold size, set_size. simpl. apply submseteq_length.
      apply NoDup_submseteq; [done|]. intros x Hx.
      apply elem_of_elements, Hdom.
      destruct (Hl x Hx) as (j & _ & Hj). apply elem_of_dom. by exists j.
    - destruct (decide (n ∈ order)) as [Hin|]; [|done]. intros [= <-].
      apply Hit in Hin.
      assert (size (short_nodes items) ≠ 0)%nat; [|lia].
      intros E%size_empty_iff. rewrite E in Hin.
      by apply elem_of_empty in Hin. }
  split; [exact Hlt|].
  intros Hne.
  set (levels := default_levels order loop_levels) in *.
  destruct (decide ((map_to_list levels).*2 = [])) as [Hnil|Hnil].
  - rewrite Hnil. simpl.
    assert (size (short_nodes items) ≠ 0)%nat; [|lia].
    intros E%size_empty_iff. apply Hne. by apply leibniz_equiv.
  - apply max_list_elem_of in Hnil.
    apply list_elem_of_fmap in Hnil as ([n k] & Hk & Hin).
    apply elem_of_map_to_list in Hin. simpl in Hk. rewrite Hk.
    by apply (Hlt n).
Qed.

End graph.

Lemma every_node_gets_a_level_witness :
  ∃ nodes relationships levels max_level,
    _calculate_dependency_levels 4 (items_in_order family_uris)
      (elements (short_nodes (items_in_order family_uris)))
      = Some (nodes, relationships, levels, max_level) ∧
    (∀ n, n ∈ nodes ↔
       ∃ a, a ∈ all_nodes family_uris ∧ _get_short_name a = n) ∧
    (∀ d p, (d, p) ∈ relationships ↔
       ∃ a b, depends_on family_uris a b ∧
              _get_short_name a = p ∧ _get_short_name b = d) ∧
    dom levels = nodes ∧
    (∀ n k, levels !! n = Some k → (k ≤ max_level)%nat) ∧
    (nodes ≠ ∅ → ∃ n, levels !! n = Some max_level).
Proof.
  apply (every_node_gets_a_level family_uris).
  - apply LevelClaims.items_in_order_ok.
  - apply iteration_of_elements.
  - vm_compute. lia.
Defined.

Lemma positive_level_is_one_more_than_dependencies_witness :
  ∃ nodes relationships levels max_level,
    _calculate_dependency_levels 4 (items_in_order family_uris)
      (elements (short_nodes (items_in_order family_uris)))
      = Some (nodes, relationships, levels, max_level) ∧
    ∀ p k, levels !! p = Some (S k) →
      (∀ a b, depends_on family_uris a b → _get_short_name a = p →
         ∃ kb, level_of levels b = Some kb ∧ (kb ≤ k)%nat) ∧
      (∃ a b, depends_on family_uris a b ∧ _get_short_name a = p ∧
              level_of levels b = Some k).
Proof.
  apply (positive_level_is_one_more_than_dependencies family_uris).
  - apply LevelClaims.items_in_order_ok.
  - apply iteration_of_elements.
  - vm_compute. lia.
Defined.

Lemma levels_do_not_depend_on_iteration_order_witness :
  ∃ nodes relationships1 relationships2 levels max_level,
    _calculate_dependency_levels 4 (items_in_order family_uris)
      ["grandparentOf"; "siblingOf"; "parentOf"]
      = Some (nodes, relationships1, levels, max_level) ∧
    _calculate_dependency_levels 5 (items_in_order family_uris)
      ["parentOf"; "siblingOf"; "grandparentOf"]
      = Some (nodes, relationships2, levels, max_level) ∧
    ∀ pair, pair ∈ relationships1 ↔ pair ∈ relationships2.
Proof.
  apply (levels_do_not_depend_on_iteration_order family_uris).
  - apply LevelClaims.items_in_order_ok.
  - apply LevelClaims.items_in_order_ok.
  - apply iteration_of_list; by_compute.
  - apply iteration_of_list; by_compute.
  - vm_compute. lia.
  - vm_compute. lia.
Defined.

Lemma levels_stay_below_number_of_nodes_witness :
  ∃ nodes relationships levels max_level,
    _calculate_dependency_levels 4 (items_in_order family_uris)
      (elements (short_nodes (items_in_order family_uris)))
      = Some (nodes, relationships, levels, max_level) ∧
    (∀ n k, levels !! n = Some k → (k < size nodes)%nat) ∧
    (nodes ≠ ∅ → (max_level < size nodes)%nat).
Proof.
  apply (levels_stay_below_number_of_nodes family_uris).
  - apply LevelClaims.items_in_order_ok.
  - apply iteration_of_elements.
  - vm_compute. lia.
Defined.

End LevelProps.

(** ** The file of ordered relationships *)

Module ReportProps.
Import Py PyFacts Levels Report.

Section report.
Variable dependency_levels : gmap string nat.

Lemma by_level_lookup relationships k :
  relationships_by_level relationships dependency_levels !! k
  = match filter (λ rel, rel_level dependency_levels rel = k) relationships with
    | [] => None
    | l => Some l
    end.
Proof.
  unfold relationships_by_level.
  induction relationships as [|rel rels IH] using rev_ind; [done|].
  rewrite foldl_app, filter_app. simpl. unfold group_step at 1.
  destruct (decide (rel_level dependency_levels rel = k)) as [<-|Hne].
  - rewrite lookup_insert_eq, IH. rewrite filter_cons_True by done.
    rewrite filter_nil.
    by destruct (filter _ rels).
  - rewrite lookup_insert_ne by done. rewrite IH.
    rewrite filter_cons_False by done. rewrite filter_nil.
    by rewrite app_nil_r.
Qed.

Lemma by_level_default relationships k :
  default [] (relationships_by_level relationships dependency_levels !! k)
  = filter (λ rel, rel_level dependency_levels rel = k) relationships.
Proof. rewrite by_level_lookup. by destruct (filter _ _). Qed.

Lemma by_level_keys relationships k :
  k ∈ (map_to_list
         (relationships_by_level relationships dependency_levels)).*1 ↔
  ∃ rel, rel ∈ relationships ∧ rel_level dependency_levels rel = k.
Proof.
  rewrite list_elem_of_fmap. split.
  - intros ([k' l] & -> & Hin). apply elem_of_map_to_list in Hin.
    rewrite by_level_lookup in Hin. simpl.
    destruct (filter _ relationships) as [|rel l'] eqn:E; [done|].
    assert (rel ∈ filter (λ rel, rel_level dependency_levels rel = k')
                    relationships) as Hf by (rewrite E; left).
    apply list_elem_of_filter in Hf as [? ?]. by exists rel.
  - intros (rel & Hin & Hk).
    assert (rel ∈ filter (λ rel, rel_level dependency_levels rel = k)
                    relationships) as Hf
      by by apply list_elem_of_filter.
    destruct (filter (λ rel, rel_level dependency_levels rel = k)
                relationships) as [|r l] eqn:E;
      [by apply elem_of_nil in Hf|].
    exists (k, r :: l). split; [done|]. apply elem_of_map_to_list.
    by rewrite by_level_lookup, E.
Qed.

Lemma entries_app l1 l2 : entries (l1 ++ l2) = entries l1 ++ entries l2.
Proof. unfold entries. apply omap_app. Qed.

Lemma headings_app l1 l2 : headings (l1 ++ l2) = headings l1 ++ headings l2.
Proof. unfold headings. apply omap_app. Qed.

Lemma entries_fmap_entry (rels : list string) :
  entries ((λ rel, Entry (_get_short_name rel) rel) <$> rels) = rels.
Proof. induction rels as [|r rels IH]; [done|]. simpl. by f_equal. Qed.

Lemma headings_fmap_entry (rels : list string) :
  headings ((λ rel, Entry (_get_short_name rel) rel) <$> rels) = [].
Proof. induction rels as [|r rels IH]; [done|]. done. Qed.

Lemma entries_section by_level k :
  entries (level_section by_level k)
  = sorted_by id (default [] (by_level !! k)).
Proof.
  unfold level_section. change (entries (Heading k :: ?l)) with (entries l).
  by rewrite entries_app, entries_fmap_entry, app_nil_r.
Qed.

Lemma headings_section by_level k :
  headings (level_section by_level k) = [k].
Proof.
  unfold level_section.
  change (headings (Heading k :: ?l)) with (k :: headings l).
  by rewrite headings_app, headings_fmap_entry.
Qed.

Lemma entries_sections by_level (keys : list nat) :
  entries (keys ≫= level_section by_level)
  = keys ≫= (λ k, sorted_by id (default [] (by_level !! k))).
Proof.
  induction keys as [|k keys IH]; [done|].
  rewrite !bind_cons. by rewrite entries_app, entries_section, IH.
Qed.

Lemma headings_sections by_level (keys : list nat) :
  headings (keys ≫= level_section by_level) = keys.
Proof.
  induction keys as [|k keys IH]; [done|].
  rewrite !bind_cons. by rewrite headings_app, headings_section, IH.
Qed.

Lemma entries_under_app cur l1 l2 :
  entries_under cur (l1 ++ l2)
  = entries_under cur l1
    ++ entries_under (default cur (Some <$> last (headings l1))) l2.
Proof.
  revert cur. induction l1 as [|x l1 IH]; intros cur; [done|].
  destruct x; simpl; rewrite ?IH; try done.
  f_equal. f_equal. change (headings (Heading level :: l1))
    with (level :: headings l1).
  destruct (headings l1) as [|h hs] eqn:E; [done|].
  rewrite last_cons_cons.
  destruct (last (h :: hs)) eqn:E2; [done|]. by apply last_None in E2.
Qed.

Lemma entries_under_section cur by_level k :
  entries_under cur (level_section by_level k)
  = (λ rel, (Some k, rel)) <$> sorted_by id (default [] (by_level !! k)).
Proof.
  unfold level_section. simpl.
  induction (sorted_by id (default [] (by_level !! k))) as [|r l IH];
    [done|]. simpl. by f_equal.
Qed.

Lemma entries_under_sections cur by_level (keys : list nat) :
  entries_under cur (keys ≫= level_section by_level)
  = keys ≫= (λ k, (λ rel, (Some k, rel))
                     <$> sorted_by id (default [] (by_level !! k))).
Proof.
  revert cur. induction keys as [|k keys IH]; intros cur; [done|].
  rewrite !bind_cons.
  rewrite entries_under_app, entries_under_section, IH. done.
Qed.

(** The groups cut the list into pieces. *)
Lemma groups_perm (keys : list nat) (relationships : list string) :
  NoDup keys →
  (∀ rel, rel ∈ relationships → rel_level dependency_levels rel ∈ keys) →
  keys ≫= (λ k, filter (λ rel, rel_level dependency_levels rel = k)
                   relationships)
  ≡ₚ relationships.
Proof.
  intros Hnd. induction relationships as [|rel rels IH]; intros Hcover.
  - clear. induction keys as [|k keys IHk]; [done|]. simpl. apply IHk.
  - assert (rel_level dependency_levels rel ∈ keys) as Hk
      by (apply Hcover; left).
    apply list_elem_of_split in Hk as (p & q & Hkeys).
    assert (∀ ks, rel_level dependency_levels rel ∉ ks →
              ks ≫= (λ k, filter (λ rel, rel_level dependency_levels rel = k)
                            (rel :: rels))
              = ks ≫= (λ k, filter (λ rel, rel_level dependency_levels rel = k)
                              rels)) as Hother.
    { intros ks Hks. induction ks as [|k ks IHk]; [done|].
      apply not_elem_of_cons in Hks as [Hne Hks]. rewrite !bind_cons.
      rewrite filter_cons_False by done. by rewrite IHk. }
    rewrite Hkeys in Hnd. apply NoDup_app in Hnd as (_ & Hp & Hq).
    apply NoDup_cons in Hq as [Hq _].
    transitivity
      (rel :: (keys ≫= (λ k, filter (λ rel, rel_level dependency_levels rel = k)
                               rels))).
    2:{ constructor. apply IH. intros r Hr. apply Hcover. by right. }
    rewrite Hkeys, !bind_app, !bind_cons.
    rewrite filter_cons_True by done.
    rewrite (Hother p), (Hother q); [|done|].
    + rewrite <- app_comm_cons. symmetry. apply Permutation_middle.
    + intros Hin. by apply (Hp _ Hin); left.
Qed.

Lemma bind_perm_ext {A B} (f g : A → list B) (l : list A) :
  (∀ x, f x ≡ₚ g x) → l ≫= f ≡ₚ l ≫= g.
Proof.
  intros H. induction l as [|x l IH]; [done|]. simpl. by rewrite H, IH.
Qed.

Lemma nat_leb_total (a b : nat) : Nat.leb a b = true ∨ Nat.leb b a = true.
Proof.
  destruct (Nat.leb_spec a b); [by left|]. right. apply Nat.leb_le. lia.
Qed.

Lemma sorted_keys_lt (l : list nat) :
  NoDup l → Sorted (key_le Nat.leb id) l → Sorted lt l.
Proof.
  intros Hnd Hs. induction Hs as [|a l Hs IH Hhd]; [constructor|].
  apply NoDup_cons in Hnd as [Ha Hnd]. constructor; [by apply IH|].
  destruct Hhd as [|b l Hab]; constructor.
  unfold key_le in Hab. simpl in Hab. apply Nat.leb_le in Hab.
  assert (a ≠ b) by (intros ->; apply Ha; left). lia.
Qed.

(** X10. [write_ordered_relationships] writes every relationship
    it is given exactly once (as often as it occurs in the list); the level
    headings are strictly increasing and are exactly the levels that some
    relationship has, so no section is empty; and each relationship stands
    under the heading of its own level, level 0 when its short name has no
    entry in [dependency_levels]. *)
Theorem write_ordered_relationships_sections (relationships : list string) :
  let file := write_ordered_relationships relationships dependency_levels in
  entries file ≡ₚ relationships ∧
  Sorted lt (headings file) ∧
  (∀ level, level ∈ headings file ↔
     ∃ rel, rel ∈ relationships ∧
            rel_level dependency_levels rel = level) ∧
  ∀ heading rel, (heading, rel) ∈ entries_under None file →
    heading = Some (rel_level dependency_levels rel).
Proof.
  intros file. unfold file, write_ordered_relationships.
  set (by_level := relationships_by_level relationships dependency_levels).
  set (keys := sorted_with Nat.leb id (map_to_list by_level).*1).
  assert (keys ≡ₚ (map_to_list by_level).*1) as Hperm
    by apply sorted_with_perm.
  assert (NoDup keys) as Hnd.
  { rewrite Hperm. apply NoDup_fst_map_to_list. }
  assert (∀ k, k ∈ keys ↔
            ∃ rel, rel ∈ relationships ∧
                   rel_level dependency_levels rel = k) as Hkeys.
  { intros k. rewrite Hperm. apply by_level_keys. }
  rewrite entries_app, headings_app, entries_under_app.
  rewrite entries_sections, headings_sections, entries_under_sections.
  simpl. split_and!.
  - rewrite (bind_perm_ext _
               (λ k, filter (λ rel, rel_level dependency_levels rel = k)
                       relationships)).
    + apply groups_perm; [done|]. intros rel Hrel. apply Hkeys. eauto.
    + intros k. rewrite sorted_by_perm. unfold by_level.
      by rewrite by_level_default.
  - apply sorted_keys_lt; [done|].
    apply sorted_with_sorted, nat_leb_total.
  - done.
  - intros heading rel (k & Hin & Hk)%list_elem_of_bind.
    apply list_elem_of_fmap in Hin as (rel' & [= -> ->] & Hin).
    f_equal. rewrite sorted_by_perm in Hin. unfold by_level in Hin.
    rewrite by_level_default in Hin.
    by apply list_elem_of_filter in Hin as [? _].
Qed.


Lemma sorted_lt_after (p q : list nat) (y z : nat) :
  StronglySorted lt (p ++ y :: q) → z ∈ q → (y < z)%nat.
Proof.
  induction p as [|a p IH]; simpl; intros Hs Hz.
  - apply StronglySorted_inv in Hs as [_ Hall].
    rewrite Forall_forall in Hall. by apply Hall.
  - apply StronglySorted_inv in Hs as [Hs _]. by apply IH.
Qed.

Lemma sorted_lt_split (keys : list nat) (x y : nat) :
  Sorted lt keys → x ∈ keys → y ∈ keys → (x < y)%nat →
  ∃ k1 k2 k3, keys = k1 ++ x :: k2 ++ y :: k3.
Proof.
  intros Hs Hx Hy Hlt.
  apply Sorted_StronglySorted in Hs; [|intros ???; lia].
  apply list_elem_of_split in Hy as (p & q & ->).
  apply elem_of_app in Hx as [Hx|Hx].
  - apply list_elem_of_split in Hx as (k1 & k2 & ->).
    exists k1, k2, q. by rewrite <- app_assoc.
  - apply elem_of_cons in Hx as [->|Hx]; [lia|].
    pose proof (sorted_lt_after p q y x Hs Hx). lia.
Qed.

(** What [write_ordered_relationships] writes, level by level. *)
Lemma entries_written (relationships : list string) :
  ∃ keys,
    Sorted lt keys ∧
    (∀ k, k ∈ keys ↔
       ∃ rel, rel ∈ relationships ∧ rel_level dependency_levels rel = k) ∧
    entries (write_ordered_relationships relationships dependency_levels)
    = keys ≫= (λ k, sorted_by id
                      (filter (λ rel, rel_level dependency_levels rel = k)
                         relationships)).
Proof.
  unfold write_ordered_relationships.
  set (by_level := relationships_by_level relationships dependency_levels).
  set (keys := sorted_with Nat.leb id (map_to_list by_level).*1).
  assert (keys ≡ₚ (map_to_list by_level).*1) as Hperm
    by apply sorted_with_perm.
  exists keys. split_and!.
  - apply sorted_keys_lt.
    + rewrite Hperm. apply NoDup_fst_map_to_list.
    + apply sorted_with_sorted, nat_leb_total.
  - intros k. rewrite Hperm. apply by_level_keys.
  - rewrite entries_app, entries_sections. simpl.
    clear Hperm. induction keys as [|k keys IH]; [done|].
    rewrite !bind_cons, IH. unfold by_level. by rewrite by_level_default.
Qed.

(** A relationship of a lower level is written before one of a higher
    level. *)
Lemma written_before (relationships : list string)
    (a b : string) :
  a ∈ relationships → b ∈ relationships →
  (rel_level dependency_levels b < rel_level dependency_levels a)%nat →
  before
    (entries (write_ordered_relationships relationships dependency_levels))
    b a.
Proof.
  intros Ha Hb Hlt.
  destruct (entries_written relationships) as (keys & Hs & Hkeys & ->).
  destruct (sorted_lt_split keys (rel_level dependency_levels b)
              (rel_level dependency_levels a) Hs)
    as (k1 & k2 & k3 & ->); [| |done|].
  { apply Hkeys. by exists b. }
  { apply Hkeys. by exists a. }
  assert (∀ x, x ∈ relationships →
            ∃ s1 s2,
              sorted_by id
                (filter (λ rel, rel_level dependency_levels rel
                                = rel_level dependency_levels x)
                   relationships) = s1 ++ x :: s2) as Hsplit.
  { intros x Hx. apply list_elem_of_split. rewrite sorted_by_perm.
    by apply list_elem_of_filter. }
  destruct (Hsplit b Hb) as (s1 & s2 & Hbs).
  destruct (Hsplit a Ha) as (t1 & t2 & Has).
  rewrite bind_app, bind_cons, bind_app, bind_cons, Hbs, Has.
  match goal with
  | |- before ((?A ++ _) ++ (_ ++ (?B ++ _) ++ _ ++ ?C)) _ _ =>
      exists (A ++ s1), (s2 ++ B ++ t1), (t2 ++ C)
  | |- before (?A ++ _ ++ ?B ++ _ ++ ?C) _ _ =>
      exists (A ++ s1), (s2 ++ B ++ t1), (t2 ++ C)
  end.
  by simplify_list_eq.
Qed.


Lemma written_entries_perm (relationships : list string) :
  entries (write_ordered_relationships relationships dependency_levels)
  ≡ₚ relationships.
Proof.
  destruct (entries_written relationships) as (keys & Hs & Hkeys & ->).
  rewrite (bind_perm_ext _
             (λ k, filter (λ rel, rel_level dependency_levels rel = k)
                     relationships)).
  - apply groups_perm.
    + apply Sorted_StronglySorted in Hs; [|intros ???; lia].
      clear Hkeys. induction Hs as [|k keys Hs IH Hall]; constructor;
        [|done].
      intros Hin. rewrite Forall_forall in Hall. specialize (Hall k Hin). lia.
    + intros rel Hrel. apply Hkeys. eauto.
  - intros k. apply sorted_by_perm.
Qed.

End report.
End ReportProps.

(** ** From the ontology to the file *)

Module PipelineProps.
Import Py PyFacts Analyzer AnalyzerFacts Levels LevelsFacts GraphFacts.
Import Report ReportProps Examples.

(** Without cycles and with one short name per identifier, a dependency
    has a lower level than the relation that depends on it. *)
Lemma acyclic_levels_strict (deps : gmap string (gset string))
    (items : list (string * list string)) (order : list string)
    (fuel : nat) :
  acyclic deps →
  (∀ a b, a ∈ all_nodes deps → b ∈ all_nodes deps →
          _get_short_name a = _get_short_name b → a = b) →
  items_of deps items →
  iteration_of (short_nodes items) order →
  size (short_nodes items) < fuel →
  ∃ nodes relationships levels max_level,
    _calculate_dependency_levels fuel items order
      = Some (nodes, relationships, levels, max_level) ∧
    ∀ a b, depends_on deps a b →
      (rel_level levels b < rel_level levels a)%nat.
Proof.
  intros Hac Hinj Hitems Hit Hfuel.
  destruct (calculate_returns deps items order fuel Hitems Hit Hfuel)
    as (loop_levels & _ & Hok & Hset & _ & Hcalc).
  set (rev_graph := (short_graph items)) in *.
  eexists _, _, _, _. split; [exact Hcalc|].
  assert (∀ n, n ∈ all_nodes deps →
            is_Some (loop_levels !! _get_short_name n)) as Hall.
  { intros n Hn.
    apply (settled_complete rev_graph (short_nodes items) order).
    - intros node. apply Hit.
    - intros a b. by apply (short_dep_nodes deps items Hitems).
    - intros x Hx.
      assert (x ∈ (short_nodes items)) as Hxn.
      { apply tc_rtc_l with (x := x) in Hx; [|done].
        clear -Hx Hitems.
        induction Hx as [x y Hxy|x y z Hxy _ IH]; [|done].
        by apply (short_dep_nodes deps items Hitems) in Hxy. }
      apply (elem_of_nodes deps items Hitems) in Hxn as (a & Ha & Hax).
      destruct (short_path_inv deps items Hitems x x Hinj Hx a Ha Hax)
        as (b & Hb & Hab).
      assert (b = a) as ->.
      { apply Hinj; [|done|congruence].
        apply tc_rtc_r with (z := b) in Hab; [|done].
        clear -Hab. induction Hab as [x y Hxy|x y z Hxy _ IH]; [|done].
        by apply depends_on_nodes in Hxy as [_ ?]. }
      by apply (Hac a).
    - done.
    - apply (elem_of_nodes deps items Hitems). eauto. }
  intros a b Hab.
  destruct (Hall a) as [ka Hka]; [by apply depends_on_nodes in Hab as [? _]|].
  assert (short_dep rev_graph (_get_short_name a) (_get_short_name b))
    as Hsd by (apply (short_dep_iff deps items Hitems); eauto).
  destruct (level_ok_edge rev_graph _ _ _ _ Hok Hka Hsd) as (kb & Hkb & Hlt).
  unfold rel_level. rewrite !default_levels_lookup, Hka, Hkb. done.
Qed.

(** X11. What [main] writes to the file of ordered relationships,
    on an acyclic relation in which no two identifiers share a short name:
    the sort and the level computation both return, the file lists every
    node exactly once, and every relationship is listed after all the
    relationships it depends on. *)
Theorem order_file_lists_dependencies_first
    (deps : gmap string (gset string)) (self : analyzer)
    (sort_order : list string) (sort_fuel : nat)
    (items : list (string * list string)) (order : list string)
    (fuel : nat) :
  acyclic deps →
  (∀ a b, a ∈ all_nodes deps → b ∈ all_nodes deps →
          _get_short_name a = _get_short_name b → a = b) →
  dependencies self = deps →
  temp_marked self = ∅ →
  iteration_of (all_nodes deps) sort_order →
  size (all_nodes deps) < sort_fuel →
  items_of deps items →
  iteration_of (short_nodes items) order →
  size (short_nodes items) < fuel →
  ∃ sorted_rels self' nodes relationships dependency_levels max_level,
    topological_sort sort_fuel sort_order self
      = Returned sorted_rels self' ∧
    _calculate_dependency_levels fuel items order
      = Some (nodes, relationships, dependency_levels, max_level) ∧
    let file := write_ordered_relationships sorted_rels dependency_levels in
    NoDup (entries file) ∧
    (∀ x, x ∈ entries file ↔ x ∈ all_nodes deps) ∧
    ∀ a b, depends_on deps a b → before (entries file) b a.
Proof.
  intros Hac Hinj Hdeps Hmarks Hso Hsf Hitems Hit Hfuel. subst deps.
  destruct (topological_sort sort_fuel sort_order self)
    as [out self'|m self'|] eqn:Hsort.
  - destruct (topological_sort_returned _ _ _ _ _ Hso Hsort)
      as (Hnd & Hmem & _ & _).
    destruct (acyclic_levels_strict _ items order fuel Hac Hinj Hitems Hit
                Hfuel) as (nodes & rels & levels & max_level & Hcalc & Hlt).
    exists out, self', nodes, rels, levels, max_level.
    split; [done|]. split; [done|]. simpl.
    pose proof (written_entries_perm levels out) as Hperm.
    split_and!.
    + by rewrite Hperm.
    + intros x. by rewrite Hperm.
    + intros a b Hab. apply written_before.
      * apply Hmem. by apply depends_on_nodes in Hab as [? _].
      * apply Hmem. by apply depends_on_nodes in Hab as [_ ?].
      * by apply Hlt.
  - by apply topological_sort_no_raise in Hsort.
  - by apply topological_sort_fuel in Hsort.
Qed.

Lemma order_file_lists_dependencies_first_witness :
  ∃ sorted_rels self' nodes relationships dependency_levels max_level,
    topological_sort 4 (elements (all_nodes family_uris)) (init family_uris)
      = Returned sorted_rels self' ∧
    _calculate_dependency_levels 4 (items_in_order family_uris)
      (elements (short_nodes (items_in_order family_uris)))
      = Some (nodes, relationships, dependency_levels, max_level) ∧
    let file := write_ordered_relationships sorted_rels dependency_levels in
    NoDup (entries file) ∧
    (∀ x, x ∈ entries file ↔ x ∈ all_nodes family_uris) ∧
    ∀ a b, depends_on family_uris a b → before (entries file) b a.
Proof.
  apply (order_file_lists_dependencies_first family_uris).
  - exact LevelClaims.family_uris_acyclic.
  - apply LevelClaims.distinct_short_names. by_compute.
  - reflexivity.
  - reflexivity.
  - apply iteration_of_elements.
  - vm_compute. lia.
  - apply LevelClaims.items_in_order_ok.
  - apply iteration_of_elements.
  - vm_compute. lia.
Defined.

End PipelineProps.

(** ** Normalising and comparing rows *)

Module CompareProps.
Import Py PyFacts ReprFacts KeyFacts Runner PlainText.

(** X15. The comparison of [run_test] accepts only
    rearrangements: when it judges two lists of rows equal they hold the
    same rows, each as many times in one as in the other. *)
Theorem results_match_only_rearrangements
    (actual expected : list (gmap string value)) :
  results_match actual expected = true → actual ≡ₚ expected.
Proof.
  unfold results_match. intros Heq%bool_decide_eq_true.
  rewrite <- (sorted_by_perm row_key actual), Heq.
  apply sorted_by_perm.
Qed.

Lemma results_match_only_rearrangements_witness :
  [ ({[ "x" := VStr ":Bob" ]} : gmap string value); {[ "x" := VStr ":Alice" ]} ]
  ≡ₚ [ {[ "x" := VStr ":Alice" ]}; {[ "x" := VStr ":Bob" ]} ].
Proof.
  apply results_match_only_rearrangements. by_compute.
Defined.

(** X14. On rows whose keys and values are in ASCII, the sort key of
    [run_test], the string form of the sorted items of a row, is the same
    for two rows only when the rows are equal. *)
Theorem row_key_tells_rows_apart (x y : gmap string value) :
  ascii_row x → ascii_row y → row_key x = row_key y → x = y.
Proof.
  unfold row_key. intros _ _ Hkey.
  apply sorted_items_inj. by apply repr_items_inj.
Qed.

Lemma row_key_tells_rows_apart_witness :
  ({[ "a" := VStr "it's"; "b" := VBool true ]} : gmap string value)
  = {[ "b" := VBool true; "a" := VStr "it's" ]}.
Proof.
  apply row_key_tells_rows_apart; by_compute.
Defined.

(** The comparison of [run_test] accepts the rearrangements and nothing
    else. *)
Lemma results_match_perm_iff (actual expected : list (gmap string value)) :
  results_match actual expected = true ↔ actual ≡ₚ expected.
Proof.
  unfold results_match. rewrite bool_decide_eq_true. split.
  - intros Heq. rewrite <- (sorted_by_perm row_key actual), Heq.
    apply sorted_by_perm.
  - intros Hperm. apply sorted_by_perm_eq; [apply row_key_inj|done].
Qed.

Lemma base_namespace_hash t :
  contains base_namespace t = true → has_char "#" t = true.
Proof.
  intros (pre & post & ->)%contains_spec.
  rewrite !has_char_append. apply orb_true_iff. right.
  apply orb_true_iff. by left.
Qed.

Lemma normalize_value_idemp v :
  normalize_value (normalize_value v) = normalize_value v.
Proof.
  unfold normalize_value. cbn [str].
  destruct (contains base_namespace (str v)) eqn:E.
  - destruct (contains base_namespace (String.append ":" _)) eqn:E'; [|done].
    apply base_namespace_hash in E'.
    rewrite has_char_append, last_split_no_sep in E'. done.
  - by rewrite E.
Qed.

(** X12. [normalize_results] is idempotent: normalising rows that
    have been normalised changes nothing. *)
Theorem normalize_results_idempotent (results : list (gmap string value)) :
  normalize_results (normalize_results results) = normalize_results results.
Proof.
  destruct results as [|row0 rest]; [done|].
  unfold normalize_results at 2.
  destruct (Nat.eqb _ 1 && _) eqn:E.
  - unfold normalize_results. by rewrite E.
  - rewrite fmap_cons. unfold normalize_results.
    rewrite <- fmap_cons, length_fmap.
    replace (bool_decide (is_Some ((normalize_value <$> row0) !! "result")))
      with (bool_decide (is_Some (row0 !! "result"))).
    2:{ apply bool_decide_ext. rewrite lookup_fmap. by rewrite fmap_is_Some. }
    rewrite E. rewrite <- list_fmap_compose. apply list_fmap_ext.
    intros _ row _. simpl. rewrite <- map_fmap_compose. apply map_fmap_ext.
    intros _ v _. apply normalize_value_idemp.
Qed.

(** X13. [_ensure_prefix] only ever puts text in front of the query; its
    result always contains [PREFIX :]; and applied to its own result it
    changes nothing, so the declaration is never added twice. *)
Theorem ensure_prefix_once (query : string) :
  contains "PREFIX :" (_ensure_prefix query) = true ∧
  (∃ pre, _ensure_prefix query = String.append pre query) ∧
  _ensure_prefix (_ensure_prefix query) = _ensure_prefix query.
Proof.
  assert (∀ q, contains "PREFIX : <http://example.org/family#>" q = true →
               contains "PREFIX :" q = true) as Hsub.
  { intros q (pre & post & ->)%contains_spec. apply contains_spec.
    exists pre, (String.append " <http://example.org/family#>" post).
    f_equal. }
  assert (_ensure_prefix query
          = if negb (contains "PREFIX : <http://example.org/family#>" query)
               && negb (contains "PREFIX :" query)
            then String.append "PREFIX : <http://example.org/family#>"
                   (String "010" query)
            else query) as -> by done.
  destruct (negb _ && negb _) eqn:E.
  - assert (contains "PREFIX : <http://example.org/family#>"
              (String.append "PREFIX : <http://example.org/family#>"
                 (String "010" query)) = true) as Hc.
    { apply contains_spec. by exists EmptyString, (String "010" query). }
    split_and!.
    + by apply Hsub.
    + exists (String.append "PREFIX : <http://example.org/family#>"
                (String "010" EmptyString)).
      by rewrite append_assoc, append_cons.
    + unfold _ensure_prefix. by rewrite Hc.
  - split_and!.
    + apply andb_false_iff in E as [E|E]; apply negb_false_iff in E; auto.
    + by exists EmptyString.
    + unfold _ensure_prefix. by rewrite E.
Qed.

End CompareProps.

(** ** Running tests *)

Module RunProps.
Import Py PyFacts Runner RunnerFacts Trace Examples Samples.
Import PlainText CompareProps.

Lemma headers_app evs1 evs2 :
  headers (evs1 ++ evs2) = headers evs1 ++ headers evs2.
Proof. unfold headers. apply omap_app. Qed.

Lemma tuple_leb_total xs ys :
  tuple_leb xs ys = true ∨ tuple_leb ys xs = true.
Proof.
  revert ys. induction xs as [|x xs IH]; intros [|y ys]; simpl; auto.
  destruct (Z.ltb_spec x y), (Z.ltb_spec y x); auto; lia.
Qed.

Section runner.
Context {Store : Type} `{!Backend Store}.
Variable int_of_str : string → option Z.
Variable tests : gmap string test_case.

Lemma run_test_details test_id tc (w : world (Store:=Store)) :
  ∃ b d w',
    run_test test_id tc w = Ok b w' ∧
    store w' = store w ∧
    console w' = console w ++ [TestHeader test_id; Verdict (d_status d)] ∧
    details (runner_results w')
      = <[test_id := d]> (details (runner_results w)) ∧
    d_status d = verdict_on (store w) tc.
Proof.
  unfold run_test, verdict_on, bind, print, get_store, record_outcome,
    update_results, ret. simpl.
  destruct (execute_query _ _) as [e|rows] eqn:E;
    [|destruct (results_match _ _) eqn:Em];
    eexists _, (Build_detail _ _ _ _ _), _; (split; [done|]); simpl;
    rewrite <- app_assoc; by split_and!.
Qed.

Lemma for_run_test_details to_run (w : world (Store:=Store)) :
  (∀ tid tc tc', (tid, tc) ∈ to_run → (tid, tc') ∈ to_run → tc = tc') →
  ∃ w' new,
    for_ to_run run_one w = Ok tt w' ∧
    store w' = store w ∧
    console w' = console w ++ new ∧
    headers new = to_run.*1 ∧
    (∀ tid, tid ∉ to_run.*1 →
       details (runner_results w') !! tid
       = details (runner_results w) !! tid) ∧
    (∀ tid tc, (tid, tc) ∈ to_run →
       d_status <$> details (runner_results w') !! tid
       = Some (verdict_on (store w) tc)).
Proof.
  revert w. induction to_run as [|[tid tc] to_run IH]; intros w Hfun.
  - exists w, []. simpl. rewrite app_nil_r. split_and!; try done.
    intros ?? []%elem_of_nil.
  - destruct (run_test_details tid tc w)
      as (b & d & w1 & Hrun & Hst & Hcon & Hdet & Hd).
    destruct (IH w1) as (w' & new & Hloop & Hst' & Hcon' & Hhead & Hkeep & Hin).
    { intros ??? H1 H2. eapply Hfun; by right. }
    exists w', ([TestHeader tid; Verdict (d_status d)] ++ new).
    split.
    { simpl. unfold bind at 1, run_one at 1, bind at 1. simpl.
      rewrite Hrun. unfold ret at 1. exact Hloop. }
    split_and!.
    + congruence.
    + by rewrite Hcon', Hcon, <- app_assoc.
    + rewrite headers_app, Hhead. done.
    + intros tid' Hnot. rewrite fmap_cons, not_elem_of_cons in Hnot.
      destruct Hnot as [Hne Hnot]. simpl in Hne.
      rewrite (Hkeep _ Hnot), Hdet. by rewrite lookup_insert_ne.
    + intros tid' tc' [Heq|Hrest]%elem_of_cons.
      * simplify_eq. destruct (decide (tid ∈ to_run.*1)) as [Hd'|Hd'].
        -- apply list_elem_of_fmap in Hd' as ([tid2 tc2] & -> & Hd').
           simpl. rewrite <- Hst.
           assert (tc = tc2) as ->.
           { eapply (Hfun tid2); [by left|by right]. }
           by apply Hin.
        -- rewrite (Hkeep _ Hd'), Hdet, lookup_insert_eq. simpl. by f_equal.
      * rewrite <- Hst. by apply Hin.
Qed.

Lemma run_tests_details test_ids to_run (w : world (Store:=Store)) :
  tests_to_run int_of_str tests test_ids = inr to_run →
  (∀ tid tc, (tid, tc) ∈ to_run → tests !! tid = Some tc) →
  ∃ w' new,
    run_tests int_of_str tests test_ids w = Ok tt w' ∧
    store w' = store w ∧
    console w'
      = console w ++ new
          ++ [Summary (total (runner_results w'))
                (passed (runner_results w'))
                (failed (runner_results w'))] ∧
    headers new = to_run.*1 ∧
    total (runner_results w') = length to_run ∧
    (∀ tid, tid ∉ to_run.*1 →
       details (runner_results w') !! tid
       = details (runner_results w) !! tid) ∧
    (∀ tid tc, (tid, tc) ∈ to_run →
       d_status <$> details (runner_results w') !! tid
       = Some (verdict_on (store w) tc)).
Proof.
  intros Hto Hfun.
  pose proof (run_tests_spec int_of_str tests test_ids w) as Hspec.
  rewrite Hto in Hspec.
  destruct Hspec as (w2 & new2 & Hrun2 & _ & _ & _ & _ & Htot2 & _).
  destruct (for_run_test_details to_run
              {| store := store w;
                 runner_results :=
                   {| total := length to_run;
                      passed := passed (runner_results w);
                      failed := failed (runner_results w);
                      details := details (runner_results w) |};
                 console := console w |})
    as (w1 & new & Hloop & Hst & Hcon & Hhead & Hkeep & Hin).
  { intros tid tc tc' H1%Hfun H2%Hfun. congruence. }
  exists w2, new. split; [exact Hrun2|].
  revert Hrun2. unfold run_tests. rewrite Hto.
  unfold bind at 1, update_results at 1. unfold bind at 1.
  rewrite Hloop. unfold print. intros [= <-]. simpl in *.
  rewrite Hcon, <- app_assoc. by split_and!.
Qed.

(** X17. When one of the identifiers given to [run_tests] is not in
    the suite, the call raises [ValueError] before anything else happens:
    no test is run, and counters, details, store and console are
    unchanged. *)
Theorem run_tests_unknown_id (test_ids : list string) (tid : string)
    (w : world (Store:=Store)) :
  tid ∈ test_ids → tests !! tid = None →
  ∃ rest,
    run_tests int_of_str tests (Some test_ids) w
    = Raise (ValueError (String.append "Test ID(s) not found: " rest)) w.
Proof.
  intros Hin Hnone. unfold run_tests, tests_to_run.
  destruct test_ids as [|tid0 tids]; [by apply elem_of_nil in Hin|].
  destruct (filter _ (tid0 :: tids)) as [|bad bads] eqn:Ef.
  - assert (tid ∈ filter (λ tid, tests !! tid = None) (tid0 :: tids)) as Hf
      by by apply list_elem_of_filter.
    rewrite Ef in Hf. by apply elem_of_nil in Hf.
  - by eexists.
Qed.

(** X18. Given a non-empty list of identifiers of the suite,
    [run_tests] runs them in the order given, one run per occurrence, sets
    [total] to the length of the list, leaves the details of other tests as
    they were, and records for every listed test the verdict it has on the
    store, which the tests do not change. *)
Theorem run_tests_listed_order (test_ids : list string)
    (w : world (Store:=Store)) :
  test_ids ≠ [] →
  Forall (λ tid, is_Some (tests !! tid)) test_ids →
  ∃ w' new,
    run_tests int_of_str tests (Some test_ids) w = Ok tt w' ∧
    store w' = store w ∧
    console w'
      = console w ++ new
          ++ [Summary (total (runner_results w'))
                (passed (runner_results w'))
                (failed (runner_results w'))] ∧
    headers new = test_ids ∧
    total (runner_results w') = length test_ids ∧
    (∀ tid, tid ∉ test_ids →
       details (runner_results w') !! tid
       = details (runner_results w) !! tid) ∧
    (∀ tid tc, tid ∈ test_ids → tests !! tid = Some tc →
       d_status <$> details (runner_results w') !! tid
       = Some (verdict_on (store w) tc)).
Proof.
  intros Hne Hall.
  set (to_run := omap (λ tid, (λ tc, (tid, tc)) <$> tests !! tid) test_ids).
  assert (tests_to_run int_of_str tests (Some test_ids) = inr to_run) as Hto.
  { unfold tests_to_run. destruct test_ids as [|tid0 tids]; [done|].
    destruct (filter _ (tid0 :: tids)) as [|bad bads] eqn:Ef; [done|].
    assert (bad ∈ filter (λ tid, tests !! tid = None) (tid0 :: tids)) as Hf
      by (rewrite Ef; left).
    apply list_elem_of_filter in Hf as [Hnone Hin].
    rewrite Forall_forall in Hall. destruct (Hall _ Hin) as [tc Htc].
    congruence. }
  assert (∀ tid tc, (tid, tc) ∈ to_run
                    ↔ tid ∈ test_ids ∧ tests !! tid = Some tc) as Hmem.
  { intros tid tc. unfold to_run. rewrite list_elem_of_omap. split.
    - intros (tid' & Hin & Heq). destruct (tests !! tid') eqn:E; [|done].
      simpl in Heq. by simplify_eq.
    - intros [Hin Htc]. exists tid. by rewrite Htc. }
  assert (to_run.*1 = test_ids) as Hfst.
  { unfold to_run. clear -Hall. induction Hall as [|tid l [tc Htc] _ IH];
      [done|]. simpl. rewrite Htc. simpl. f_equal. exact IH. }
  destruct (run_tests_details (Some test_ids) to_run w Hto)
    as (w' & new & Hrun & Hst & Hcon & Hhead & Htot & Hkeep & Hin).
  { by intros tid tc [_ ?]%Hmem. }
  exists w', new. rewrite Hfst in *. split_and!; try done.
  - by rewrite Htot, <- Hfst, length_fmap.
  - intros tid tc H1 H2. apply Hin. by apply Hmem.
Qed.

Lemma suite_keyed keyed :
  mapM (λ item : string * test_case,
          (λ k, (k, item)) <$> id_key int_of_str item.1)
       (map_to_list tests) = Some keyed →
  snd <$> keyed = map_to_list tests ∧
  Forall (λ ki, id_key int_of_str ki.2.1 = Some ki.1) keyed.
Proof.
  intros H%mapM_Some_1. induction H as [|item ki l k Hi _ [IH1 IH2]];
    [done|].
  destruct (id_key int_of_str item.1) as [key|] eqn:E; [|done].
  simpl in Hi. simplify_eq. split; [simpl; by f_equal|].
  constructor; [done|done].
Qed.

Lemma sorted_suite (keyed : list (list Z * (string * test_case))) :
  Forall (λ ki, id_key int_of_str ki.2.1 = Some ki.1) keyed →
  Sorted (key_le tuple_leb fst) keyed →
  Sorted (id_le int_of_str) ((snd <$> keyed).*1).
Proof.
  intros Hall Hs. induction Hs as [|ki l Hs IH Hhd]; [constructor|].
  apply Forall_cons in Hall as [Hki Hall].
  simpl. constructor; [by apply IH|].
  destruct Hhd as [|ki' l' Hle]; [constructor|].
  apply Forall_cons in Hall as [Hki' _].
  simpl. constructor. by exists ki.1, ki'.1.
Qed.

Lemma whole_suite_perm test_ids to_run :
  test_ids = None ∨ test_ids = Some [] →
  tests_to_run int_of_str tests test_ids = inr to_run →
  to_run ≡ₚ map_to_list tests.
Proof.
  intros Hids Hto.
  assert (match mapM (λ item : string * test_case,
                        (λ k, (k, item)) <$> id_key int_of_str item.1)
                     (map_to_list tests) with
          | Some keyed => inr (snd <$> sorted_with tuple_leb fst keyed)
          | None => inl (ValueError "invalid literal for int() with base 10")
          end = inr to_run) as Hm.
  { by destruct Hids as [->| ->]. }
  destruct (mapM _ _) as [keyed|] eqn:Ek; [|done].
  destruct (suite_keyed keyed Ek) as [Hsnd _].
  injection Hm as <-. by rewrite sorted_with_perm, Hsnd.
Qed.

Lemma whole_suite_to_run test_ids :
  test_ids = None ∨ test_ids = Some [] →
  (∀ tid, is_Some (tests !! tid) → is_Some (id_key int_of_str tid)) →
  ∃ to_run,
    tests_to_run int_of_str tests test_ids = inr to_run ∧
    to_run ≡ₚ map_to_list tests ∧
    Sorted (id_le int_of_str) to_run.*1.
Proof.
  intros Hids Hnum.
  destruct (mapM (λ item : string * test_case,
                    (λ k, (k, item)) <$> id_key int_of_str item.1)
                 (map_to_list tests)) as [keyed|] eqn:Ek.
  - exists (snd <$> sorted_with tuple_leb fst keyed).
    destruct (suite_keyed keyed Ek) as [Hsnd Hall].
    split_and!.
    + unfold tests_to_run. destruct Hids as [->| ->]; by rewrite Ek.
    + by rewrite sorted_with_perm, Hsnd.
    + apply sorted_suite.
      * by rewrite sorted_with_perm.
      * apply sorted_with_sorted, tuple_leb_total.
  - exfalso. assert (is_Some (mapM (λ item : string * test_case,
                    (λ k, (k, item)) <$> id_key int_of_str item.1)
                 (map_to_list tests))) as [? Hs]; [|congruence].
    apply mapM_is_Some_2, Forall_forall. intros [tid tc] Hin. simpl.
    apply elem_of_map_to_list in Hin.
    destruct (Hnum tid) as [k Hk]; [done|]. by rewrite Hk.
Qed.

(** X16. When a test passes: for a query written in ASCII, a call of
    [run_test] that returns, returns [True] exactly when the backend
    answers the query (stripped, with the prefix declaration ensured) and
    the normalised answer holds the rows of [expected], each as many times
    and in any order; and exactly then the entry of the test in [details]
    says [PASS]. *)
Theorem run_test_passes_iff_rearrangement (test_id : string)
    (tc : test_case) (w w' : world (Store:=Store)) (b : bool) :
  is_ascii (query tc) = true →
  run_test test_id tc w = Ok b w' →
  (b = true ↔
   ∃ rows,
     execute_query (store w) (_ensure_prefix (strip (query tc))) = inr rows ∧
     normalize_results rows ≡ₚ expected tc) ∧
  (b = true ↔
   d_status <$> details (runner_results w') !! test_id = Some PASS).
Proof.
  intros _. unfold run_test, bind, print, get_store, record_outcome,
    update_results, ret. simpl.
  destruct (execute_query _ _) as [e|rows] eqn:E.
  - intros [= <- <-]. simpl. rewrite lookup_insert_eq. simpl. split.
    + split; [done|]. by intros (rows & ? & _).
    + done.
  - destruct (results_match _ _) eqn:Em; intros [= <- <-]; simpl;
      rewrite lookup_insert_eq; simpl.
    + split; [|done]. split; [|done]. intros _. exists rows.
      split; [done|]. by apply results_match_perm_iff.
    + split; [|done]. split; [done|]. intros (rows' & [= <-] & Hperm).
      apply results_match_perm_iff in Hperm. congruence.
Qed.

(** X19. With [None] or an empty list, and identifiers that are all
    made of integers between dots, [run_tests] runs every test of the suite
    exactly once, in the order of the tuples of integers (so [0.2] before
    [0.10]), and sets [total] to the size of the suite. *)
Theorem run_tests_whole_suite (test_ids : option (list string))
    (w : world (Store:=Store)) :
  test_ids = None ∨ test_ids = Some [] →
  (∀ tid, is_Some (tests !! tid) → is_Some (id_key int_of_str tid)) →
  ∃ w' new,
    run_tests int_of_str tests test_ids w = Ok tt w' ∧
    store w' = store w ∧
    console w'
      = console w ++ new
          ++ [Summary (total (runner_results w'))
                (passed (runner_results w'))
                (failed (runner_results w'))] ∧
    NoDup (headers new) ∧
    (∀ tid, tid ∈ headers new ↔ is_Some (tests !! tid)) ∧
    Sorted (id_le int_of_str) (headers new) ∧
    total (runner_results w') = size tests ∧
    (∀ tid tc, tests !! tid = Some tc →
       d_status <$> details (runner_results w') !! tid
       = Some (verdict_on (store w) tc)).
Proof.
  intros Hids Hnum.
  destruct (whole_suite_to_run test_ids Hids Hnum)
    as (to_run & Hto & Hperm & Hsorted).
  assert (∀ tid tc, (tid, tc) ∈ to_run ↔ tests !! tid = Some tc) as Hmem.
  { intros tid tc. by rewrite Hperm, elem_of_map_to_list. }
  destruct (run_tests_details test_ids to_run w Hto)
    as (w' & new & Hrun & Hst & Hcon & Hhead & Htot & Hkeep & Hin).
  { intros tid tc. by rewrite Hmem. }
  exists w', new. rewrite Hhead. split_and!; try done.
  - rewrite Hperm. apply NoDup_fst_map_to_list.
  - intros tid. rewrite list_elem_of_fmap. split.
    + intros ([tid' tc] & -> & Hi). exists tc. by apply Hmem.
    + intros [tc Htc]. exists (tid, tc). split; [done|]. by apply Hmem.
  - by rewrite Htot, Hperm, length_map_to_list.
  - intros tid tc Htc. apply Hin. by apply Hmem.
Qed.

(** X20. With [None] or an empty list, [run_tests] raises
    [ValueError] without running any test as soon as one identifier of the
    suite has a part between dots that is not an integer. *)
Theorem run_tests_non_numeric_id (test_ids : option (list string))
    (tid : string) (w : world (Store:=Store)) :
  test_ids = None ∨ test_ids = Some [] →
  is_Some (tests !! tid) → id_key int_of_str tid = None →
  ∃ message,
    run_tests int_of_str tests test_ids w = Raise (ValueError message) w.
Proof.
  intros Hids [tc Htc] Hkey.
  destruct (mapM (λ item : string * test_case,
                    (λ k, (k, item)) <$> id_key int_of_str item.1)
                 (map_to_list tests)) as [keyed|] eqn:Ek.
  - apply mk_is_Some, mapM_is_Some_1 in Ek. rewrite Forall_forall in Ek.
    destruct (Ek (tid, tc)) as [? Hk]; [by apply elem_of_map_to_list|].
    simpl in Hk. by rewrite Hkey in Hk.
  - eexists. unfold run_tests, tests_to_run.
    destruct Hids as [->| ->]; by rewrite Ek.
Qed.

End runner.

Lemma run_test_passes_iff_rearrangement_witness :
  (true = true ↔
   ∃ rows,
     execute_query (store toy_world)
       (_ensure_prefix (strip (query people_test))) = inr rows ∧
     normalize_results rows ≡ₚ expected people_test) ∧
  (true = true ↔
   d_status
     <$> details (runner_results world_after_first_test) !! "0.1"
   = Some PASS).
Proof.
  apply (run_test_passes_iff_rearrangement "0.1" people_test
           toy_world world_after_first_test true).
  - by_compute.
  - by_compute.
Defined.

Lemma run_tests_unknown_id_witness :
  ∃ rest,
    run_tests decimal toy_tests (Some ["0.1"; "9.9"]) toy_world
    = Raise (ValueError (String.append "Test ID(s) not found: " rest))
        toy_world.
Proof.
  apply (run_tests_unknown_id decimal toy_tests ["0.1"; "9.9"] "9.9").
  - by_compute.
  - reflexivity.
Defined.

Lemma run_tests_listed_order_witness :
  ∃ w' new,
    run_tests decimal toy_tests (Some ["0.2"; "1.1"; "0.2"]) toy_world
    = Ok tt w' ∧
    store w' = store toy_world ∧
    console w'
      = console toy_world ++ new
          ++ [Summary (total (runner_results w'))
                (passed (runner_results w'))
                (failed (runner_results w'))] ∧
    headers new = ["0.2"; "1.1"; "0.2"] ∧
    total (runner_results w') = length ["0.2"; "1.1"; "0.2"] ∧
    (∀ tid, tid ∉ ["0.2"; "1.1"; "0.2"] →
       details (runner_results w') !! tid
       = details (runner_results toy_world) !! tid) ∧
    (∀ tid tc, tid ∈ ["0.2"; "1.1"; "0.2"] → toy_tests !! tid = Some tc →
       d_status <$> details (runner_results w') !! tid
       = Some (verdict_on (store toy_world) tc)).
Proof.
  apply (run_tests_listed_order decimal toy_tests ["0.2"; "1.1"; "0.2"]).
  - done.
  - by_compute.
Defined.

Lemma toy_tests_numeric tid :
  is_Some (toy_tests !! tid) → is_Some (id_key decimal tid).
Proof.
  intros [tc Htc].
  assert (map_Forall (λ tid _, is_Some (id_key decimal tid)) toy_tests) as H
    by by_compute.
  exact (H tid tc Htc).
Qed.

Lemma run_tests_whole_suite_witness :
  ∃ w' new,
    run_tests decimal toy_tests (Some []) toy_world = Ok tt w' ∧
    store w' = store toy_world ∧
    console w'
      = console toy_world ++ new
          ++ [Summary (total (runner_results w'))
                (passed (runner_results w'))
                (failed (runner_results w'))] ∧
    NoDup (headers new) ∧
    (∀ tid, tid ∈ headers new ↔ is_Some (toy_tests !! tid)) ∧
    Sorted (id_le decimal) (headers new) ∧
    total (runner_results w') = size toy_tests ∧
    (∀ tid tc, toy_tests !! tid = Some tc →
       d_status <$> details (runner_results w') !! tid
       = Some (verdict_on (store toy_world) tc)).
Proof.
  apply (run_tests_whole_suite decimal toy_tests (Some [])).
  - by right.
  - exact toy_tests_numeric.
Defined.

Lemma run_tests_non_numeric_id_witness :
  ∃ message,
    run_tests decimal named_tests None toy_world
    = Raise (ValueError message) toy_world.
Proof.
  apply (run_tests_non_numeric_id decimal named_tests None "smoke").
  - by left.
  - by_compute.
  - reflexivity.
Defined.

End RunProps.

(** ** Running levels *)

Module StagedProps.
Import Py PyFacts Runner RunnerFacts Executor ExecutorFacts Trace RunProps.
Import Staged Examples Samples.

Section executor.
Context {Store : Type} `{!Backend Store}.
Variable int_of_str : string → option Z.
Variable tests : gmap string test_case.
Variable files : gmap string string.


Section config.
Variable cfg : config.
Variable _resolve_script_path : string → string.


(** X22. When the scripts before it have been applied and a script
    of the list does not exist, [run_level] returns the dictionary with the
    error [Materialization script not found: <path>]: the counters are
    untouched, no test is run, and the scripts after the missing one are
    never read, whatever they are. *)
Theorem run_level_missing_script (level : Z) (info : level_info)
    (done_scripts rest : list string) (script_path : string)
    (w w1 : world (Store:=Store)) :
  test_levels cfg !! pretty level = Some info →
  apply_scripts files done_scripts
    {| store := store w; runner_results := runner_results w;
       console := console w ++ [RunningLevel level] |} = Ok None w1 →
  files !! script_path = None →
  let message :=
    String.append "Materialization script not found: " script_path in
  run_level int_of_str tests cfg files _resolve_script_path level
    (Some (done_scripts ++ script_path :: rest)) w
  = Ok (MaterializationError message)
       {| store := store w1; runner_results := runner_results w;
          console := console w1 ++ [Stopping message] |}.
Proof.
  intros Hinfo Hdone Hmiss message.
  destruct (run_level_inv int_of_str tests cfg files _resolve_script_path
              level (Some (done_scripts ++ script_path :: rest))
              info w Hinfo) as (stopped & w2 & Hs & ->).
  simpl in Hs. rewrite (apply_scripts_app files _ _ _ _ Hdone) in Hs.
  destruct (apply_scripts_spec files done_scripts
              {| store := store w; runner_results := runner_results w;
                 console := console w ++ [RunningLevel level] |})
    as (st & lines & w1' & Hs1 & Hres & _).
  rewrite Hdone in Hs1. injection Hs1 as <- <-. simpl in Hres.
  revert Hs. simpl. unfold bind at 1, try_, apply_materialization.
  rewrite Hmiss. unfold raise, bind, print, ret. simpl.
  intros [= <- <-]. by rewrite Hres.
Qed.

(** X23. A level whose list of tests is empty does not run
    nothing: when [run_level] returns the runner's results for it, the
    whole suite has been run, [total] is the size of the suite and every
    test of the suite has an entry in [details]. *)
Theorem run_level_without_tests_runs_suite (level : Z) (info : level_info)
    (materialize : option (list string)) (w w' : world (Store:=Store)) :
  test_levels cfg !! pretty level = Some info →
  level_tests info = [] →
  run_level int_of_str tests cfg files _resolve_script_path level
    materialize w = Ok RunnerResults w' →
  total (runner_results w') = size tests ∧
  ∀ tid, is_Some (tests !! tid) →
    is_Some (details (runner_results w') !! tid).
Proof.
  intros Hinfo Hnil.
  destruct (run_level_inv int_of_str tests cfg files _resolve_script_path
              level materialize info w Hinfo)
    as (stopped & w1 & _ & ->).
  destruct stopped; [done|]. rewrite Hnil. intros Hrun.
  pose proof (run_tests_spec int_of_str tests (Some []) w1) as Hspec.
  destruct (tests_to_run int_of_str tests (Some [])) as [e|to_run] eqn:Hto.
  { rewrite Hspec in Hrun. done. }
  clear Hspec.
  assert (to_run ≡ₚ map_to_list tests) as Hperm.
  { apply (whole_suite_perm int_of_str tests (Some [])); [by right|done]. }
  assert (∀ tid tc, (tid, tc) ∈ to_run ↔ tests !! tid = Some tc) as Hmem.
  { intros tid tc. by rewrite Hperm, elem_of_map_to_list. }
  destruct (run_tests_details int_of_str tests (Some []) to_run w1 Hto)
    as (w2 & new & Hrun2 & _ & _ & _ & Htot & _ & Hdet).
  { intros tid tc. by rewrite Hmem. }
  rewrite Hrun2 in Hrun. injection Hrun as <-. split.
  - by rewrite Htot, Hperm, length_map_to_list.
  - intros tid [tc Htc]. apply Hmem in Htc. specialize (Hdet tid tc Htc).
    destruct (details (runner_results w2) !! tid); [done|done].
Qed.

End config.

Lemma run_level_given cfg cfg' resolve resolve' level given
    (w : world (Store:=Store)) :
  test_levels cfg = test_levels cfg' →
  run_level int_of_str tests cfg files resolve level (Some given) w
  = run_level int_of_str tests cfg' files resolve' level (Some given) w.
Proof. unfold run_level. by intros ->. Qed.

(** X24. [run_all_levels] never reads the
    [materialization_requirements] of the configuration nor resolves a
    path: a level missing from [materialize_per_level] gets the empty list,
    not [None], so two configurations with the same levels give the same
    run. *)
Theorem run_all_levels_ignores_requirements (cfg cfg' : config)
    (resolve resolve' : string → string) (start_level : Z)
    (materialize_per_level : option (gmap Z (list string)))
    (w : world (Store:=Store)) :
  test_levels cfg = test_levels cfg' →
  run_all_levels int_of_str tests cfg files resolve start_level
    materialize_per_level w
  = run_all_levels int_of_str tests cfg' files resolve' start_level
      materialize_per_level w.
Proof.
  intros Hcfg. unfold run_all_levels.
  generalize (seqZ start_level (4 - start_level)) as levels.
  generalize (@nil (string * level_result)) as acc.
  intros acc levels. revert acc w.
  induction levels as [|level levels IH]; intros acc w; [done|].
  simpl. unfold bind at 1 3.
  rewrite (run_level_given cfg cfg' resolve resolve' _ _ _ Hcfg).
  destruct (run_level _ _ cfg' _ _ _ _ _) as [r w1|e w1]; [|done].
  destruct (decide _); [done|]. apply IH.
Qed.

Lemma levels_loop_keys cfg resolve levels materialize_per_level acc
    (w : world (Store:=Store)) all w' :
  levels_loop int_of_str tests cfg files resolve levels
    materialize_per_level acc w = Ok all w' →
  ∃ n new,
    all = acc ++ new ∧ length new = n ∧
    new.*1 = level_key <$> take n levels ∧
    (n ≤ length levels)%nat ∧
    ((n < length levels)%nat →
     last new.*2 = Some RunnerResults ∧
     (0 < failed (runner_results w'))%nat ∧
     ∃ level, levels !! pred n = Some level ∧
              last (console w') = Some (LevelHasFailures level)).
Proof.
  revert acc w. induction levels as [|level levels IH]; intros acc w.
  - simpl. unfold ret. intros [= <- <-]. exists 0%nat, [].
    rewrite app_nil_r. split_and!; try done. simpl. lia.
  - simpl. unfold bind at 1.
    destruct (run_level _ _ _ _ _ _ _ _) as [r w1|e w1] eqn:Hrun; [|done].
    destruct (decide _) as [Hfail|Hfail].
    + unfold bind, print, ret. intros [= <- <-].
      exists 1%nat, [(level_key level, r)]. split_and!; try done.
      { simpl. lia. }
      intros _. simpl. split_and!.
      * destruct r; [done|]. simpl in Hfail. lia.
      * destruct r; [done|]. simpl in Hfail. lia.
      * exists level. split; [done|]. by rewrite last_snoc.
    + intros Hloop. destruct (IH _ _ Hloop) as (n & new & -> & Hlen & Hkeys
                                                 & Hle & Hstop).
      exists (S n), ((level_key level, r) :: new).
      rewrite <- app_assoc. split_and!; try done.
      * simpl. by rewrite Hlen.
      * rewrite fmap_cons. simpl. f_equal. exact Hkeys.
      * simpl. lia.
      * intros Hlt. simpl in Hlt.
        destruct Hstop as (Hlast & Hf & lv & Hlv & Hcon); [lia|].
        destruct n as [|n].
        { apply nil_length_inv in Hlen. by subst new. }
        split_and!; try done.
        -- destruct new as [|x new]; [done|]. simpl. simpl in Hlast.
           exact Hlast.
        -- exists lv. by split.
Qed.

(** X25. The result of [run_all_levels] has the keys
    [level_<start>], [level_<start+1>], ... without a gap, at most up to
    level 3.  When it ends before level 3, the last level run returned the
    runner's results with [failed] above zero and the last line printed is
    the notice of that level: a level whose scripts could not be applied
    never ends the run. *)
Theorem run_all_levels_stops_only_on_failures (cfg : config)
    (resolve : string → string) (start_level : Z)
    (materialize_per_level : option (gmap Z (list string)))
    (w w' : world (Store:=Store)) (all_results : list (string * level_result)) :
  run_all_levels int_of_str tests cfg files resolve start_level
    materialize_per_level w = Ok all_results w' →
  all_results.*1
  = level_key <$> seqZ start_level (Z.of_nat (length all_results)) ∧
  (Z.of_nat (length all_results) ≤ Z.max 0 (4 - start_level))%Z ∧
  ((Z.of_nat (length all_results) < 4 - start_level)%Z →
   last all_results.*2 = Some RunnerResults ∧
   (0 < failed (runner_results w'))%nat ∧
   last (console w')
   = Some (LevelHasFailures
             (start_level + Z.of_nat (length all_results) - 1))).
Proof.
  unfold run_all_levels. intros Hloop.
  destruct (levels_loop_keys _ _ _ _ _ _ _ _ Hloop)
    as (n & new & Hall & Hlen & Hkeys & Hle & Hstop).
  simpl in Hall. subst all_results. rewrite length_seqZ in Hle, Hstop.
  rewrite Hlen. split_and!.
  - rewrite Hkeys. f_equal. apply list_eq. intros i.
    destruct (decide (i < n)%nat) as [Hi|Hi].
    + rewrite lookup_take_lt by done.
      rewrite !lookup_seqZ_lt by lia. done.
    + rewrite lookup_take_ge by lia. by rewrite lookup_seqZ_ge by lia.
  - lia.
  - intros Hlt. destruct Hstop as (Hlast & Hf & lv & Hlv & Hcon); [lia|].
    split_and!; try done. rewrite Hcon. do 2 f_equal.
    apply lookup_seqZ in Hlv as [-> _].
    destruct n; [|simpl; lia].
    apply nil_length_inv in Hlen. by subst new.
Qed.

End executor.


Lemma run_level_missing_script_witness :
  run_level decimal toy_tests passing_levels one_script id 0
    (Some (["ok.rq"] ++ "missing.rq" :: ["later.rq"])) toy_world
  = Ok (MaterializationError
          "Materialization script not found: missing.rq")
       {| store := store world_after_ok_script;
          runner_results := runner_results toy_world;
          console :=
            console world_after_ok_script
            ++ [Stopping "Materialization script not found: missing.rq"] |}.
Proof.
  apply (run_level_missing_script decimal toy_tests one_script passing_levels
           id 0
           {| level_name := "base"; level_tests := ["0.1"] |}
           ["ok.rq"] ["later.rq"] "missing.rq" toy_world
           world_after_ok_script).
  - reflexivity.
  - by_compute.
  - reflexivity.
Defined.

Lemma run_level_without_tests_runs_suite_witness :
  total (runner_results world_after_empty_level) = size toy_tests ∧
  ∀ tid, is_Some (toy_tests !! tid) →
    is_Some (details (runner_results world_after_empty_level) !! tid).
Proof.
  apply (run_level_without_tests_runs_suite decimal toy_tests no_files
           empty_first_level id 0
           {| level_name := "base"; level_tests := [] |} None toy_world).
  - reflexivity.
  - reflexivity.
  - by_compute.
Defined.

Lemma run_all_levels_ignores_requirements_witness :
  run_all_levels decimal toy_tests passing_levels no_files id 0 None
    toy_world
  = run_all_levels decimal toy_tests scripted_levels no_files
      (String.append "/project/") 0 None toy_world.
Proof.
  apply (run_all_levels_ignores_requirements decimal toy_tests no_files
           passing_levels scripted_levels).
  reflexivity.
Defined.

Lemma run_all_levels_stops_only_on_failures_witness :
  [("level_0", RunnerResults)].*1
  = level_key
      <$> seqZ 0 (Z.of_nat (length [("level_0", RunnerResults)])) ∧
  (Z.of_nat (length [("level_0", RunnerResults)]) ≤ Z.max 0 (4 - 0))%Z ∧
  ((Z.of_nat (length [("level_0", RunnerResults)]) < 4 - 0)%Z →
   last [("level_0", RunnerResults)].*2 = Some RunnerResults ∧
   (0 < failed (runner_results failing_run_world))%nat ∧
   last (console failing_run_world)
   = Some (LevelHasFailures
             (0 + Z.of_nat (length [("level_0", RunnerResults)]) - 1))).
Proof.
  apply (run_all_levels_stops_only_on_failures decimal toy_tests no_files
           failing_first_level id 0 None toy_world failing_run_world
           [("level_0", RunnerResults)]).
  by_compute.
Defined.

End StagedProps.

(** ** All levels together *)

Module CliProps.
Import Py PyFacts Runner RunnerFacts Executor ExecutorFacts Cli.
Import Examples Samples.

Lemma index_lt x xs i : index x xs = Some i → (i < length xs)%nat.
Proof.
  revert i. induction xs as [|y xs IH]; intros i; simpl; [done|].
  destruct (decide (y = x)); [intros [= <-]; lia|].
  destruct (index x xs) as [j|]; [|done]. simpl. intros [= <-].
  specialize (IH j eq_refl). lia.
Qed.

Lemma index_elem_of x xs : x ∈ xs → is_Some (index x xs).
Proof.
  induction 1 as [x xs|x y xs _ IH]; simpl.
  - rewrite decide_True by done. by eexists.
  - destruct (decide (y = x)); [by eexists|]. destruct IH as [i ->].
    by eexists.
Qed.

Lemma index_app_l x xs ys :
  x ∈ xs → index x (xs ++ ys) = index x xs.
Proof.
  induction 1 as [x xs|x y xs _ IH]; simpl.
  - by destruct (decide (x = x)).
  - destruct (decide (y = x)); [done|]. by rewrite IH.
Qed.

Lemma index_app_r x xs :
  x ∉ xs → index x (xs ++ [x]) = Some (length xs).
Proof.
  induction xs as [|y xs IH]; intros Hx; simpl.
  - by destruct (decide (x = x)).
  - apply not_elem_of_cons in Hx as [Hne Hx].
    destruct (decide (y = x)); [congruence|]. by rewrite IH.
Qed.

Lemma dedupe_step_kept acc seen script :
  kept_in_order acc seen →
  kept_in_order (dedupe_step acc script) (seen ++ [script]).
Proof.
  intros (Hnd & Hset & Hmem & Hord). unfold dedupe_step.
  destruct (decide (script ∈ acc.2)) as [Hin|Hin].
  - split_and!; try done.
    + intros x. rewrite elem_of_app, list_elem_of_singleton, Hmem.
      split; [by left|]. intros [?| ->]; [done|]. by apply Hmem, Hset.
    + intros i j x y Hi Hj Hlt.
      destruct (Hord i j x y Hi Hj Hlt) as (i' & j' & Hi' & Hj' & Hlt').
      exists i', j'. split_and!; try done.
      * rewrite index_app_l; [done|]. apply Hmem.
        by eapply list_elem_of_lookup_2.
      * rewrite index_app_l; [done|]. apply Hmem.
        by eapply list_elem_of_lookup_2.
  - assert (script ∉ acc.1) as Hin1 by by rewrite <- Hset.
    assert (script ∉ seen) as Hin2 by by rewrite <- Hmem.
    unfold kept_in_order. cbn [fst snd]. split_and!.
    + apply NoDup_app. split_and!; [done| |apply NoDup_singleton].
      intros x Hx ->%list_elem_of_singleton. done.
    + intros x. rewrite elem_of_union, elem_of_singleton, elem_of_app,
        list_elem_of_singleton, Hset. done.
    + intros x. by rewrite !elem_of_app, Hmem.
    + intros i j x y Hi Hj Hlt.
      assert (i < length acc.1)%nat as Hil.
      { apply lookup_lt_Some in Hj. rewrite length_app in Hj. simpl in Hj.
        lia. }
      rewrite lookup_app_l in Hi by done.
      assert (x ∈ seen) as Hx by (apply Hmem; by eapply list_elem_of_lookup_2).
      destruct (decide (j < length acc.1)%nat) as [Hjl|Hjl].
      * rewrite lookup_app_l in Hj by done.
        destruct (Hord i j x y Hi Hj Hlt) as (i' & j' & Hi' & Hj' & Hlt').
        exists i', j'. split_and!; try done.
        -- by rewrite index_app_l.
        -- rewrite index_app_l; [done|]. apply Hmem.
           by eapply list_elem_of_lookup_2.
      * rewrite lookup_app_r in Hj by lia.
        apply list_lookup_singleton_Some in Hj as [_ <-].
        destruct (index_elem_of x seen Hx) as [i' Hi'].
        exists i', (length seen). split_and!.
        -- by rewrite index_app_l.
        -- by apply index_app_r.
        -- by apply index_lt in Hi'.
Qed.

Lemma dedupe_foldl_kept rest acc seen :
  kept_in_order acc seen →
  kept_in_order (foldl dedupe_step acc rest) (seen ++ rest).
Proof.
  revert acc seen. induction rest as [|x rest IH]; intros acc seen Hk.
  - by rewrite app_nil_r.
  - simpl. change (seen ++ x :: rest) with (seen ++ [x] ++ rest).
    rewrite (assoc_L (++) seen [x] rest).
    apply IH. by apply dedupe_step_kept.
Qed.

Lemma collect_levels_kept (mat_config : gmap string (list string))
    (levels : list Z) acc seen :
  kept_in_order acc seen →
  kept_in_order
    (foldl (λ acc level,
              foldl dedupe_step acc (level_scripts mat_config level))
       acc levels)
    (seen ++ (levels ≫= level_scripts mat_config)).
Proof.
  revert acc seen. induction levels as [|level levels IH]; intros acc seen Hk.
  - simpl. by rewrite app_nil_r.
  - simpl. rewrite (assoc_L (++)). apply IH. by apply dedupe_foldl_kept.
Qed.

(** X26. The fallback of the all-levels mode collects the scripts of
    levels 0 to 9 without repetition: every script listed for one of these
    levels is collected once, nothing else is, and the scripts are kept in
    the order of their first occurrence. *)
Theorem collect_scripts_first_seen (mat_config : gmap string (list string)) :
  let listed := seqZ 0 10 ≫= level_scripts mat_config in
  NoDup (collect_scripts mat_config) ∧
  (∀ script, script ∈ collect_scripts mat_config ↔ script ∈ listed) ∧
  ∀ i j x y,
    collect_scripts mat_config !! i = Some x →
    collect_scripts mat_config !! j = Some y → (i < j)%nat →
    ∃ i' j', index x listed = Some i' ∧ index y listed = Some j' ∧
             (i' < j')%nat.
Proof.
  intros listed.
  destruct (collect_levels_kept mat_config (seqZ 0 10) ([], ∅) [])
    as (Hnd & _ & Hmem & Hord).
  - unfold kept_in_order. cbn [fst snd]. split_and!.
    + constructor.
    + intros x. split; [by intros ?%elem_of_empty|by intros ?%elem_of_nil].
    + done.
    + intros i j x y H. by rewrite lookup_nil in H.
  - done.
Qed.

Section cli.
Context {Store : Type} `{!Backend Store}.
Variable int_of_str : string → option Z.
Variable tests : gmap string test_case.
Variable cfg : config.
Variable files : gmap string string.
Variable _resolve_script_path : string → string.

Lemma for_scripts_spec scripts (w : world (Store:=Store)) :
  ∃ lines w',
    (for_ scripts (apply_materialization files) w = Ok tt w' ∧
     Forall (λ p, is_Some (files !! p)) scripts ∨
     ∃ e, for_ scripts (apply_materialization files) w = Raise e w') ∧
    runner_results w' = runner_results w ∧
    console w' = console w ++ lines ∧
    Forall is_script_line lines.
Proof.
  revert w. induction scripts as [|p scripts IH]; intros w.
  - exists [], w. rewrite app_nil_r. split_and!; try done. left. by split.
  - destruct (apply_materialization_spec files p w)
      as (lines1 & w1 & Hrun & Hres & Hcon & Hlines).
    destruct Hrun as [Hrun|[e Hrun]].
    + destruct (IH w1) as (lines2 & w2 & Hrun2 & Hres2 & Hcon2 & Hlines2).
      exists (lines1 ++ lines2), w2. split_and!.
      * simpl. unfold bind at 1 2. rewrite Hrun.
        destruct Hrun2 as [[Hrun2 Hall]|[e Hrun2]].
        -- left. split; [done|]. constructor; [|done].
           destruct (files !! p) eqn:E; [done|].
           destruct (missing_script_raises files p w E) as [e He].
           congruence.
        -- right. by exists e.
      * congruence.
      * by rewrite Hcon2, Hcon, <- app_assoc.
      * by apply Forall_app.
    + exists lines1, w1. split_and!; try done.
      right. exists e. simpl. unfold bind. by rewrite Hrun.
Qed.

(** X27. In the all-levels mode no handler stands around the scripts:
    when one of them does not exist the run ends with an exception before
    [run_tests] is called; the counters are unchanged and no test line is
    written, only lines of the scripts applied before. *)
Theorem run_all_together_missing_script (script : string)
    (w : world (Store:=Store)) :
  script ∈ all_materialize (materialization_requirements cfg) →
  files !! _resolve_script_path script = None →
  ∃ e lines w',
    run_all_together int_of_str tests cfg files _resolve_script_path w
    = Raise e w' ∧
    runner_results w' = runner_results w ∧
    console w' = console w ++ lines ∧
    Forall is_script_line lines.
Proof.
  intros Hin Hmiss. unfold run_all_together.
  destruct (for_scripts_spec
              (_resolve_script_path
                 <$> all_materialize (materialization_requirements cfg)) w)
    as (lines & w' & Hrun & Hres & Hcon & Hlines).
  destruct Hrun as [[_ Hall]|[e Hrun]].
  - rewrite Forall_forall in Hall.
    destruct (Hall (_resolve_script_path script)) as [? Hs].
    + apply list_elem_of_fmap. by exists script.
    + congruence.
  - exists e, lines, w'. split_and!; try done.
    unfold bind. by rewrite Hrun.
Qed.

End cli.

Lemma run_all_together_missing_script_witness :
  ∃ e lines w',
    run_all_together decimal toy_tests scripted_levels no_files id toy_world
    = Raise e w' ∧
    runner_results w' = runner_results toy_world ∧
    console w' = console toy_world ++ lines ∧
    Forall is_script_line lines.
Proof.
  apply (run_all_together_missing_script decimal toy_tests scripted_levels
           no_files id "b.rq").
  - by_compute.
  - reflexivity.
Defined.

End CliProps.
